(** * Layout engine of the grand-staff renderer

    A shallow embedding of the layout computations of
    [src/components/svg/SvgGrandStaff.tsx] (beam grouping, beam line,
    accidental tracking, horizontal cursors) and of
    [src/components/svg/SvgChord.tsx] (note position, stems, displayed
    accidentals), followed by the properties the specification states
    about them.

    Conventions of the embedding.
    - A JavaScript [number] that is always finite is a rational [Q]: the
      arithmetic is exact, so the statements are about the computation the
      code describes, not about its IEEE-754 rounding.  Where the code can
      produce [Infinity] or [-Infinity] ([Math.min()] and [Math.max()] of an
      empty spread, the initial [closestNoteY]) the value is an [xnum].
    - The one sum whose sign picks a branch, the [reduce] of [getBeamLine]
      that decides the side of the beam, is computed as the code computes
      it, in binary64: each [+] and [-] of it gives the double nearest to
      the exact result, ties to even, or an infinity on overflow
      ([toDouble], [roundDouble], [doublePlus], [doubleMinus]).
    - A JavaScript exception ([chord[0].rhythmicValue] on an empty chord) is
      [None] in the option monad, in the functions that can throw
      ([isEighth], [groupBeamGroups], [createClefNotes], [GrandStaff]).  A
      value that may be [undefined] (the result of [getBeamLine], [stemTo],
      a displayed accidental) is an option as well.
    - [Record<Letter, Accidental>] is a [gmap Letter Accidental]; the spread
      [{...a, ...b}] is the left-biased union [b ∪ a].
    - React elements are records holding the props the code passes. *)

From Stdlib Require Import QArith Qabs Qminmax Qround Qpower ZArith Lia Lqa.
From stdpp Require Import base option list countable gmap.

Local Open Scope Q_scope.

(* ================================================================== *)
(** ** Numbers that may be infinite *)
(* ================================================================== *)

Inductive xnum : Type :=
  | NInf : xnum
  | Fin : Q → xnum
  | PInf : xnum.

(** [x + q] for a finite [q]: an infinity absorbs it. *)
Definition xplus (x : xnum) (q : Q) : xnum :=
  match x with
  | NInf => NInf
  | Fin p => Fin (p + q)
  | PInf => PInf
  end.

Definition xminus (x : xnum) (q : Q) : xnum := xplus x (- q).

(** [x < y] and [x <= y] as JavaScript evaluates them. *)
Definition xltb (x y : xnum) : bool :=
  match x, y with
  | _, NInf => false
  | NInf, _ => true
  | PInf, _ => false
  | Fin _, PInf => true
  | Fin p, Fin q => negb (Qle_bool q p)
  end.

Definition xleb (x y : xnum) : bool :=
  match x, y with
  | NInf, _ => true
  | _, PInf => true
  | _, NInf => false
  | PInf, _ => false
  | Fin p, Fin q => Qle_bool p q
  end.

Definition xmin (x y : xnum) : xnum := if xltb y x then y else x.
Definition xmax (x y : xnum) : xnum := if xltb x y then y else x.

(** [Math.min(...l)] and [Math.max(...l)]. *)
Definition Math_min (l : list Q) : xnum := foldr (λ q acc, xmin (Fin q) acc) PInf l.
Definition Math_max (l : list Q) : xnum := foldr (λ q acc, xmax (Fin q) acc) NInf l.

(** Equality of possibly infinite numbers, up to the equality of [Q]. *)
Definition xeq (x y : xnum) : Prop :=
  match x, y with
  | NInf, NInf => True
  | PInf, PInf => True
  | Fin p, Fin q => p == q
  | _, _ => False
  end.

Definition xle (x y : xnum) : Prop := xleb x y = true.

(* ================================================================== *)
(** ** Double-precision addition *)
(* ================================================================== *)

(** [2^k], for any integer [k]. *)
Definition pow2 (k : Z) : Q := Qpower 2 k.

(** The [e] with [2^e <= |q| < 2^(e+1)], for [q] other than 0: the
    difference of the bit lengths of numerator and denominator, or one
    less. *)
Definition floorLog2 (q : Q) : Z :=
  let e := (Z.log2 (Z.abs (Qnum q)) - Z.log2 (Zpos (Qden q)))%Z in
  if Qle_bool (pow2 e) (Qabs q) then e else (e - 1)%Z.

(** The exponent of the unit in the last place of the doubles around [q]:
    53 significant bits, and never below the exponent -1074 of the
    subnormal numbers. *)
Definition ulpExponent (q : Q) : Z := Z.max (floorLog2 q - 52) (-1074).

(** The integer nearest to [x]; of two nearest ones, the even one. *)
Definition roundHalfEven (x : Q) : Z :=
  let below := Qfloor x in
  match Qcompare (x - inject_Z below) (1 # 2) with
  | Lt => below
  | Gt => (below + 1)%Z
  | Eq => if Z.even below then below else (below + 1)%Z
  end.

(** The binary64 number nearest to [q], ties to even, before the test for
    overflow. *)
Definition toDouble (q : Q) : Q :=
  if Qeq_bool q 0 then 0
  else let ulp := pow2 (ulpExponent q) in
       inject_Z (roundHalfEven (q / ulp)) * ulp.

(** The result of an operation whose exact value is [q]: the nearest
    double, or an infinity when that is [2^1024] or more in magnitude. *)
Definition roundDouble (q : Q) : xnum :=
  let d := toDouble q in
  if Qle_bool (pow2 1024) (Qabs d)
  then (if Qle_bool 0 d then PInf else NInf)
  else Fin d.

(** [x + q] and [x - q] as JavaScript evaluates them, for a double [x] that
    may be infinite and a finite double [q]: an infinity absorbs [q], and
    no NaN can arise. *)
Definition doublePlus (x : xnum) (q : Q) : xnum :=
  match x with
  | Fin p => roundDouble (p + q)
  | _ => x
  end.

Definition doubleMinus (x : xnum) (q : Q) : xnum := doublePlus x (- q).

(** An integer multiple of [2^-30]: an integer, a half, a quarter, ..., as
    are the means of 1, 2, 4, ... integer pitches. *)
Definition dyadic (q : Q) : Prop := ∃ z : Z, q == inject_Z z * pow2 (-30).

(* ================================================================== *)
(** ** Data model *)
(* ================================================================== *)

(** The enums of [datatypes/BasicTypes], with the members the code uses:
    the letters of [TREBLE_CLEF], the accidentals of the [switch] of
    [createAccidental], the two clefs. *)
Inductive Letter : Type := A | B | C | D | E | F | G.
Inductive Accidental : Type := FLAT | NATURAL | SHARP.
Inductive Clef : Type := TREBLE | BASS.

(** Modelled from the spec: the enum [RhythmicValue] is declared in
    [datatypes/BasicTypes], which is not among the sources; the code names
    its members [WHOLE], [HALF] and [EIGHTH], the spec adds [QUARTER].  The
    number behind each member is the parameter [rhythmicWidth] below. *)
Inductive RhythmicValue : Type := WHOLE | HALF | QUARTER | EIGHTH.

#[global] Instance Letter_eq_dec : EqDecision Letter.
Proof. solve_decision. Defined.
#[global] Instance Accidental_eq_dec : EqDecision Accidental.
Proof. solve_decision. Defined.
#[global] Instance Clef_eq_dec : EqDecision Clef.
Proof. solve_decision. Defined.
#[global] Instance RhythmicValue_eq_dec : EqDecision RhythmicValue.
Proof. solve_decision. Defined.

(** [TREBLE_CLEF.indexOf(letter)] for
    [TREBLE_CLEF = ['C', 'D', 'E', 'F', 'G', 'A', 'B']]. *)
Definition TREBLE_CLEF : list Letter := [C; D; E; F; G; A; B].

Definition indexOf (l : list Letter) (x : Letter) : Z :=
  (fix go (l : list Letter) (i : Z) : Z :=
     match l with
     | [] => (-1)%Z
     | y :: l' => if decide (y = x) then i else go l' (i + 1)%Z
     end) l 0%Z.

Definition Letter_to_pos (l : Letter) : positive :=
  match l with
  | A => 1 | B => 2 | C => 3 | D => 4 | E => 5 | F => 6 | G => 7
  end%positive.

Definition Letter_of_pos (p : positive) : option Letter :=
  match p with
  | 1 => Some A | 2 => Some B | 3 => Some C | 4 => Some D
  | 5 => Some E | 6 => Some F | 7 => Some G | _ => None
  end%positive.

#[global] Instance Letter_countable : Countable Letter.
Proof.
  refine (inj_countable Letter_to_pos Letter_of_pos _).
  intros []; reflexivity.
Defined.

(** The label of a note: its notated spelling. *)
Record NoteLabel : Type := mkLabel {
  letter : Letter;
  accidental : Accidental;
}.

(** A note, as the layout code observes it: [getLabel()], [getOctave()],
    [pitch] and [rhythmicValue]. *)
Record Note : Type := mkNote {
  getLabel : NoteLabel;
  getOctave : Z;
  pitch : Q;
  rhythmicValue : RhythmicValue;
}.

(** [LabeledChord] is [Note[]]: the type admits the empty chord. *)
Definition LabeledChord : Type := list Note.

(* ================================================================== *)
(** ** Beam functions (SvgGrandStaff.tsx) *)
(* ================================================================== *)

Definition BEAM_SLOPE : Q := 20 # 100.

(** [unsnoc l] splits [l] into everything but its last element, and its
    last element: [beamGroups[beamGroups.length-1]]. *)
Fixpoint unsnoc {X : Type} (l : list X) : option (list X * X) :=
  match l with
  | [] => None
  | x :: l' =>
      match unsnoc l' with
      | None => Some ([], x)
      | Some (init, y) => Some (x :: init, y)
      end
  end.

(** [chord[0].rhythmicValue === RhythmicValue.EIGHTH]; reading a property
    of [undefined] throws. *)
Definition isEighth (chord : LabeledChord) : option bool :=
  match chord with
  | [] => None
  | n :: _ => Some (bool_decide (rhythmicValue n = EIGHTH))
  end.

Record BeamLine : Type := mkBeamLine {
  isAbove : bool;
  getY : Q → xnum;
}.

(** [q + x] where [x] may be infinite. *)
Definition qplus (q : Q) (x : xnum) : xnum :=
  match x with
  | NInf => NInf
  | Fin p => Fin (q + p)
  | PInf => PInf
  end.

Definition middlePitch (clef : Clef) : Q :=
  if decide (clef = TREBLE) then 71 else 50.

(* ================================================================== *)
(** ** SVG component utilities and the component (SvgGrandStaff.tsx) *)
(* ================================================================== *)

Record SizingData : Type := mkSizes {
  staffHeight : Q;
  staffLineHeight : Q;
  staffThickness : Q;
}.

(** Relative to the staff line height (SvgChord.tsx). *)
Definition NOTE_WIDTH_RATIO : Q := 7 / 12.
Definition NOTE_HEIGHT_RATIO : Q := 5 / 12.

Definition PADDING_RATIO : Q := 20 / 100.
Definition STAFF_RATIO : Q := 20 / 100.
Definition GAP_RATIO : Q := 20 / 100.
Definition BASE_NOTE_GAP_RATIO : Q := 5 * STAFF_RATIO.

(** The props of an [<SvgChord>] element, as [createSvgChord] sets them. *)
Record SvgChordProps : Type := mkChordProps {
  chord_clef : Clef;
  chord_x : Q;
  chord_staffLineHeight : Q;
  chord_strokeWidth : Q;
  labeledNoteGroup : list Note;
  accidentals : gmap Letter Accidental;
  stemTo : option xnum;
}.

(** The attributes of the [<line>] of [createSvgBeam]. *)
Record SvgBeamProps : Type := mkBeamProps {
  beam_x1 : Q;
  beam_x2 : Q;
  beam_y1 : xnum;
  beam_y2 : xnum;
  beam_strokeWidth : Q;
}.

Inductive Element : Type :=
  | ChordElement : SvgChordProps → Element
  | BeamElement : SvgBeamProps → Element.

Definition createSvgChord (sizes : SizingData) (labeledNoteGroup : list Note)
    (x : Q) (clef : Clef) (accidentals : gmap Letter Accidental)
    (stemTo : option xnum) : Element :=
  ChordElement
    {| chord_clef := clef;
       chord_x := x;
       chord_staffLineHeight := staffLineHeight sizes;
       chord_strokeWidth := staffThickness sizes;
       labeledNoteGroup := labeledNoteGroup;
       accidentals := accidentals;
       stemTo := stemTo |}.

Definition createSvgBeam (sizes : SizingData) (beamLine : Q → xnum)
    (x1 x2 : Q) : Element :=
  BeamElement
    {| beam_x1 := x1;
       beam_x2 := x2;
       beam_y1 := beamLine x1;
       beam_y2 := beamLine x2;
       beam_strokeWidth := 7 * staffThickness sizes |}.

(** The body of the [reduce] of [getDisplayedAccidentals]. *)
Definition displayedStep (accidentals : gmap Letter Accidental)
    (obj : gmap Letter Accidental) (note : Note) : gmap Letter Accidental :=
  let l := letter (getLabel note) in
  let a := accidental (getLabel note) in
  if decide (accidentals !! l = Some a) then obj else <[l := a]> obj.

Definition getDisplayedAccidentals (noteGroup : list Note)
    (accidentals : gmap Letter Accidental) : gmap Letter Accidental :=
  foldl (displayedStep accidentals) ∅ noteGroup.

(** The two lines that update [accidentals] after a chord:
    [{...accidentals, ...chordAccidentals}]. *)
Definition nextAccidentals (noteGroup : list Note)
    (accidentals : gmap Letter Accidental) : gmap Letter Accidental :=
  let chordAccidentals := getDisplayedAccidentals noteGroup accidentals in
  chordAccidentals ∪ accidentals.

(** [rhythmicValue] of the first note of a chord; throws on the empty
    chord. *)
Definition firstRhythmicValue (noteGroup : list Note) : option RhythmicValue :=
  match noteGroup with
  | [] => None
  | n :: _ => Some (rhythmicValue n)
  end.

(** One measure: a chord sequence per clef ([LabeledMusic]). *)
Record LabeledMusic : Type := mkMeasure {
  trebleClef : list (list Note);
  bassClef : list (list Note);
}.

Record SvgBarLineProps : Type := mkBarLine {
  bar_x : Q;
  bar_y : Q;
  bar_height : Q;
  bar_strokeWidth : Q;
}.

(** The reduce that builds [originalKeyLetters] from
    [musicKey.getNoteLabelsInKey()]. *)
Definition keyLetters (noteLabelsInKey : list (option NoteLabel))
    : gmap Letter Accidental :=
  foldl (λ obj label,
           match label with
           | Some lbl => <[letter lbl := accidental lbl]> obj
           | None => obj
           end) ∅ noteLabelsInKey.

(* ================================================================== *)
(** ** The chord component (SvgChord.tsx) *)
(* ================================================================== *)

(** The line or gap of a note: the local [basePosition] of [getNoteY],
    after its three steps. *)
Definition basePosition (labeledNote : Note) (clef : Clef) : Z :=
  (let baseClefOctave := if decide (clef = BASS) then 2 else 4 in
  let label := getLabel labeledNote in
  let basePosition0 :=
    indexOf TREBLE_CLEF (letter label)
    + (if decide (BASS = clef) then -2 else 0) in
  let octaveAdjustment0 :=
    if decide (letter label = C ∧ accidental label = FLAT) then 1 else 0 in
  let octaveAdjustment :=
    if decide (letter label = B ∧ accidental label = SHARP) then -1
    else octaveAdjustment0 in
  basePosition0
  + (getOctave labeledNote - baseClefOctave + octaveAdjustment) * 7)%Z.

Definition getNoteY (labeledNote : Note) (clef : Clef) (staffLineHeight : Q) : Q :=
  (5 * staffLineHeight)
  - (inject_Z (basePosition labeledNote clef) * staffLineHeight / 2).

(** The drawing primitives [SvgChord] emits. *)
Record NoteHead : Type := mkHead {
  head_cx : Q;
  head_cy : Q;
  head_rx : Q;
  head_ry : Q;
  head_strokeWidth : Q;
  head_filled : bool;
}.

Record NoteStem : Type := mkStem {
  stem_x1 : Q;
  stem_x2 : Q;
  stem_y1 : Q;
  stem_y2 : xnum;
  stem_strokeWidth : Q;
}.

Record AccidentalGlyph : Type := mkGlyph {
  glyph_x : Q;
  glyph_y : Q;
  glyph_fontSize : Q;
  glyph_text : Accidental;
}.

Inductive Primitive : Type :=
  | PHead : NoteHead → Primitive
  | PStem : NoteStem → Primitive
  | PAccidental : AccidentalGlyph → Primitive.

Definition createNoteHead (x y staffLineHeight strokeWidth : Q) (note : Note)
    : Primitive :=
  PHead
    {| head_cx := x;
       head_cy := y;
       head_rx := NOTE_WIDTH_RATIO * staffLineHeight;
       head_ry := NOTE_HEIGHT_RATIO * staffLineHeight;
       head_strokeWidth := 2 * strokeWidth;
       head_filled :=
         negb (bool_decide (rhythmicValue note ∈ [WHOLE; HALF])) |}.

(** The local [pointsDown] of [createNoteStem]. *)
Definition pointsDown (noteY : Q) (stemTo : option xnum) (staffLineHeight : Q)
    : bool :=
  match stemTo with
  | Some s => xltb (Fin noteY) s
  | None => negb (Qle_bool (2 * staffLineHeight) noteY)
  end.

Definition createNoteStem (noteX noteY : Q) (stemTo : option xnum)
    (staffLineHeight strokeWidth : Q) : Primitive :=
  let down := pointsDown noteY stemTo staffLineHeight in
  let stemX :=
    if down then noteX - NOTE_WIDTH_RATIO * staffLineHeight
    else noteX + NOTE_WIDTH_RATIO * staffLineHeight in
  let stemY := noteY in
  let stemY2 :=
    match stemTo with
    | Some s => s
    | None =>
        Fin (if down then stemY + 3 * staffLineHeight
             else stemY - 3 * staffLineHeight)
    end in
  PStem
    {| stem_x1 := stemX;
       stem_x2 := stemX;
       stem_y1 := stemY;
       stem_y2 := stemY2;
       stem_strokeWidth := 2 * strokeWidth |}.

Definition createAccidental (noteX noteY staffLineHeight : Q)
    (accidental : Accidental) : Primitive :=
  let budge :=
    match accidental with
    | FLAT => -3
    | NATURAL => 5
    | SHARP => 3
    end in
  PAccidental
    {| glyph_x := noteX - NOTE_WIDTH_RATIO * staffLineHeight - 3;
       glyph_y := noteY + budge;
       glyph_fontSize := 2 * staffLineHeight;
       glyph_text := accidental |}.

(** Modelled from the spec: [NoteLabel.getDisplayedAccidental] is a method
    of [datatypes/ComplexTypes], which is not among the sources.  Spec 4.2:
    a note's accidental is displayed only when it differs from the
    accidental currently in force for its letter. *)
Definition getDisplayedAccidental (label : NoteLabel)
    (accidentals : gmap Letter Accidental) : option Accidental :=
  if decide (accidentals !! letter label = Some (accidental label))
  then None
  else Some (accidental label).

(** The primitives [SvgChord] pushes for one note of the chord. *)
Definition SvgChord_note (props : SvgChordProps) (labeledNote : Note)
    : list Primitive :=
  let x := chord_x props in
  let slh := chord_staffLineHeight props in
  let y := getNoteY labeledNote (chord_clef props) slh in
  [createNoteHead x y slh (chord_strokeWidth props) labeledNote]
  ++ (if decide (rhythmicValue labeledNote ≠ WHOLE)
      then [createNoteStem x y (stemTo props) slh (chord_strokeWidth props)]
      else [])
  ++ (match getDisplayedAccidental (getLabel labeledNote) (accidentals props) with
      | Some displayedAccidental =>
          [createAccidental x y slh displayedAccidental]
      | None => []
      end).

Definition SvgChord (props : SvgChordProps) : list Primitive :=
  concat (map (SvgChord_note props) (labeledNoteGroup props)).

(** A [for ... of] or [forEach] loop whose body may throw: the state is
    threaded through the iterations, an exception aborts the loop. *)
Fixpoint forEachM {S X : Type} (body : S → X → option S) (s : S) (l : list X)
    : option S :=
  match l with
  | [] => Some s
  | x :: rest => s' ← body s x; forEachM body s' rest
  end.

(** The locals that the loops of [createClefNotes] update. *)
Record ClefState : Type := mkClefState {
  elementsToDisplay : list Element;
  currentX : Q;
  accidentalState : gmap Letter Accidental;
  beamStopX : Q;
}.

(** The locals that the loop of [GrandStaff] updates. *)
Record StaffState : Type := mkStaffState {
  trebleX : Q;
  bassX : Q;
  trebleMusic : list Element;
  bassMusic : list Element;
  barLines : list SvgBarLineProps;
}.

Definition sizesOf (height : Q) : SizingData :=
  {| staffHeight := height;
     staffLineHeight := STAFF_RATIO * height / 4;
     staffThickness := 1 / 100 * STAFF_RATIO * height |}.

(** *** Observations on the elements and primitives *)

(** The notes of a chord that write the entry of [l] in
    [getDisplayedAccidentals]: those of letter [l] whose accidental differs
    from the entry of [l] before the chord. *)
Definition writers (accidentals : gmap Letter Accidental) (l : Letter)
    (noteGroup : list Note) : list Note :=
  filter (λ note, letter (getLabel note) = l
                  ∧ accidentals !! l ≠ Some (accidental (getLabel note)))
         noteGroup.

(** The chords of a measure, each with the accidental state before it. *)
Fixpoint trackAccidentals (state : gmap Letter Accidental)
    (chords : list (list Note)) : list (list Note * gmap Letter Accidental) :=
  match chords with
  | [] => []
  | chord :: rest =>
      (chord, state) :: trackAccidentals (nextAccidentals chord state) rest
  end.

Definition finalAccidentals (state : gmap Letter Accidental)
    (chords : list (list Note)) : gmap Letter Accidental :=
  foldl (λ s chord, nextAccidentals chord s) state chords.

(** What the accidental tracker sees of a chord element: its notes and the
    accidental state it was given. *)
Definition notesAndState (props : SvgChordProps)
    : list Note * gmap Letter Accidental :=
  (labeledNoteGroup props, accidentals props).

(** A measure whose chords all have a note. *)
Definition wellFormedMeasure (measure : LabeledMusic) : Prop :=
  Forall (λ chord, chord ≠ []) (trebleClef measure)
  ∧ Forall (λ chord, chord ≠ []) (bassClef measure).

(** The chord elements among the elements to display, in order. *)
Definition chordPropsOf (elements : list Element) : list SvgChordProps :=
  omap (λ element,
          match element with
          | ChordElement props => Some props
          | BeamElement _ => None
          end) elements.

(** The accidental glyphs among the primitives of a chord, in order. *)
Definition glyphsOf (primitives : list Primitive) : list Accidental :=
  omap (λ primitive,
          match primitive with
          | PAccidental glyph => Some (glyph_text glyph)
          | _ => None
          end) primitives.

(** The stems among the primitives of a chord, in order. *)
Definition stemsOf (primitives : list Primitive) : list NoteStem :=
  omap (λ primitive,
          match primitive with
          | PStem stem => Some stem
          | _ => None
          end) primitives.

(** The heads and the beams, like [stemsOf] and [chordPropsOf]. *)
Definition headsOf (primitives : list Primitive) : list NoteHead :=
  omap (λ primitive,
          match primitive with
          | PHead head => Some head
          | _ => None
          end) primitives.

Definition beamPropsOf (elements : list Element) : list SvgBeamProps :=
  omap (λ element,
          match element with
          | BeamElement props => Some props
          | ChordElement _ => None
          end) elements.

(* ================================================================== *)
(** ** Notation configuration (the second source of unnamed/part_000) *)
(* ================================================================== *)

(** The members of [TriadQuality], [SeventhQuality] and [MiscKeys] that the
    code names; [ChordQuality] is the union of the first two. *)
Inductive TriadQuality : Type := MAJOR | MINOR | DIMINISHED | AUGMENTED.

Inductive SeventhQuality : Type :=
  | MAJOR_7 | MINOR_7 | DOMINANT_7 | HALF_DIM_7
  | DIMINISHED_7 | MINOR_MAJOR_7 | AUG_MAJOR_7.

Inductive ChordQuality : Type :=
  | Triad : TriadQuality → ChordQuality
  | Seventh : SeventhQuality → ChordQuality.

Inductive MiscKeys : Type := ANYTHING_GOES | RANDOM_KEY.

#[global] Instance TriadQuality_eq_dec : EqDecision TriadQuality.
Proof. solve_decision. Defined.
#[global] Instance SeventhQuality_eq_dec : EqDecision SeventhQuality.
Proof. solve_decision. Defined.
#[global] Instance ChordQuality_eq_dec : EqDecision ChordQuality.
Proof. solve_decision. Defined.

Inductive ProgressType : Type := midi | timed.

Record ProgressSelector : Type := mkProgress {
  progressType : ProgressType;
  timedDuration : Q;
}.

Section Configuration.

(** [MajorKeys] and [Key] are declared in [datatypes/Musics], which is not
    among the sources: a major key is a key ([asKey]), nothing more is
    used of them. *)
Variable MajorKeys : Type.
Variable Key : Type.
Variable asKey : MajorKeys → Key.

(** [KeyConfigOpts = MiscKeys | MajorKeys]. *)
Inductive KeyConfigOpts : Type :=
  | Misc : MiscKeys → KeyConfigOpts
  | Major : MajorKeys → KeyConfigOpts.

(** [convertKeyConfigToKey]; [randomKey] is what [getRandomKey()] draws. *)
Definition convertKeyConfigToKey (randomKey : Key) (keyConfig : KeyConfigOpts)
    : option Key :=
  match keyConfig with
  | Misc ANYTHING_GOES => None
  | Misc RANDOM_KEY => Some randomKey
  | Major k => Some (asKey k)
  end.

Record NotationConfiguration : Type := mkConfiguration {
  key : KeyConfigOpts;
  progressSelector : ProgressSelector;
  practiceSingleNotes : bool;
  practiceChords : bool;
  includeTriads : bool;
  includeMaj3 : bool;
  includeMin3 : bool;
  includeAug3 : bool;
  includeDim3 : bool;
  includeSevenths : bool;
  includeMaj7 : bool;
  includeMin7 : bool;
  includeDom7 : bool;
  includeHalfDim7 : bool;
  includeDim7 : bool;
  includeMinMaj7 : bool;
  includeAugMaj7 : bool;
}.

(** [if (flag) qualities.push(quality)]. *)
Definition pushIf (flag : bool) (quality : ChordQuality)
    (qualities : list ChordQuality) : list ChordQuality :=
  if flag then qualities ++ [quality] else qualities.

(** [key === null]. *)
Definition isNull (key : option Key) : bool :=
  match key with
  | None => true
  | Some _ => false
  end.

Definition getAllowedChordQualities (key : option Key)
    (config : NotationConfiguration) : list ChordQuality :=
  let qualities : list ChordQuality := [] in
  let qualities :=
    if includeTriads config then
      let qualities := pushIf (includeMaj3 config) (Triad MAJOR) qualities in
      let qualities := pushIf (includeMin3 config) (Triad MINOR) qualities in
      let qualities :=
        pushIf (includeDim3 config) (Triad DIMINISHED) qualities in
      pushIf (includeAug3 config && isNull key) (Triad AUGMENTED) qualities
    else qualities in
  if includeSevenths config then
    let qualities := pushIf (includeMaj7 config) (Seventh MAJOR_7) qualities in
    let qualities := pushIf (includeMin7 config) (Seventh MINOR_7) qualities in
    let qualities :=
      pushIf (includeDom7 config) (Seventh DOMINANT_7) qualities in
    let qualities :=
      pushIf (includeHalfDim7 config) (Seventh HALF_DIM_7) qualities in
    let qualities :=
      pushIf (includeDim7 config && isNull key) (Seventh DIMINISHED_7)
        qualities in
    let qualities :=
      pushIf (includeMinMaj7 config && isNull key) (Seventh MINOR_MAJOR_7)
        qualities in
    pushIf (includeAugMaj7 config && isNull key) (Seventh AUG_MAJOR_7)
      qualities
  else qualities.

(** Every quality, in the order in which the function pushes them. *)
Definition allQualities : list ChordQuality :=
  [Triad MAJOR; Triad MINOR; Triad DIMINISHED; Triad AUGMENTED;
   Seventh MAJOR_7; Seventh MINOR_7; Seventh DOMINANT_7; Seventh HALF_DIM_7;
   Seventh DIMINISHED_7; Seventh MINOR_MAJOR_7; Seventh AUG_MAJOR_7].

(** The qualities that the code only allows without a key. *)
Definition needsNoKey (quality : ChordQuality) : Prop :=
  quality = Triad AUGMENTED ∨ quality = Seventh DIMINISHED_7
  ∨ quality = Seventh MINOR_MAJOR_7 ∨ quality = Seventh AUG_MAJOR_7.

End Configuration.

Arguments Misc {MajorKeys} _.
Arguments Major {MajorKeys} _.
Arguments convertKeyConfigToKey {MajorKeys Key} asKey randomKey keyConfig.
Arguments getAllowedChordQualities {MajorKeys Key} key config.
Arguments isNull {Key} key.
Arguments key {MajorKeys} _.
Arguments progressSelector {MajorKeys} _.
Arguments practiceSingleNotes {MajorKeys} _.
Arguments practiceChords {MajorKeys} _.
Arguments includeTriads {MajorKeys} _.
Arguments includeMaj3 {MajorKeys} _.
Arguments includeMin3 {MajorKeys} _.
Arguments includeAug3 {MajorKeys} _.
Arguments includeDim3 {MajorKeys} _.
Arguments includeSevenths {MajorKeys} _.
Arguments includeMaj7 {MajorKeys} _.
Arguments includeMin7 {MajorKeys} _.
Arguments includeDom7 {MajorKeys} _.
Arguments includeHalfDim7 {MajorKeys} _.
Arguments includeDim7 {MajorKeys} _.
Arguments includeMinMaj7 {MajorKeys} _.
Arguments includeAugMaj7 {MajorKeys} _.

(** A configuration with every box ticked, over keys numbered by [nat]. *)
Definition everythingOn : NotationConfiguration nat :=
  {| key := Major 0%nat;
     progressSelector := {| progressType := midi; timedDuration := 30 |};
     practiceSingleNotes := true; practiceChords := true;
     includeTriads := true; includeMaj3 := true; includeMin3 := true;
     includeAug3 := true; includeDim3 := true;
     includeSevenths := true; includeMaj7 := true; includeMin7 := true;
     includeDom7 := true; includeHalfDim7 := true; includeDim7 := true;
     includeMinMaj7 := true; includeAugMaj7 := true |}.

(* ================================================================== *)
(** ** The missing utilities, an instance of them, and sample notes *)
(* ================================================================== *)

(** [average] and [averageSlope] of [utilities/NumberUtils],
    [getPositionByNote] and [positionToY] of [utilities/MusicUtils], and the
    numbers behind the members of [RhythmicValue]: none of them is among
    the sources, the layout code is parametrised by them. *)
Class Utilities : Type := {
  average : list Q → Q;
  averageSlope : list Q → Q;
  Position : Type;
  getPositionByNote : Note → Clef → Position;
  positionToY : Position → Q → Q;
  rhythmicWidth : RhythmicValue → Q;
}.

(** Modelled from the spec: [average] of [utilities/NumberUtils] is not
    among the sources.  Spec 4.5, step 1: the mean of the constituent
    pitches.  (On the empty list the quotient of [Q] is 0.) *)
Definition mean (nums : list Q) : Q :=
  foldr Qplus 0 nums / inject_Z (Z.of_nat (length nums)).

(** The differences of consecutive values. *)
Definition differences (nums : list Q) : list Q :=
  zip_with (λ a b, b - a) nums (tail nums).

(** Modelled from the spec: [averageSlope] of [utilities/NumberUtils] is not
    among the sources.  Spec 4.5, step 2: the average of the differences of
    consecutive values. *)
Definition meanSlope (nums : list Q) : Q := mean (differences nums).

(** Modelled from the spec: [positionToY] of [utilities/MusicUtils] is not
    among the sources.  Spec 4.1, step 4, which is also the last line of
    [getNoteY]; [basePosition] stands for [getPositionByNote]. *)
Definition linearY (position : Z) (staffLineHeight : Q) : Q :=
  (5 * staffLineHeight) - (inject_Z position * staffLineHeight / 2).

(** Modelled from the spec: the numbers of the enum [RhythmicValue]
    (spec 3: a duration class that is also a relative width). *)
Definition durationWidth (value : RhythmicValue) : Q :=
  match value with
  | WHOLE => 1
  | HALF => 1 / 2
  | QUARTER => 1 / 4
  | EIGHTH => 1 / 8
  end.

(** The instance on which the layout is run on sample inputs. *)
#[global] Instance specUtilities : Utilities :=
  {| average := mean;
     averageSlope := meanSlope;
     Position := Z;
     getPositionByNote := basePosition;
     positionToY := linearY;
     rhythmicWidth := durationWidth |}.

(** Modelled from the spec: [average] of [utilities/NumberUtils] is not
    among the sources.  Spec 4.5, step 1, as a double: the sum of integer
    pitches is exact, so the quotient by the length is the double nearest
    to the mean. *)
Definition roundedMean (nums : list Q) : Q := toDouble (mean nums).

(** The same instance with the average pitches as doubles. *)
Definition doubleUtilities : Utilities :=
  {| average := roundedMean;
     averageSlope := meanSlope;
     Position := Z;
     getPositionByNote := basePosition;
     positionToY := linearY;
     rhythmicWidth := durationWidth |}.

Definition sampleNote (l : Letter) (a : Accidental) (octave : Z) (p : Q)
    (value : RhythmicValue) : Note :=
  {| getLabel := {| letter := l; accidental := a |};
     getOctave := octave;
     pitch := p;
     rhythmicValue := value |}.

(** The labels of G major, whose signature has F sharp. *)
Definition gMajorLabels : list (option NoteLabel) :=
  [Some (mkLabel G NATURAL); Some (mkLabel A NATURAL);
   Some (mkLabel B NATURAL); Some (mkLabel C NATURAL);
   Some (mkLabel D NATURAL); Some (mkLabel E NATURAL);
   Some (mkLabel F SHARP)].

Definition gMajorLetters : gmap Letter Accidental := keyLetters gMajorLabels.

Definition c4 : Note := sampleNote C NATURAL 4 60 EIGHTH.
Definition cSharp4 : Note := sampleNote C SHARP 4 61 EIGHTH.
Definition d4 : Note := sampleNote D NATURAL 4 62 EIGHTH.
Definition dSharp4 : Note := sampleNote D SHARP 4 63 EIGHTH.
Definition e4 : Note := sampleNote E NATURAL 4 64 EIGHTH.
Definition g4 : Note := sampleNote G NATURAL 4 67 EIGHTH.
Definition gSharp5 : Note := sampleNote G SHARP 5 80 EIGHTH.
Definition fSharp4 : Note := sampleNote F SHARP 4 66 QUARTER.
Definition fNatural4 : Note := sampleNote F NATURAL 4 65 QUARTER.
Definition b4 : Note := sampleNote B NATURAL 4 71 QUARTER.
Definition d3 : Note := sampleNote D NATURAL 3 50 QUARTER.
Definition c5 : Note := sampleNote C NATURAL 5 72 EIGHTH.
Definition d5 : Note := sampleNote D NATURAL 5 74 EIGHTH.
Definition dSharp5 : Note := sampleNote D SHARP 5 75 EIGHTH.
Definition f5 : Note := sampleNote F NATURAL 5 77 EIGHTH.
Definition fSharp5 : Note := sampleNote F SHARP 5 78 EIGHTH.

(** Five EIGHTH chords within an octave; three with a leap in the middle;
    a rising third; a chord of two notes. *)
Definition fiveEighths : list LabeledChord :=
  [[c4]; [cSharp4]; [d4]; [dSharp4]; [e4]].
Definition threeEighths : list LabeledChord := [[c4]; [gSharp5]; [cSharp4]].
Definition risingPair : list LabeledChord := [[c4; e4]; [e4; g4]].

(** Three triads, of mean pitches 63 2/3, 74 1/3 and 75, and the same
    triads with the last two exchanged. *)
Definition threeTriads : list LabeledChord :=
  [[c4; e4; g4]; [c5; d5; f5]; [c5; dSharp5; fSharp5]].
Definition threeTriadsExchanged : list LabeledChord :=
  [[c4; e4; g4]; [c5; dSharp5; fSharp5]; [c5; d5; f5]].

(** The height that makes one staff line 25 units high. *)
Definition sampleSizes : SizingData := sizesOf 500.

Definition sampleState : ClefState :=
  {| elementsToDisplay := [];
     currentX := 40;
     accidentalState := gMajorLetters;
     beamStopX := 40 |}.

Definition sampleMusic : list LabeledMusic :=
  [{| trebleClef := [[fSharp4]; [fNatural4]; [b4]]; bassClef := [[d3]] |};
   {| trebleClef := [[c4]; [e4]]; bassClef := [[d3]; [d3]] |}].

(* ================================================================== *)
(** ** Beam grouping, beam line and the layout loops *)
(* ================================================================== *)

Section Layout.

Context {utilities : Utilities}.

Definition getAveragePitch (chord : LabeledChord) : Q :=
  average (map pitch chord).

(** The test of the last branch of the loop body of [groupBeamGroups]. *)
Definition closeEnough (latestBeamGroup : list LabeledChord)
    (labeledChord : LabeledChord) : bool :=
  let currentChordPitch := getAveragePitch labeledChord in
  let pitchDistances :=
    map (λ chord, Qabs (getAveragePitch chord - currentChordPitch))
        latestBeamGroup in
  xleb (Math_max pitchDistances) (Fin 12).

(** One iteration of the [for ... of] loop of [groupBeamGroups]. *)
Definition groupStep (beamGroups : list (list LabeledChord))
    (labeledChord : LabeledChord) : option (list (list LabeledChord)) :=
  match unsnoc beamGroups with
  | None => Some [[labeledChord]]
  | Some (init, latestBeamGroup) =>
      match latestBeamGroup with
      | [] => Some (init ++ [[labeledChord]])
      | first :: _ =>
          if (4 <=? length latestBeamGroup)%nat
          then Some (beamGroups ++ [[labeledChord]])
          else
            e ← isEighth labeledChord;
            if negb e then Some (beamGroups ++ [[labeledChord]])
            else
              e0 ← isEighth first;
              if negb e0 then Some (beamGroups ++ [[labeledChord]])
              else if closeEnough latestBeamGroup labeledChord
                   then Some (init ++ [latestBeamGroup ++ [labeledChord]])
                   else Some (beamGroups ++ [[labeledChord]])
      end
  end.

Definition groupBeamGroups (measure : list LabeledChord)
    : option (list (list LabeledChord)) :=
  forEachM groupStep [] measure.

(** The rhythmic value of a chord is that of its first note. *)
Definition eighthChord (chord : LabeledChord) : Prop :=
  isEighth chord = Some true.

(** Two chords whose average pitches are at most 12 semitones apart. *)
Definition withinOctave (a b : LabeledChord) : Prop :=
  Qabs (getAveragePitch a - getAveragePitch b) <= 12.

Definition pairwiseClose (group : list LabeledChord) : Prop :=
  ∀ a b, a ∈ group → b ∈ group → withinOctave a b.

(** What holds of every group while [groupBeamGroups] runs. *)
Definition goodGroup (group : list LabeledChord) : Prop :=
  group ≠ []
  ∧ (length group ≤ 4)%nat
  ∧ ((1 < length group)%nat → Forall eighthChord group)
  ∧ pairwiseClose group.

(** The locals of [getBeamLine]. *)
Definition averagePitches (beamGroup : list LabeledChord) : list Q :=
  map (λ chord, average (map pitch chord)) beamGroup.

Definition displayedSlope (beamGroup : list LabeledChord) : Q :=
  let actualSlope := averageSlope (averagePitches beamGroup) in
  if Qeq_bool actualSlope 0 then 0
  else if negb (Qle_bool actualSlope 0) then BEAM_SLOPE else - BEAM_SLOPE.

(** The [reduce] of [shouldBeAbove]: from 0, each average pitch is added
    to the running [delta] and the middle pitch subtracted, in doubles. *)
Definition pitchDelta (beamGroup : list LabeledChord) (clef : Clef) : xnum :=
  foldl (λ delta pitch, doubleMinus (doublePlus delta pitch) (middlePitch clef))
        (Fin 0) (averagePitches beamGroup).

(** [0 > averagePitches.reduce(...)]. *)
Definition shouldBeAbove (beamGroup : list LabeledChord) (clef : Clef) : bool :=
  xltb (pitchDelta beamGroup clef) (Fin 0).

(** The spec's words for the placement side (4.5, step 3): the sum, over
    all chords, of average pitch minus middle-line pitch. *)
Definition specPitchSum (beamGroup : list LabeledChord) (clef : Clef) : Q :=
  foldr Qplus 0
    (map (λ chord, getAveragePitch chord - middlePitch clef) beamGroup).

(** [adjustedChordY] for the chord at index [i]. *)
Definition adjustedChordY (above : bool) (slope : Q) (clef : Clef)
    (noteWidth staffLineHeight : Q) (i : nat) (chord : LabeledChord) : xnum :=
  let chordYVals :=
    map (λ note, positionToY (getPositionByNote note clef) staffLineHeight)
        chord in
  let closestYVal := (if above then Math_min else Math_max) chordYVals in
  xminus closestYVal (slope * inject_Z (Z.of_nat i) * noteWidth).

(** The [for] loop over the chords of the group, from index [i] on. *)
Fixpoint closestLoop (above : bool) (slope : Q) (clef : Clef)
    (noteWidth staffLineHeight : Q) (i : nat) (chords : list LabeledChord)
    (closestNoteY : xnum) : xnum :=
  match chords with
  | [] => closestNoteY
  | chord :: rest =>
      let adjusted :=
        adjustedChordY above slope clef noteWidth staffLineHeight i chord in
      closestLoop above slope clef noteWidth staffLineHeight (S i) rest
        (if (if above then xltb adjusted closestNoteY
             else xltb closestNoteY adjusted)
         then adjusted else closestNoteY)
  end.

(** [x] is at least as close to the beam as [y]: smaller when the beam is
    above the notes, larger when it is below. *)
Definition closerOrEqual (above : bool) (x y : xnum) : Prop :=
  if above then xle x y else xle y x.

Definition closestNoteY (beamGroup : list LabeledChord) (clef : Clef)
    (noteWidth staffLineHeight : Q) : xnum :=
  let above := shouldBeAbove beamGroup clef in
  closestLoop above (displayedSlope beamGroup) clef noteWidth staffLineHeight
    0 beamGroup (if above then PInf else NInf).

Definition getBeamLine (beamGroup : list LabeledChord) (clef : Clef)
    (startingX noteWidth staffLineHeight : Q) : option BeamLine :=
  if (length beamGroup <=? 1)%nat then None
  else
    let slope := displayedSlope beamGroup in
    let above := shouldBeAbove beamGroup clef in
    let firstY :=
      xplus (xminus (closestNoteY beamGroup clef noteWidth staffLineHeight)
                    (slope * startingX))
            ((if above then -2 else 2) * staffLineHeight) in
    Some {| getY := λ x, qplus (slope * x) firstY; isAbove := above |}.

(** The body of the inner [forEach] of [createClefNotes]: one chord.  The
    object [accidentals] that the chord element receives is never mutated:
    the reduce of [getDisplayedAccidentals] fills a fresh object and the
    update of [accidentals] builds a new one, so passing the map by value
    loses nothing. *)
Definition chordStep (sizes : SizingData) (clef : Clef)
    (beamLine : option BeamLine) (st : ClefState) (noteGroup : list Note)
    : option ClefState :=
  let chord :=
    createSvgChord sizes noteGroup (currentX st) clef (accidentalState st)
      (match beamLine with
       | Some line => Some (getY line (currentX st))
       | None => None
       end) in
  rv ← firstRhythmicValue noteGroup;
  Some {| elementsToDisplay := elementsToDisplay st ++ [chord];
          currentX :=
            currentX st
            + BASE_NOTE_GAP_RATIO * staffHeight sizes * rhythmicWidth rv;
          accidentalState := nextAccidentals noteGroup (accidentalState st);
          beamStopX := currentX st |}.

(** The body of the outer [forEach] of [createClefNotes]: one beam group. *)
Definition beamGroupStep (sizes : SizingData) (clef : Clef) (st : ClefState)
    (beamGroup : list LabeledChord) : option ClefState :=
  firstChord ← head beamGroup;
  rv ← firstRhythmicValue firstChord;
  let beamNoteWidth :=
    BASE_NOTE_GAP_RATIO * staffHeight sizes * rhythmicWidth rv in
  let beamLine :=
    getBeamLine beamGroup clef (currentX st) beamNoteWidth
      (staffLineHeight sizes) in
  let beamStartX := currentX st in
  st' ← forEachM (chordStep sizes clef beamLine)
         {| elementsToDisplay := elementsToDisplay st;
            currentX := currentX st;
            accidentalState := accidentalState st;
            beamStopX := currentX st |}
         beamGroup;
  match beamLine with
  | Some line =>
      let noteHeadWidth := NOTE_WIDTH_RATIO * staffLineHeight sizes in
      let shift := if isAbove line then noteHeadWidth else - noteHeadWidth in
      Some {| elementsToDisplay :=
                elementsToDisplay st'
                ++ [createSvgBeam sizes (getY line) (beamStartX + shift)
                      (beamStopX st' + shift)];
              currentX := currentX st';
              accidentalState := accidentalState st';
              beamStopX := beamStopX st' |}
  | None => Some st'
  end.

(** [createClefNotes]: the elements pushed to [elementsToDisplay] and the
    final x location. *)
Definition createClefNotes (sizes : SizingData) (clef : Clef)
    (measureClef : list (list Note)) (elementsToDisplay0 : list Element)
    (currentX0 : Q) (originalKeyLetters : gmap Letter Accidental)
    : option (list Element * Q) :=
  beamGroups ← groupBeamGroups measureClef;
  st ← forEachM (beamGroupStep sizes clef)
         {| elementsToDisplay := elementsToDisplay0;
            currentX := currentX0;
            accidentalState := originalKeyLetters;
            beamStopX := currentX0 |}
         beamGroups;
  Some (elementsToDisplay st, currentX st).

(** The body of [music.forEach] in [GrandStaff]: one measure. *)
Definition measureStep (height : Q)
    (originalKeyLetters : gmap Letter Accidental) (st : StaffState)
    (measure : LabeledMusic) : option StaffState :=
  let sizes := sizesOf height in
  treble ← createClefNotes sizes TREBLE (trebleClef measure)
              (trebleMusic st) (trebleX st) originalKeyLetters;
  bass ← createClefNotes sizes BASS (bassClef measure)
            (bassMusic st) (bassX st) originalKeyLetters;
  let barX := Qmax (snd treble) (snd bass) in
  Some {| trebleX := barX + 50;
          bassX := barX + 50;
          trebleMusic := fst treble;
          bassMusic := fst bass;
          barLines :=
            barLines st
            ++ [{| bar_x := barX;
                   bar_y := height * PADDING_RATIO;
                   bar_height := height * (2 * STAFF_RATIO + GAP_RATIO);
                   bar_strokeWidth := staffThickness sizes |}] |}.

Definition initialStaffState : StaffState :=
  {| trebleX := 40; bassX := 40;
     trebleMusic := []; bassMusic := []; barLines := [] |}.

(** The layout part of [GrandStaff]: the cursors and the elements after
    all measures. *)
Definition GrandStaff (height : Q) (noteLabelsInKey : list (option NoteLabel))
    (music : list LabeledMusic) : option StaffState :=
  forEachM (measureStep height (keyLetters noteLabelsInKey))
    initialStaffState music.

(** The cursor after one chord: [currentX += BASE_NOTE_GAP_RATIO *
    sizes.staffHeight * noteGroup[0].rhythmicValue]. *)
Definition advance (sizes : SizingData) (x : Q) (noteGroup : list Note) : Q :=
  match noteGroup with
  | [] => x
  | n :: _ =>
      x + BASE_NOTE_GAP_RATIO * staffHeight sizes
          * rhythmicWidth (rhythmicValue n)
  end.

Definition cursorAfter (sizes : SizingData) (x : Q)
    (chords : list (list Note)) : Q :=
  foldl (advance sizes) x chords.

(** The chords, each with the cursor before it. *)
Fixpoint placeChords (sizes : SizingData) (x : Q) (chords : list (list Note))
    : list (list Note * Q) :=
  match chords with
  | [] => []
  | chord :: rest => (chord, x) :: placeChords sizes (advance sizes x chord) rest
  end.

(** Why the loop of [groupBeamGroups] opens a new group for [chord] when
    the latest group is [latest]: one of the tests of its last two
    branches. *)
Definition cannotJoin (latest : list LabeledChord) (chord : LabeledChord)
    : Prop :=
  (4 ≤ length latest)%nat
  ∨ isEighth chord = Some false
  ∨ (∃ first, head latest = Some first ∧ isEighth first = Some false)
  ∨ ¬ Forall (λ member, withinOctave member chord) latest.

(** What [createClefNotes] sets on every chord element of a group that is
    laid out against [beamLine]. *)
Definition chordPropsOk (sizes : SizingData) (clef : Clef)
    (beamLine : option BeamLine) (props : SvgChordProps) : Prop :=
  chord_clef props = clef
  ∧ chord_staffLineHeight props = staffLineHeight sizes
  ∧ chord_strokeWidth props = staffThickness sizes
  ∧ stemTo props = option_map (λ line, getY line (chord_x props)) beamLine.

(** The notes of a chord element and where it is placed. *)
Definition placed (props : SvgChordProps) : list Note * Q :=
  (labeledNoteGroup props, chord_x props).

(** [beamNoteWidth], from [beamGroup[0][0].rhythmicValue], and the beam line
    that [createClefNotes] computes for a group that starts at [x]. *)
Definition beamNoteWidth (sizes : SizingData) (beamGroup : list LabeledChord)
    : Q :=
  match beamGroup with
  | (n :: _) :: _ =>
      BASE_NOTE_GAP_RATIO * staffHeight sizes * rhythmicWidth (rhythmicValue n)
  | _ => 0
  end.

Definition groupBeamLine (sizes : SizingData) (clef : Clef) (x : Q)
    (beamGroup : list LabeledChord) : option BeamLine :=
  getBeamLine beamGroup clef x (beamNoteWidth sizes beamGroup)
    (staffLineHeight sizes).

(** [(beamLine.isAbove) ? noteHeadWidth : -noteHeadWidth]. *)
Definition noteHeadShift (sizes : SizingData) (line : BeamLine) : Q :=
  if isAbove line then NOTE_WIDTH_RATIO * staffLineHeight sizes
  else - (NOTE_WIDTH_RATIO * staffLineHeight sizes).

End Layout.

(* ================================================================== *)
(** ** Properties *)
(* ================================================================== *)

(** *** Lemmas on the auxiliary definitions *)

Lemma xle_refl (x : xnum) : xle x x.
Proof.
  destruct x; unfold xle; simpl; try reflexivity.
  apply Qle_bool_iff, Qle_refl.
Qed.

Lemma xle_trans (x y z : xnum) : xle x y → xle y z → xle x z.
Proof.
  unfold xle. destruct x, y, z; simpl; try congruence.
  rewrite !Qle_bool_iff. apply Qle_trans.
Qed.

Lemma xltb_true_le (x y : xnum) : xltb x y = true → xle x y.
Proof.
  unfold xle. destruct x, y; simpl; try congruence.
  rewrite negb_true_iff. intros Hn. apply Qle_bool_iff.
  destruct (Qlt_le_dec q q0) as [Hlt | Hle].
  - apply Qlt_le_weak, Hlt.
  - apply Qle_bool_iff in Hle. congruence.
Qed.

Lemma xltb_false_le (x y : xnum) : xltb x y = false → xle y x.
Proof.
  unfold xle. destruct x, y; simpl; try congruence.
  rewrite negb_false_iff. trivial.
Qed.

Lemma xle_PInf (x : xnum) : xle PInf x → x = PInf.
Proof. unfold xle. destruct x; simpl; congruence. Qed.

Lemma xle_NInf (x : xnum) : xle x NInf → x = NInf.
Proof. unfold xle. destruct x; simpl; congruence. Qed.

(** [Math.max(...l) <= b] says that every element of [l] is at most [b]. *)
Lemma Math_max_le (l : list Q) (b : Q) :
  xleb (Math_max l) (Fin b) = true ↔ Forall (λ q, q <= b) l.
Proof.
  induction l as [| q l IH]; simpl.
  - split; [constructor | reflexivity].
  - rewrite Forall_cons, <- IH. unfold xmax.
    destruct (Math_max l) as [| m |]; simpl.
    + rewrite Qle_bool_iff. tauto.
    + destruct (Qle_bool m q) eqn:Hmq; simpl; rewrite !Qle_bool_iff.
      * apply Qle_bool_iff in Hmq. split; [| tauto].
        intros Hq. split; [exact Hq | eapply Qle_trans; eassumption].
      * split; [| tauto]. intros Hm. split; [| exact Hm].
        destruct (Qlt_le_dec q m) as [Hlt | Hle].
        -- apply Qlt_le_weak in Hlt. eapply Qle_trans; eassumption.
        -- apply Qle_bool_iff in Hle. congruence.
    + split; [discriminate | intros [_ H]; discriminate].
Qed.

Lemma Math_min_not_NInf (l : list Q) : Math_min l ≠ NInf.
Proof.
  induction l as [| q l IH]; simpl; [discriminate |].
  unfold xmin. destruct (xltb (Math_min l) (Fin q)); [exact IH | discriminate].
Qed.

Lemma Math_max_not_PInf (l : list Q) : Math_max l ≠ PInf.
Proof.
  induction l as [| q l IH]; simpl; [discriminate |].
  unfold xmax. destruct (xltb (Fin q) (Math_max l)); [exact IH | discriminate].
Qed.

(** The closest head of a chord that has a note is at a finite [y]. *)
Lemma Math_min_finite (l : list Q) : l ≠ [] → ∃ q, Math_min l = Fin q.
Proof.
  intros Hne. pose proof (Math_min_not_NInf l) as Hn.
  destruct l as [| q l]; [congruence |]. simpl in *. unfold xmin in *.
  destruct (Math_min l) as [| m |] eqn:Hm; simpl in *.
  - congruence.
  - destruct (negb (Qle_bool q m)); eexists; reflexivity.
  - eexists; reflexivity.
Qed.

Lemma Math_max_finite (l : list Q) : l ≠ [] → ∃ q, Math_max l = Fin q.
Proof.
  intros Hne. pose proof (Math_max_not_PInf l) as Hn.
  destruct l as [| q l]; [congruence |]. simpl in *. unfold xmax in *.
  destruct (Math_max l) as [| m |] eqn:Hm; simpl in *.
  - eexists; reflexivity.
  - destruct (negb (Qle_bool m q)); eexists; reflexivity.
  - congruence.
Qed.

Lemma unsnoc_snoc {X : Type} (init : list X) (x : X) :
  unsnoc (init ++ [x]) = Some (init, x).
Proof.
  induction init as [| y init IH]; simpl; [reflexivity |].
  rewrite IH. reflexivity.
Qed.

Lemma unsnoc_Some {X : Type} (l init : list X) (x : X) :
  unsnoc l = Some (init, x) → l = init ++ [x].
Proof.
  revert init. induction l as [| y l IH]; intros init; simpl; [discriminate |].
  destruct (unsnoc l) as [[i z] |] eqn:Hl.
  - intros [= <- <-]. rewrite (IH i eq_refl). reflexivity.
  - intros [= <- <-]. destruct l as [| w l]; [reflexivity |].
    simpl in Hl. destruct (unsnoc l) as [[? ?] |]; discriminate.
Qed.

Lemma unsnoc_None {X : Type} (l : list X) : unsnoc l = None → l = [].
Proof.
  destruct l as [| y l]; [reflexivity |]. simpl.
  destruct (unsnoc l) as [[? ?] |]; discriminate.
Qed.

Lemma forEachM_app {S X : Type} (body : S → X → option S) (s : S)
    (l1 l2 : list X) :
  forEachM body s (l1 ++ l2) = s' ← forEachM body s l1; forEachM body s' l2.
Proof.
  revert s. induction l1 as [| x l1 IH]; intros s; simpl; [reflexivity |].
  destruct (body s x) as [s' |]; simpl; [apply IH | reflexivity].
Qed.

Lemma forEachM_step {S X : Type} (body : S → X → option S) (s s' : S)
    (x : X) (l : list X) :
  body s x = Some s' → forEachM body s (x :: l) = forEachM body s' l.
Proof. intros H. simpl. rewrite H. reflexivity. Qed.

(** An invariant that every iteration keeps holds after the loop. *)
Lemma forEachM_invariant {S X : Type} (body : S → X → option S)
    (Inv : S → list X → Prop) (l : list X) :
  (∀ s done x s', Inv s done → body s x = Some s' → Inv s' (done ++ [x])) →
  ∀ s done s',
    Inv s done → forEachM body s l = Some s' → Inv s' (done ++ l).
Proof.
  intros Hstep. induction l as [| x l IH]; intros s done s' HI; simpl.
  - intros [= <-]. rewrite app_nil_r. exact HI.
  - destruct (body s x) as [s1 |] eqn:Hb; simpl; [| discriminate].
    intros Hl. replace (done ++ x :: l) with ((done ++ [x]) ++ l)
      by (rewrite <- app_assoc; reflexivity).
    eapply IH; [| exact Hl]. eapply Hstep; eassumption.
Qed.

Lemma forEachM_total {S X : Type} (body : S → X → option S)
    (Inv : S → Prop) (P : X → Prop) :
  (∀ s x, Inv s → P x → ∃ s', body s x = Some s' ∧ Inv s') →
  ∀ l s, Inv s → Forall P l → ∃ s', forEachM body s l = Some s' ∧ Inv s'.
Proof.
  intros Hstep. induction l as [| x l IH]; intros s HI Hl; simpl.
  - exists s. split; [reflexivity | exact HI].
  - apply Forall_cons in Hl as [Hx Hl].
    destruct (Hstep s x HI Hx) as (s1 & -> & HI1). simpl.
    apply IH; assumption.
Qed.

Lemma isEighth_nonempty (chord : LabeledChord) :
  chord ≠ [] → is_Some (isEighth chord).
Proof. destruct chord; [congruence | intros _; eexists; reflexivity]. Qed.

(** *** Rounding to a double *)

Lemma pow2_pos (k : Z) : 0 < pow2 k.
Proof. apply Qpower_0_lt. reflexivity. Qed.

Lemma pow2_plus (a b : Z) : pow2 (a + b) == pow2 a * pow2 b.
Proof. apply Qpower_plus. discriminate. Qed.

Lemma pow2_le (a b : Z) : (a ≤ b)%Z → pow2 a <= pow2 b.
Proof. intros H. apply Qpower_le_compat_l; [exact H | discriminate]. Qed.

Lemma pow2_lt_inv (a b : Z) : pow2 a < pow2 b → (a < b)%Z.
Proof. intros H. apply (Qpower_lt_compat_l_inv 2); [exact H | reflexivity]. Qed.

Lemma pow2_inject (n : Z) : (0 ≤ n)%Z → pow2 n == inject_Z (2 ^ n).
Proof. intros H. symmetry. apply (Zpower_Qpower 2 n H). Qed.

Lemma pow2_opp (k : Z) : pow2 (- k) == / pow2 k.
Proof. apply Qpower_opp. Qed.

Lemma floorLog2_le (q : Q) : ¬ q == 0 → pow2 (floorLog2 q) <= Qabs q.
Proof.
  intros Hq. unfold floorLog2.
  set (l1 := Z.log2 (Z.abs (Qnum q))). set (l2 := Z.log2 (Z.pos (Qden q))).
  destruct (Qle_bool (pow2 (l1 - l2)) (Qabs q)) eqn:Hb.
  - apply Qle_bool_iff, Hb.
  - clear Hb. destruct q as [n d]. cbn [Qnum Qden] in *.
    assert (Hn : (0 < Z.abs n)%Z).
    { destruct (Z.eq_dec n 0%Z) as [-> |]; [exfalso; apply Hq; reflexivity | lia]. }
    destruct (Z.log2_spec (Z.abs n) Hn) as [Hl1 _].
    destruct (Z.log2_spec (Z.pos d) eq_refl) as [_ Hl2].
    fold l1 in Hl1. fold l2 in Hl2.
    assert (H1 : (0 ≤ l1)%Z) by apply Z.log2_nonneg.
    assert (H2 : (0 ≤ l2)%Z) by apply Z.log2_nonneg.
    replace (l1 - l2 - 1)%Z with (l1 + - (Z.succ l2))%Z by lia.
    rewrite pow2_plus, pow2_opp, (pow2_inject l1 H1),
      (pow2_inject (Z.succ l2)) by lia.
    unfold Qabs. rewrite (Qmake_Qdiv (Z.abs n) d).
    assert (Ha : inject_Z (2 ^ l1) <= inject_Z (Z.abs n))
      by (rewrite <- Zle_Qle; exact Hl1).
    assert (Hb : inject_Z (Z.pos d) <= inject_Z (2 ^ Z.succ l2))
      by (rewrite <- Zle_Qle; lia).
    assert (Hd : 0 < inject_Z (Z.pos d)) by reflexivity.
    assert (Hp : 0 < inject_Z (2 ^ l1))
      by (rewrite <- (pow2_inject l1 H1); apply pow2_pos).
    generalize dependent (inject_Z (2 ^ l1)).
    generalize dependent (inject_Z (2 ^ Z.succ l2)).
    generalize dependent (inject_Z (Z.abs n)).
    generalize dependent (inject_Z (Z.pos d)).
    intros D HD N B HB A HA HP.
    apply Qle_shift_div_l; [exact HD |].
    assert (E : A * / B * D == (A * D) / B) by (field; lra).
    rewrite E.
    apply Qle_shift_div_r; [lra |].
    apply Qmult_le_compat_nonneg; split; lra.
Qed.

Lemma roundHalfEven_error (x : Q) :
  Qabs (inject_Z (roundHalfEven x) - x) <= 1 # 2.
Proof.
  unfold roundHalfEven.
  pose proof (Qfloor_le x) as Hlo. pose proof (Qlt_floor x) as Hhi.
  rewrite inject_Z_plus in Hhi. change (inject_Z 1) with 1 in Hhi.
  apply Qabs_Qle_condition.
  destruct (Qcompare_spec (x - inject_Z (Qfloor x)) (1 # 2)) as [He | Hl | Hg].
  - destruct (Z.even (Qfloor x));
      rewrite ?inject_Z_plus; change (inject_Z 1) with 1; split; lra.
  - split; lra.
  - rewrite inject_Z_plus. change (inject_Z 1) with 1. split; lra.
Qed.

Lemma roundHalfEven_Z (x : Q) (m : Z) : x == inject_Z m → roundHalfEven x = m.
Proof.
  intros Hx. unfold roundHalfEven.
  assert (Hfl : Qfloor x = m) by (rewrite Hx; apply Qfloor_Z).
  rewrite Hfl.
  destruct (Qcompare_spec (x - inject_Z m) (1 # 2)) as [He | Hl | Hg];
    [exfalso; lra | reflexivity | exfalso; lra].
Qed.

Lemma toDouble_zero (q : Q) : q == 0 → toDouble q = 0.
Proof.
  intros Hq. unfold toDouble.
  apply Qeq_bool_iff in Hq. rewrite Hq. reflexivity.
Qed.

Lemma toDouble_nonzero (q : Q) :
  ¬ q == 0 →
  toDouble q
  = inject_Z (roundHalfEven (q / pow2 (ulpExponent q)))
    * pow2 (ulpExponent q).
Proof.
  intros Hq. unfold toDouble.
  destruct (Qeq_bool q 0) eqn:Hb; [| reflexivity].
  apply Qeq_bool_iff in Hb. contradiction.
Qed.

Lemma ulpExponent_bound (q : Q) :
  ¬ q == 0 →
  pow2 (ulpExponent q) <= Qabs q * pow2 (-52) + pow2 (-1074).
Proof.
  intros Hq. unfold ulpExponent.
  pose proof (floorLog2_le q Hq) as He.
  pose proof (pow2_pos (-52)) as H52. pose proof (pow2_pos (-1074)) as H1074.
  pose proof (Qabs_nonneg q) as Habs.
  destruct (Z.max_spec (floorLog2 q - 52) (-1074)) as [[_ ->] | [_ ->]].
  - assert (0 <= Qabs q * pow2 (-52)) by (apply Qmult_le_0_compat; lra).
    lra.
  - replace (floorLog2 q - 52)%Z with (floorLog2 q + -52)%Z by lia.
    rewrite pow2_plus.
    assert (pow2 (floorLog2 q) * pow2 (-52) <= Qabs q * pow2 (-52))
      by (apply Qmult_le_compat_r; lra).
    lra.
Qed.

(** The rounding error is at most half a unit in the last place. *)
Lemma toDouble_error (q : Q) :
  Qabs (toDouble q - q) <= Qabs q * pow2 (-53) + pow2 (-1075).
Proof.
  destruct (Qeq_dec q 0) as [Hz | Hq].
  - rewrite (toDouble_zero q Hz), Hz.
    pose proof (pow2_pos (-1075)). change (Qabs (0 - 0)) with 0.
    change (Qabs 0) with 0. lra.
  - rewrite (toDouble_nonzero q Hq).
    pose proof (ulpExponent_bound q Hq) as Hulp.
    pose proof (pow2_pos (ulpExponent q)) as Hpos.
    set (u := pow2 (ulpExponent q)) in *.
    pose proof (roundHalfEven_error (q / u)) as Herr.
    assert (E : inject_Z (roundHalfEven (q / u)) * u - q
                == (inject_Z (roundHalfEven (q / u)) - q / u) * u)
      by (field; lra).
    rewrite E.
    rewrite Qabs_Qmult, (Qabs_pos u) by lra.
    assert (H1 : Qabs (inject_Z (roundHalfEven (q / u)) - q / u) * u
                 <= (1 # 2) * u)
      by (apply Qmult_le_compat_r; lra).
    assert (H53 : pow2 (-53) == (1 # 2) * pow2 (-52))
      by (change (-53)%Z with (-1 + -52)%Z; rewrite pow2_plus; reflexivity).
    assert (H1075 : pow2 (-1075) == (1 # 2) * pow2 (-1074))
      by (change (-1075)%Z with (-1 + -1074)%Z; rewrite pow2_plus;
          reflexivity).
    rewrite H53, H1075.
    set (a := pow2 (-52)) in *. set (b := pow2 (-1074)) in *.
    assert (Hring : Qabs q * ((1 # 2) * a) == (1 # 2) * (Qabs q * a)) by ring.
    lra.
Qed.

(** A number with at most 53 significant bits, not below the smallest
    exponent, is a double. *)
Lemma toDouble_exact (q : Q) (z j : Z) :
  q == inject_Z z * pow2 j → (Z.abs z < 2 ^ 53)%Z → (-1074 ≤ j)%Z →
  toDouble q == q.
Proof.
  intros Hq Hz Hj.
  destruct (Qeq_dec q 0) as [Hzero | Hnz].
  - rewrite (toDouble_zero q Hzero), Hzero. reflexivity.
  - rewrite (toDouble_nonzero q Hnz).
    assert (Hk : (ulpExponent q ≤ j)%Z).
    { unfold ulpExponent. apply Z.max_lub; [| exact Hj].
      pose proof (floorLog2_le q Hnz) as He.
      assert (Hlt : pow2 (floorLog2 q) < pow2 (53 + j)).
      { eapply Qle_lt_trans; [exact He |].
        rewrite Hq, Qabs_Qmult, (Qabs_pos (pow2 j))
          by (apply Qlt_le_weak, pow2_pos).
        rewrite pow2_plus. apply Qmult_lt_r; [apply pow2_pos |].
        rewrite (pow2_inject 53) by lia.
        rewrite <- (Zabs_Qabs z 1). change (Z.abs z # 1) with (inject_Z (Z.abs z)).
        rewrite <- Zlt_Qlt. exact Hz. }
      apply pow2_lt_inv in Hlt. lia. }
    set (k := ulpExponent q) in *.
    assert (Hscaled : q / pow2 k == inject_Z (z * 2 ^ (j - k))).
    { rewrite inject_Z_mult, <- (pow2_inject (j - k)) by lia.
      replace (j - k)%Z with (j + - k)%Z by lia.
      rewrite pow2_plus, pow2_opp, Hq. unfold Qdiv. ring. }
    rewrite (roundHalfEven_Z _ _ Hscaled), <- Hscaled.
    pose proof (pow2_pos k). field. lra.
Qed.

Lemma pow2_1024_large : 8388608 <= pow2 1024.
Proof.
  change 8388608 with (pow2 23). apply pow2_le. lia.
Qed.

Lemma pow2_53 : pow2 (-53) == 1 # 9007199254740992.
Proof. reflexivity. Qed.

Lemma pow2_1075_small : pow2 (-1075) <= 1 # 9007199254740992.
Proof. rewrite <- pow2_53. apply pow2_le. lia. Qed.

(** No overflow, and an error of at most [2^-30], up to [2^22]. *)
Lemma roundDouble_near (x : Q) :
  Qabs x <= 4194304 →
  roundDouble x = Fin (toDouble x)
  ∧ Qabs (toDouble x - x) <= 1 # 1073741824.
Proof.
  intros Hx.
  pose proof (toDouble_error x) as Herr.
  pose proof pow2_53 as H53. pose proof pow2_1075_small as H1075.
  pose proof (Qabs_nonneg x) as Hnn.
  assert (Hsmall : Qabs (toDouble x - x) <= 1 # 1073741824).
  { rewrite H53 in Herr. lra. }
  split; [| exact Hsmall].
  unfold roundDouble.
  destruct (Qle_bool (pow2 1024) (Qabs (toDouble x))) eqn:Hb; [| reflexivity].
  exfalso. apply Qle_bool_iff in Hb.
  pose proof pow2_1024_large as Hbig.
  pose proof (Qabs_triangle (toDouble x - x) x) as Htri.
  assert (E : toDouble x - x + x == toDouble x) by ring.
  rewrite E in Htri. lra.
Qed.

Lemma roundDouble_exact (x : Q) (z : Z) :
  x == inject_Z z * pow2 (-30) → Qabs x <= 4194304 →
  roundDouble x = Fin (toDouble x) ∧ toDouble x == x.
Proof.
  intros Hz Hx. split; [apply (roundDouble_near x Hx) |].
  apply (toDouble_exact x z (-30) Hz); [| lia].
  apply Z.abs_lt.
  assert (Hq : Qabs (inject_Z z) <= 4194304 * 1073741824).
  { assert (E : inject_Z z == x * 1073741824).
    { rewrite Hz. change (pow2 (-30)) with (1 # 1073741824). field. }
    rewrite E, Qabs_Qmult. change (Qabs 1073741824) with 1073741824.
    apply Qmult_le_compat_r; [exact Hx | discriminate]. }
  apply Qabs_Qle_condition in Hq. destruct Hq as [Hlo Hhi].
  change (4194304 * 1073741824) with (inject_Z 4503599627370496) in *.
  change (- inject_Z 4503599627370496) with (inject_Z (-4503599627370496)) in Hlo.
  rewrite <- Zle_Qle in Hlo, Hhi.
  change (2 ^ 53)%Z with 9007199254740992%Z. lia.
Qed.

Lemma dyadic_eq (p q : Q) : p == q → dyadic p → dyadic q.
Proof. intros Heq [z Hz]. exists z. rewrite <- Heq. exact Hz. Qed.

Lemma dyadic_plus (p q : Q) : dyadic p → dyadic q → dyadic (p + q).
Proof.
  intros [a Ha] [b Hb]. exists (a + b)%Z.
  rewrite inject_Z_plus, Ha, Hb. ring.
Qed.

Lemma dyadic_opp (q : Q) : dyadic q → dyadic (- q).
Proof.
  intros [a Ha]. exists (- a)%Z. rewrite inject_Z_opp, Ha. ring.
Qed.

Lemma dyadic_Z (z : Z) : dyadic (inject_Z z).
Proof.
  exists (z * 1073741824)%Z. rewrite inject_Z_mult.
  change (pow2 (-30)) with (1 # 1073741824).
  change (inject_Z 1073741824) with 1073741824. field.
Qed.

Lemma inject_nat_succ (j : nat) :
  inject_Z (Z.of_nat (S j)) == inject_Z (Z.of_nat j) + 1.
Proof.
  rewrite Nat2Z.inj_succ. unfold Z.succ. rewrite inject_Z_plus. reflexivity.
Qed.

Lemma inject_nat_bound (j n : nat) :
  (j ≤ n)%nat → 0 <= inject_Z (Z.of_nat j) <= inject_Z (Z.of_nat n).
Proof.
  intros H. split.
  - change 0 with (inject_Z 0). rewrite <- Zle_Qle. lia.
  - rewrite <- Zle_Qle. lia.
Qed.

Ltac unfold_Qabs :=
  repeat match goal with
         | H : Qabs _ <= _ |- _ => apply Qabs_Qle_condition in H
         end;
  try apply Qabs_Qle_condition.

(** One step of the reduce of [getBeamLine], where nothing overflows. *)
Lemma reduceStep_near (middle d p : Q) :
  Qabs middle <= 100 → Qabs d <= 2000000 → Qabs p <= 1000 →
  ∃ d', doubleMinus (doublePlus (Fin d) p) middle = Fin d'
        ∧ Qabs (d' - (d + (p - middle))) <= 1 # 536870912.
Proof.
  intros Hm Hd Hp. unfold doubleMinus, doublePlus.
  destruct (roundDouble_near (d + p)) as [-> Hy].
  { unfold_Qabs. lra. }
  destruct (roundDouble_near (toDouble (d + p) + - middle)) as [-> Hz].
  { unfold_Qabs. lra. }
  eexists. split; [reflexivity |]. unfold_Qabs. lra.
Qed.

Lemma reduceStep_exact (middle d p : Q) :
  Qabs middle <= 100 → dyadic middle → dyadic d → dyadic p →
  Qabs d <= 2000000 → Qabs p <= 1000 →
  ∃ d', doubleMinus (doublePlus (Fin d) p) middle = Fin d'
        ∧ d' == d + (p - middle).
Proof.
  intros Hsmall Hm Hdd Hdp Hd Hp. unfold doubleMinus, doublePlus.
  destruct (dyadic_plus d p Hdd Hdp) as [z1 Hz1].
  destruct (roundDouble_exact (d + p) z1 Hz1) as [-> Hy].
  { unfold_Qabs. lra. }
  assert (Hdy : dyadic (toDouble (d + p) + - middle)).
  { apply dyadic_plus; [| apply dyadic_opp, Hm].
    eapply dyadic_eq; [symmetry; exact Hy | exists z1; exact Hz1]. }
  destruct Hdy as [z2 Hz2].
  destruct (roundDouble_exact _ z2 Hz2) as [-> Hz].
  { rewrite Hy. unfold_Qabs. lra. }
  eexists. split; [reflexivity |]. rewrite Hz, Hy. ring.
Qed.

(** The reduce stays within [2^-29] per chord of the exact sum, for up to
    1000 pitches of magnitude up to 1000. *)
Lemma reduce_near (middle : Q) (pitches : list Q) :
  Qabs middle <= 100 →
  ∀ (j : nat) (d0 s0 : Q),
    Forall (λ p, Qabs p <= 1000) pitches →
    (j + length pitches ≤ 1000)%nat →
    Qabs s0 <= inject_Z (Z.of_nat j) * 1100 →
    Qabs (d0 - s0) <= inject_Z (Z.of_nat j) * (1 # 536870912) →
    ∃ d, foldl (λ delta pitch, doubleMinus (doublePlus delta pitch) middle)
           (Fin d0) pitches = Fin d
         ∧ Qabs (d - (s0 + foldr Qplus 0
                             (map (λ pitch, pitch - middle) pitches)))
           <= inject_Z (Z.of_nat (j + length pitches)) * (1 # 536870912).
Proof.
  intros Hm.
  induction pitches as [| p rest IH]; intros j d0 s0 Hall Hlen Hs Hd.
  - exists d0. split; [reflexivity |].
    rewrite Nat.add_0_r. cbn [map foldr]. unfold_Qabs. lra.
  - apply Forall_cons in Hall as [Hp Hrest]. cbn [length] in Hlen.
    destruct (inject_nat_bound j 1000 ltac:(lia)) as [Hj0 Hj1].
    change (inject_Z (Z.of_nat 1000)) with 1000 in Hj1.
    destruct (reduceStep_near middle d0 p Hm) as (d1 & Hstep & Hd1);
      [| exact Hp |].
    { unfold_Qabs. lra. }
    destruct (IH (S j) d1 (s0 + (p - middle)) Hrest ltac:(lia))
      as (d & Hd' & Hfin).
    + rewrite inject_nat_succ. unfold_Qabs. lra.
    + rewrite inject_nat_succ. unfold_Qabs. lra.
    + exists d. split; [cbn [foldl]; rewrite Hstep; exact Hd' |].
      replace (j + length (p :: rest))%nat with (S j + length rest)%nat
        by (cbn [length]; lia).
      cbn [map foldr]. unfold_Qabs. lra.
Qed.

(** The reduce is the exact sum when no step rounds. *)
Lemma reduce_exact (middle : Q) (pitches : list Q) :
  Qabs middle <= 100 → dyadic middle →
  ∀ (j : nat) (d0 : Q),
    Forall (λ p, Qabs p <= 1000 ∧ dyadic p) pitches →
    (j + length pitches ≤ 1000)%nat →
    dyadic d0 →
    Qabs d0 <= inject_Z (Z.of_nat j) * 1100 →
    ∃ d, foldl (λ delta pitch, doubleMinus (doublePlus delta pitch) middle)
           (Fin d0) pitches = Fin d
         ∧ d == d0 + foldr Qplus 0 (map (λ pitch, pitch - middle) pitches).
Proof.
  intros Hsmall Hm.
  induction pitches as [| p rest IH]; intros j d0 Hall Hlen Hdy Hd.
  - exists d0. split; [reflexivity |]. cbn [map foldr]. ring.
  - apply Forall_cons in Hall as [[Hp Hdp] Hrest]. cbn [length] in Hlen.
    destruct (inject_nat_bound j 1000 ltac:(lia)) as [Hj0 Hj1].
    change (inject_Z (Z.of_nat 1000)) with 1000 in Hj1.
    destruct (reduceStep_exact middle d0 p Hsmall Hm Hdy Hdp)
      as (d1 & Hstep & Hd1); [| exact Hp |].
    { unfold_Qabs. lra. }
    destruct (IH (S j) d1 Hrest ltac:(lia)) as (d & Hd' & Hfin).
    + eapply dyadic_eq; [symmetry; exact Hd1 |].
      apply dyadic_plus; [exact Hdy |].
      apply dyadic_plus; [exact Hdp | apply dyadic_opp, Hm].
    + rewrite inject_nat_succ, Hd1. unfold_Qabs. lra.
    + exists d. split; [cbn [foldl]; rewrite Hstep; exact Hd' |].
      cbn [map foldr]. rewrite Hfin, Hd1. ring.
Qed.

Lemma displayedStep_lookup (accidentals obj : gmap Letter Accidental)
    (note : Note) (l : Letter) :
  displayedStep accidentals obj note !! l
  = if decide (letter (getLabel note) = l
               ∧ accidentals !! l ≠ Some (accidental (getLabel note)))
    then Some (accidental (getLabel note))
    else obj !! l.
Proof.
  unfold displayedStep.
  destruct (decide (letter (getLabel note) = l)) as [<- | Hne].
  - destruct (decide (accidentals !! letter (getLabel note)
                      = Some (accidental (getLabel note)))) as [Heq | Hneq].
    + rewrite decide_False by tauto. reflexivity.
    + rewrite decide_True by tauto. apply lookup_insert_eq.
  - rewrite (decide_False (P := _ ∧ _)) by tauto.
    destruct (decide (accidentals !! letter (getLabel note)
                      = Some (accidental (getLabel note))));
      [reflexivity | apply lookup_insert_ne, Hne].
Qed.

(** The entry of [l] after the reduce is the accidental of the last note
    that wrote it; without such a note it is the initial entry. *)
Lemma displayed_lookup (accidentals obj : gmap Letter Accidental)
    (noteGroup : list Note) (l : Letter) :
  foldl (displayedStep accidentals) obj noteGroup !! l
  = match last (writers accidentals l noteGroup) with
    | Some note => Some (accidental (getLabel note))
    | None => obj !! l
    end.
Proof.
  induction noteGroup as [| note noteGroup IH] using rev_ind; [reflexivity |].
  rewrite foldl_app. simpl. rewrite displayedStep_lookup.
  unfold writers in *. rewrite filter_app, filter_cons, filter_nil.
  destruct (decide (letter (getLabel note) = l
                    ∧ accidentals !! l ≠ Some (accidental (getLabel note)))).
  - rewrite last_snoc. reflexivity.
  - rewrite app_nil_r. exact IH.
Qed.

Lemma nextAccidentals_lookup (accidentals : gmap Letter Accidental)
    (noteGroup : list Note) (l : Letter) :
  nextAccidentals noteGroup accidentals !! l
  = match last (writers accidentals l noteGroup) with
    | Some note => Some (accidental (getLabel note))
    | None => accidentals !! l
    end.
Proof.
  unfold nextAccidentals, getDisplayedAccidentals.
  rewrite lookup_union, displayed_lookup, lookup_empty.
  destruct (last (writers accidentals l noteGroup)); simpl.
  - destruct (accidentals !! l); reflexivity.
  - destruct (accidentals !! l); reflexivity.
Qed.

Lemma glyphsOf_SvgChord_note (props : SvgChordProps) (note : Note) :
  glyphsOf (SvgChord_note props note)
  = match getDisplayedAccidental (getLabel note) (accidentals props) with
    | Some displayed => [displayed]
    | None => []
    end.
Proof.
  unfold SvgChord_note, glyphsOf. simpl.
  destruct (decide (rhythmicValue note ≠ WHOLE)); simpl;
    destruct (getDisplayedAccidental (getLabel note) (accidentals props));
    reflexivity.
Qed.

Lemma trackAccidentals_app (state : gmap Letter Accidental)
    (chords1 chords2 : list (list Note)) :
  trackAccidentals state (chords1 ++ chords2)
  = trackAccidentals state chords1
    ++ trackAccidentals (finalAccidentals state chords1) chords2.
Proof.
  revert state. induction chords1 as [| chord chords1 IH]; intros state; simpl.
  - reflexivity.
  - rewrite IH. reflexivity.
Qed.

Lemma finalAccidentals_app (state : gmap Letter Accidental)
    (chords1 chords2 : list (list Note)) :
  finalAccidentals state (chords1 ++ chords2)
  = finalAccidentals (finalAccidentals state chords1) chords2.
Proof. apply foldl_app. Qed.

Lemma glyphsOf_single (props : SvgChordProps) (note : Note)
    (state : gmap Letter Accidental) :
  labeledNoteGroup props = [note] →
  accidentals props = state →
  glyphsOf (SvgChord props)
  = if decide (state !! letter (getLabel note)
               = Some (accidental (getLabel note)))
    then []
    else [accidental (getLabel note)].
Proof.
  intros Hnotes Hstate.
  unfold SvgChord. rewrite Hnotes. cbn [map concat]. rewrite app_nil_r.
  rewrite glyphsOf_SvgChord_note, Hstate. unfold getDisplayedAccidental.
  destruct (decide (state !! letter (getLabel note)
                    = Some (accidental (getLabel note)))); reflexivity.
Qed.

Section LayoutProperties.

Context {utilities : Utilities}.

(** *** The beam grouper *)

Lemma withinOctave_refl (a : LabeledChord) : withinOctave a a.
Proof.
  unfold withinOctave.
  assert (H : getAveragePitch a - getAveragePitch a == 0) by ring.
  rewrite H. discriminate.
Qed.

Lemma withinOctave_sym (a b : LabeledChord) :
  withinOctave a b → withinOctave b a.
Proof. unfold withinOctave. rewrite Qabs_Qminus. trivial. Qed.

Lemma closeEnough_spec (latestBeamGroup : list LabeledChord)
    (labeledChord : LabeledChord) :
  closeEnough latestBeamGroup labeledChord = true
  ↔ Forall (λ member, withinOctave member labeledChord) latestBeamGroup.
Proof.
  unfold closeEnough. rewrite Math_max_le, List.Forall_map. reflexivity.
Qed.

(** The two outcomes of an iteration: the chord opens a new group, or it
    joins the latest one, and then only under the conditions of the last
    branch. *)
Lemma groupStep_cases (beamGroups beamGroups' : list (list LabeledChord))
    (labeledChord : LabeledChord) :
  groupStep beamGroups labeledChord = Some beamGroups' →
  beamGroups' = beamGroups ++ [[labeledChord]]
  ∨ ∃ init latest,
      beamGroups = init ++ [latest]
      ∧ beamGroups' = init ++ [latest ++ [labeledChord]]
      ∧ (latest = []
         ∨ ((length latest < 4)%nat
            ∧ eighthChord labeledChord
            ∧ (∃ first rest, latest = first :: rest ∧ eighthChord first)
            ∧ Forall (λ member, withinOctave member labeledChord) latest)).
Proof.
  unfold groupStep.
  destruct (unsnoc beamGroups) as [[init latest] |] eqn:Hu.
  - apply unsnoc_Some in Hu. subst beamGroups.
    destruct latest as [| first rest].
    + intros [= <-]. right. exists init, []. auto.
    + destruct (Nat.leb_spec 4 (length (first :: rest))) as [Hfull | Hroom].
      { intros [= <-]. left. reflexivity. }
      destruct (isEighth labeledChord) as [[] |] eqn:He; simpl;
        [| intros [= <-]; left; reflexivity | discriminate].
      destruct (isEighth first) as [[] |] eqn:He0; simpl;
        [| intros [= <-]; left; reflexivity | discriminate].
      destruct (closeEnough (first :: rest) labeledChord) eqn:Hc;
        intros [= <-]; [| left; reflexivity].
      right. exists init, (first :: rest).
      repeat split; try reflexivity. right.
      repeat split; [exact Hroom | exact He | | apply closeEnough_spec, Hc].
      exists first, rest. split; [reflexivity | exact He0].
  - apply unsnoc_None in Hu. subst beamGroups. intros [= <-]. left. reflexivity.
Qed.

Lemma goodGroup_singleton (chord : LabeledChord) : goodGroup [chord].
Proof.
  repeat split; simpl; try lia; try discriminate.
  intros a b Ha Hb. apply list_elem_of_singleton in Ha, Hb. subst.
  apply withinOctave_refl.
Qed.

Lemma goodGroup_snoc (latest : list LabeledChord) (chord : LabeledChord) :
  goodGroup latest →
  (length latest < 4)%nat →
  eighthChord chord →
  (∃ first rest, latest = first :: rest ∧ eighthChord first) →
  Forall (λ member, withinOctave member chord) latest →
  goodGroup (latest ++ [chord]).
Proof.
  intros (Hne & Hlen & Heighth & Hclose) Hroom Hc (first & rest & -> & Hf) Hall.
  repeat split.
  - destruct rest; discriminate.
  - rewrite length_app. simpl in *. lia.
  - intros _. apply Forall_app. split; [| apply Forall_singleton, Hc].
    destruct rest as [| second rest].
    + apply Forall_singleton, Hf.
    + apply Heighth. simpl. lia.
  - intros a b Ha Hb. rewrite Forall_forall in Hall.
    apply elem_of_app in Ha, Hb.
    destruct Ha as [Ha | Ha], Hb as [Hb | Hb];
      rewrite ?list_elem_of_singleton in *; subst.
    + apply Hclose; assumption.
    + apply Hall, Ha.
    + apply withinOctave_sym, Hall, Hb.
    + apply withinOctave_refl.
Qed.

(** Every iteration keeps the groups good and appends the chord to their
    concatenation. *)
Lemma groupStep_invariant (beamGroups beamGroups' : list (list LabeledChord))
    (done : list LabeledChord) (labeledChord : LabeledChord) :
  Forall goodGroup beamGroups ∧ concat beamGroups = done →
  groupStep beamGroups labeledChord = Some beamGroups' →
  Forall goodGroup beamGroups' ∧ concat beamGroups' = done ++ [labeledChord].
Proof.
  intros [Hgood <-] Hstep.
  destruct (groupStep_cases _ _ _ Hstep)
    as [-> | (init & latest & -> & -> & Hjoin)].
  - split.
    + apply Forall_app. split; [exact Hgood |].
      apply Forall_singleton, goodGroup_singleton.
    + rewrite concat_app. simpl. reflexivity.
  - apply Forall_app in Hgood as [Hinit Hlatest].
    rewrite Forall_singleton in Hlatest.
    split.
    + apply Forall_app. split; [exact Hinit |]. apply Forall_singleton.
      destruct Hjoin as [-> | (Hroom & Hc & Hfirst & Hall)].
      * apply goodGroup_singleton.
      * apply goodGroup_snoc; assumption.
    + rewrite !concat_app. simpl. rewrite ?app_nil_r, ?app_assoc. reflexivity.
Qed.

Lemma groupBeamGroups_invariant (measure : list LabeledChord)
    (groups : list (list LabeledChord)) :
  groupBeamGroups measure = Some groups →
  Forall goodGroup groups ∧ concat groups = measure.
Proof.
  intros H.
  apply (forEachM_invariant groupStep
           (λ bg done, Forall goodGroup bg ∧ concat bg = done) measure
           (λ s done x s' HI Hb, groupStep_invariant s s' done x HI Hb) [] [] groups); [| exact H].
  split; [constructor | reflexivity].
Qed.

(** The three ways an iteration goes once the latest group is not empty. *)
Lemma groupStep_full (init : list (list LabeledChord))
    (latest : list LabeledChord) (chord : LabeledChord) :
  (4 ≤ length latest)%nat →
  groupStep (init ++ [latest]) chord = Some ((init ++ [latest]) ++ [[chord]]).
Proof.
  intros Hfull. unfold groupStep. rewrite unsnoc_snoc.
  destruct latest as [| first rest]; [simpl in Hfull; lia |].
  destruct (Nat.leb_spec 4 (length (first :: rest))); [reflexivity | lia].
Qed.

Lemma groupStep_join (init : list (list LabeledChord))
    (first : LabeledChord) (rest : list LabeledChord) (chord : LabeledChord) :
  (length (first :: rest) < 4)%nat →
  eighthChord chord →
  eighthChord first →
  Forall (λ member, withinOctave member chord) (first :: rest) →
  groupStep (init ++ [first :: rest]) chord
  = Some (init ++ [(first :: rest) ++ [chord]]).
Proof.
  intros Hroom Hc Hf Hall. unfold groupStep. rewrite unsnoc_snoc.
  destruct (Nat.leb_spec 4 (length (first :: rest))); [lia |].
  rewrite Hc. simpl. rewrite Hf. simpl.
  apply closeEnough_spec in Hall. rewrite Hall. reflexivity.
Qed.

Lemma groupStep_far (init : list (list LabeledChord))
    (first : LabeledChord) (rest : list LabeledChord) (chord : LabeledChord) :
  (length (first :: rest) < 4)%nat →
  eighthChord chord →
  eighthChord first →
  ¬ Forall (λ member, withinOctave member chord) (first :: rest) →
  groupStep (init ++ [first :: rest]) chord
  = Some ((init ++ [first :: rest]) ++ [[chord]]).
Proof.
  intros Hroom Hc Hf Hfar. unfold groupStep. rewrite unsnoc_snoc.
  destruct (Nat.leb_spec 4 (length (first :: rest))); [lia |].
  rewrite Hc. simpl. rewrite Hf. simpl.
  destruct (closeEnough (first :: rest) chord) eqn:Hclose; [| reflexivity].
  apply closeEnough_spec in Hclose. contradiction.
Qed.

Lemma groupStep_total (beamGroups : list (list LabeledChord))
    (chord : LabeledChord) :
  Forall (Forall (λ c, c ≠ [])) beamGroups →
  chord ≠ [] →
  ∃ beamGroups',
    groupStep beamGroups chord = Some beamGroups'
    ∧ Forall (Forall (λ c, c ≠ [])) beamGroups'.
Proof.
  intros Hall Hc.
  assert (Hsome : is_Some (groupStep beamGroups chord)).
  { unfold groupStep.
    destruct (unsnoc beamGroups) as [[init latest] |] eqn:Hu;
      [| eexists; reflexivity].
    apply unsnoc_Some in Hu. subst beamGroups.
    destruct latest as [| first rest]; [eexists; reflexivity |].
    destruct (4 <=? length (first :: rest))%nat; [eexists; reflexivity |].
    destruct (isEighth_nonempty chord Hc) as [e ->]. simpl.
    destruct e; simpl; [| eexists; reflexivity].
    apply Forall_app in Hall as [_ Hlatest].
    rewrite Forall_singleton, Forall_cons in Hlatest.
    destruct Hlatest as [Hfirst _].
    destruct (isEighth_nonempty first Hfirst) as [e0 ->]. simpl.
    destruct e0; simpl; [| eexists; reflexivity].
    destruct (closeEnough (first :: rest) chord); eexists; reflexivity. }
  destruct Hsome as [beamGroups' Hstep]. exists beamGroups'.
  split; [exact Hstep |].
  destruct (groupStep_cases _ _ _ Hstep)
    as [-> | (init & latest & -> & -> & _)].
  - apply Forall_app. split; [exact Hall |].
    apply Forall_singleton, Forall_singleton, Hc.
  - apply Forall_app in Hall as [Hinit Hlatest].
    rewrite Forall_singleton in Hlatest.
    apply Forall_app. split; [exact Hinit |].
    apply Forall_singleton, Forall_app. split; [exact Hlatest |].
    apply Forall_singleton, Hc.
Qed.

Lemma groupBeamGroups_total (measure : list LabeledChord) :
  Forall (λ chord, chord ≠ []) measure →
  ∃ groups,
    groupBeamGroups measure = Some groups
    ∧ Forall (Forall (λ c, c ≠ [])) groups.
Proof.
  intros Hm.
  apply (forEachM_total groupStep (Forall (Forall (λ c, c ≠ [])))
           (λ c, c ≠ [])); [| constructor | exact Hm].
  intros s x. apply groupStep_total.
Qed.

Lemma goodGroup_nonempty (groups : list (list LabeledChord)) :
  Forall goodGroup groups → Forall (λ group, group ≠ []) groups.
Proof.
  intros Hgood. eapply Forall_impl; [exact Hgood |].
  intros group H. apply H.
Qed.

(** C10: the beam grouper returns an order-preserving partition of its
    input.  It returns on every measure of non-empty chords; whenever it
    returns, the concatenation of the groups, in order, is the input list
    and no group is empty; the empty measure gives no group. *)
Theorem groupBeamGroups_partition :
  (∀ measure : list LabeledChord,
     Forall (λ chord, chord ≠ []) measure →
     is_Some (groupBeamGroups measure))
  ∧ (∀ (measure : list LabeledChord) groups,
       groupBeamGroups measure = Some groups →
       concat groups = measure ∧ Forall (λ group, group ≠ []) groups)
  ∧ groupBeamGroups [] = Some [].
Proof.
  split; [| split].
  - intros measure Hm.
    destruct (groupBeamGroups_total measure Hm) as (groups & Hg & _).
    exists groups. exact Hg.
  - intros measure groups Hg.
    destruct (groupBeamGroups_invariant measure groups Hg) as [Hgood Hcat].
    split; [exact Hcat | apply goodGroup_nonempty, Hgood].
  - reflexivity.
Qed.

Lemma getBeamLine_short (beamGroup : list LabeledChord) (clef : Clef)
    (startingX noteWidth staffLineHeight : Q) :
  (length beamGroup ≤ 1)%nat →
  getBeamLine beamGroup clef startingX noteWidth staffLineHeight = None.
Proof.
  intros H. unfold getBeamLine.
  destruct (Nat.leb_spec (length beamGroup) 1); [reflexivity | lia].
Qed.

Lemma goodGroup_length (group : list LabeledChord) :
  goodGroup group → (1 ≤ length group ≤ 4)%nat.
Proof.
  intros (Hne & Hlen & _). split; [| exact Hlen].
  destruct group; [congruence | simpl; lia].
Qed.

(** C1: the beam grouper partitions the chords of a measure into groups of
    1 to 4 chords; a group of more than one chord holds only chords whose
    rhythmic value is EIGHTH; [getBeamLine] returns undefined for a group of
    one chord; and five EIGHTH chords whose average pitches are pairwise
    within 12 semitones give a group of four followed by a group of one. *)
Theorem beam_groups_size_and_rhythm :
  (∀ measure : list LabeledChord,
     Forall (λ chord, chord ≠ []) measure →
     is_Some (groupBeamGroups measure))
  ∧ (∀ (measure : list LabeledChord) groups,
       groupBeamGroups measure = Some groups →
       concat groups = measure
       ∧ Forall (λ group,
                   (1 ≤ length group ≤ 4)%nat
                   ∧ ((1 < length group)%nat → Forall eighthChord group)
                   ∧ (length group = 1%nat →
                      ∀ clef startingX noteWidth staffLineHeight,
                        getBeamLine group clef startingX noteWidth
                          staffLineHeight = None))
                groups)
  ∧ (∀ c1 c2 c3 c4 c5 : LabeledChord,
       Forall eighthChord [c1; c2; c3; c4; c5] →
       pairwiseClose [c1; c2; c3; c4; c5] →
       groupBeamGroups [c1; c2; c3; c4; c5]
       = Some [[c1; c2; c3; c4]; [c5]]).
Proof.
  split; [| split].
  - intros measure Hm.
    destruct (groupBeamGroups_total measure Hm) as (groups & Hg & _).
    exists groups. exact Hg.
  - intros measure groups Hg.
    destruct (groupBeamGroups_invariant measure groups Hg) as [Hgood Hcat].
    split; [exact Hcat |].
    eapply Forall_impl; [exact Hgood |]. intros group Hgroup.
    split; [apply goodGroup_length, Hgroup |].
    split; [apply Hgroup |].
    intros Hone clef startingX noteWidth staffLineHeight.
    apply getBeamLine_short. lia.
  - intros c1 c2 c3 c4 c5 Heighth Hclose.
    rewrite !Forall_cons in Heighth.
    destruct Heighth as (E1 & E2 & E3 & E4 & E5 & _).
    assert (Hall : ∀ members c,
              Forall (λ member, member ∈ [c1; c2; c3; c4; c5]) members →
              c ∈ [c1; c2; c3; c4; c5] →
              Forall (λ member, withinOctave member c) members).
    { intros members c Hsub Hc. eapply Forall_impl; [exact Hsub |].
      intros member Hm. apply Hclose; assumption. }
    unfold groupBeamGroups.
    rewrite (forEachM_step groupStep [] [[c1]]) by reflexivity.
    rewrite (forEachM_step groupStep [[c1]] [[c1; c2]]).
    2: { apply (groupStep_join [] c1 [] c2); simpl; try lia; try assumption.
         apply Hall; rewrite ?Forall_cons, ?elem_of_cons; auto 10. }
    rewrite (forEachM_step groupStep [[c1; c2]] [[c1; c2; c3]]).
    2: { apply (groupStep_join [] c1 [c2] c3); simpl; try lia; try assumption.
         apply Hall; rewrite ?Forall_cons, ?elem_of_cons; auto 10. }
    rewrite (forEachM_step groupStep [[c1; c2; c3]] [[c1; c2; c3; c4]]).
    2: { apply (groupStep_join [] c1 [c2; c3] c4); simpl; try lia;
           try assumption.
         apply Hall; rewrite ?Forall_cons, ?elem_of_cons; auto 10. }
    rewrite (forEachM_step groupStep [[c1; c2; c3; c4]]
               [[c1; c2; c3; c4]; [c5]]).
    2: { apply (groupStep_full [] [c1; c2; c3; c4] c5). simpl. lia. }
    reflexivity.
Qed.

(** C7: a chord joins the current beam group only if its average pitch is
    within 12 semitones of the average pitch of every chord already in the
    group, so the chords of every returned group are pairwise within 12
    semitones; three EIGHTH chords with average pitches 60, 80 and 61 give
    three groups of one chord. *)
Theorem join_requires_every_member_close :
  (∀ (init : list (list LabeledChord)) latest chord,
     groupStep (init ++ [latest]) chord = Some (init ++ [latest ++ [chord]]) →
     Forall (λ member,
               Qabs (getAveragePitch member - getAveragePitch chord) <= 12)
            latest)
  ∧ (∀ (measure : list LabeledChord) groups,
       groupBeamGroups measure = Some groups →
       Forall pairwiseClose groups)
  ∧ (∀ c1 c2 c3 : LabeledChord,
       Forall eighthChord [c1; c2; c3] →
       getAveragePitch c1 == 60 →
       getAveragePitch c2 == 80 →
       getAveragePitch c3 == 61 →
       groupBeamGroups [c1; c2; c3] = Some [[c1]; [c2]; [c3]]).
Proof.
  split; [| split].
  - intros init latest chord Hstep.
    destruct (groupStep_cases _ _ _ Hstep)
      as [Heq | (init' & latest' & Hbefore & Hafter & Hjoin)].
    + apply (f_equal length) in Heq. rewrite !length_app in Heq.
      simpl in Heq. lia.
    + apply app_inj_tail in Hbefore as [_ <-].
      destruct Hjoin as [-> | (_ & _ & _ & Hall)]; [constructor | exact Hall].
  - intros measure groups Hg.
    destruct (groupBeamGroups_invariant measure groups Hg) as [Hgood _].
    eapply Forall_impl; [exact Hgood |]. intros group Hgroup. apply Hgroup.
  - intros c1 c2 c3 Heighth H1 H2 H3.
    rewrite !Forall_cons in Heighth.
    destruct Heighth as (E1 & E2 & E3 & _).
    assert (Hfar : ∀ a b : LabeledChord,
              12 < Qabs (getAveragePitch a - getAveragePitch b) →
              ¬ Forall (λ member, withinOctave member b) [a]).
    { intros a b Hlt Hall. rewrite Forall_singleton in Hall.
      unfold withinOctave in Hall. apply (Qlt_not_le _ _ Hlt Hall). }
    unfold groupBeamGroups.
    rewrite (forEachM_step groupStep [] [[c1]]) by reflexivity.
    rewrite (forEachM_step groupStep [[c1]] [[c1]; [c2]]).
    2: { apply (groupStep_far [] c1 [] c2); simpl; try lia; try assumption.
         apply Hfar. rewrite H1, H2. reflexivity. }
    rewrite (forEachM_step groupStep [[c1]; [c2]] [[c1]; [c2]; [c3]]).
    2: { apply (groupStep_far [[c1]] c2 [] c3); simpl; try lia;
           try assumption.
         apply Hfar. rewrite H2, H3. reflexivity. }
    reflexivity.
Qed.

(** *** The beam line *)

Lemma middlePitch_small (clef : Clef) : Qabs (middlePitch clef) <= 100.
Proof. destruct clef; discriminate. Qed.

Lemma middlePitch_dyadic (clef : Clef) : dyadic (middlePitch clef).
Proof. destruct clef; [apply (dyadic_Z 71) | apply (dyadic_Z 50)]. Qed.

Lemma specPitchSum_pitches (beamGroup : list LabeledChord) (clef : Clef) :
  specPitchSum beamGroup clef
  = foldr Qplus 0
      (map (λ pitch, pitch - middlePitch clef) (averagePitches beamGroup)).
Proof.
  unfold specPitchSum, averagePitches. rewrite List.map_map. reflexivity.
Qed.

(** The reduce on one more chord. *)
Lemma pitchDelta_snoc (beamGroup : list LabeledChord) (chord : LabeledChord)
    (clef : Clef) :
  pitchDelta (beamGroup ++ [chord]) clef
  = doubleMinus (doublePlus (pitchDelta beamGroup clef)
                            (getAveragePitch chord))
                (middlePitch clef).
Proof.
  unfold pitchDelta, averagePitches.
  rewrite List.map_app, foldl_app. reflexivity.
Qed.

(** For up to 1000 chords of average pitch up to 1000 in magnitude the
    reduce is finite and within 1/500000 of the exact sum. *)
Lemma pitchDelta_near (beamGroup : list LabeledChord) (clef : Clef) :
  (length beamGroup ≤ 1000)%nat →
  Forall (λ chord, Qabs (getAveragePitch chord) <= 1000) beamGroup →
  ∃ d, pitchDelta beamGroup clef = Fin d
       ∧ Qabs (d - specPitchSum beamGroup clef) <= 1 # 500000.
Proof.
  intros Hlen Hall.
  assert (Hpitches : Forall (λ p, Qabs p <= 1000) (averagePitches beamGroup)).
  { unfold averagePitches. apply List.Forall_map. exact Hall. }
  assert (Hn : length (averagePitches beamGroup) = length beamGroup)
    by apply length_map.
  destruct (reduce_near (middlePitch clef) (averagePitches beamGroup)
              (middlePitch_small clef) 0 0 0 Hpitches)
    as (d & Hd & Herr).
  - rewrite Hn. exact Hlen.
  - discriminate.
  - discriminate.
  - exists d. split; [exact Hd |].
    rewrite specPitchSum_pitches.
    destruct (inject_nat_bound (0 + length (averagePitches beamGroup)) 1000)
      as [_ Hj]; [rewrite Hn; exact Hlen |].
    change (inject_Z (Z.of_nat 1000)) with 1000 in Hj.
    unfold_Qabs. lra.
Qed.

(** With dyadic average pitches no step of the reduce rounds. *)
Lemma pitchDelta_exact (beamGroup : list LabeledChord) (clef : Clef) :
  (length beamGroup ≤ 1000)%nat →
  Forall (λ chord, Qabs (getAveragePitch chord) <= 1000) beamGroup →
  Forall (λ chord, dyadic (getAveragePitch chord)) beamGroup →
  ∃ d, pitchDelta beamGroup clef = Fin d ∧ d == specPitchSum beamGroup clef.
Proof.
  intros Hlen Hall Hdyadic.
  assert (Hpitches : Forall (λ p, Qabs p <= 1000 ∧ dyadic p)
                       (averagePitches beamGroup)).
  { unfold averagePitches. apply List.Forall_map.
    rewrite Forall_forall in Hall, Hdyadic. apply Forall_forall.
    intros chord Hin. split; [apply Hall | apply Hdyadic]; exact Hin. }
  assert (Hn : length (averagePitches beamGroup) = length beamGroup)
    by apply length_map.
  destruct (reduce_exact (middlePitch clef) (averagePitches beamGroup)
              (middlePitch_small clef) (middlePitch_dyadic clef) 0 0 Hpitches)
    as (d & Hd & Hsum).
  - rewrite Hn. exact Hlen.
  - apply (dyadic_Z 0).
  - discriminate.
  - exists d. split; [exact Hd |].
    rewrite specPitchSum_pitches, Hsum. ring.
Qed.

Lemma shouldBeAbove_finite (beamGroup : list LabeledChord) (clef : Clef)
    (d : Q) :
  pitchDelta beamGroup clef = Fin d →
  shouldBeAbove beamGroup clef = true ↔ d < 0.
Proof.
  intros Hd. unfold shouldBeAbove. rewrite Hd. cbn [xltb].
  rewrite negb_true_iff. split.
  - intros Hb. apply Qnot_le_lt. intros Hle.
    apply Qle_bool_iff in Hle. congruence.
  - intros Hlt. destruct (Qle_bool 0 d) eqn:Hb; [| reflexivity].
    apply Qle_bool_iff in Hb. exfalso. apply (Qlt_not_le _ _ Hlt Hb).
Qed.

Lemma getBeamLine_side (beamGroup : list LabeledChord) (clef : Clef)
    (startingX noteWidth staffLineHeight : Q) (line : BeamLine) :
  getBeamLine beamGroup clef startingX noteWidth staffLineHeight = Some line →
  isAbove line = shouldBeAbove beamGroup clef.
Proof.
  unfold getBeamLine.
  destruct (length beamGroup <=? 1)%nat; [discriminate |].
  intros Hline. injection Hline as <-. reflexivity.
Qed.

(** Where the sign of the reduce is the sign of the exact sum. *)
Lemma shouldBeAbove_sum (beamGroup : list LabeledChord) (clef : Clef) :
  (length beamGroup ≤ 1000)%nat →
  Forall (λ chord, Qabs (getAveragePitch chord) <= 1000) beamGroup →
  1 # 100000 <= Qabs (specPitchSum beamGroup clef)
  ∨ Forall (λ chord, dyadic (getAveragePitch chord)) beamGroup →
  shouldBeAbove beamGroup clef = true ↔ specPitchSum beamGroup clef < 0.
Proof.
  intros Hlen Hall [Hfar | Hdyadic].
  - destruct (pitchDelta_near beamGroup clef Hlen Hall) as (d & Hd & Herr).
    rewrite (shouldBeAbove_finite beamGroup clef d Hd).
    apply Qabs_Qle_condition in Herr.
    revert Hfar. apply Qabs_case; intros Hsign Hfar; split; intros H; lra.
  - destruct (pitchDelta_exact beamGroup clef Hlen Hall Hdyadic)
      as (d & Hd & Hsum).
    rewrite (shouldBeAbove_finite beamGroup clef d Hd), Hsum. reflexivity.
Qed.

Lemma closerOrEqual_refl (above : bool) (x : xnum) : closerOrEqual above x x.
Proof. destruct above; apply xle_refl. Qed.

Lemma closerOrEqual_trans (above : bool) (x y z : xnum) :
  closerOrEqual above x y → closerOrEqual above y z → closerOrEqual above x z.
Proof.
  destruct above; simpl; intros Hxy Hyz; eapply xle_trans; eassumption.
Qed.

Lemma closer_test_true (above : bool) (x y : xnum) :
  (if above then xltb x y else xltb y x) = true → closerOrEqual above x y.
Proof. destruct above; apply xltb_true_le. Qed.

Lemma closer_test_false (above : bool) (x y : xnum) :
  (if above then xltb x y else xltb y x) = false → closerOrEqual above y x.
Proof. destruct above; apply xltb_false_le. Qed.

(** The loop returns the closest of the initial value and the adjusted
    values of the chords. *)
Lemma closestLoop_spec (above : bool) (slope : Q) (clef : Clef)
    (noteWidth staffLineHeight : Q) (chords : list LabeledChord) :
  ∀ (i : nat) (init : xnum),
    let result :=
      closestLoop above slope clef noteWidth staffLineHeight i chords init in
    let adj k chord :=
      adjustedChordY above slope clef noteWidth staffLineHeight k chord in
    closerOrEqual above result init
    ∧ (∀ k chord, chords !! k = Some chord →
                  closerOrEqual above result (adj (i + k)%nat chord))
    ∧ (result = init
       ∨ ∃ k chord, chords !! k = Some chord ∧ result = adj (i + k)%nat chord).
Proof.
  induction chords as [| chord rest IH]; intros i init; simpl.
  - split; [apply closerOrEqual_refl |].
    split; [intros k c Hk; discriminate | left; reflexivity].
  - set (a := adjustedChordY above slope clef noteWidth staffLineHeight i chord).
    set (init' := if (if above then xltb a init else xltb init a)
                  then a else init).
    destruct (IH (S i) init') as (Hinit & Hall & Hex).
    assert (Hi : closerOrEqual above init' init
                 ∧ closerOrEqual above init' a).
    { unfold init'.
      destruct (if above then xltb a init else xltb init a) eqn:Ht.
      - split; [apply closer_test_true, Ht | apply closerOrEqual_refl].
      - split; [apply closerOrEqual_refl | apply closer_test_false, Ht]. }
    destruct Hi as [Hi1 Hi2].
    split; [eapply closerOrEqual_trans; eassumption |].
    split.
    + intros [| k] c Hk; simpl in Hk.
      * injection Hk as <-. rewrite Nat.add_0_r.
        eapply closerOrEqual_trans; eassumption.
      * rewrite Nat.add_succ_r. apply (Hall k c Hk).
    + destruct Hex as [Hex | (k & c & Hk & Hr)].
      * rewrite Hex. unfold init'.
        destruct (if above then xltb a init else xltb init a).
        -- right. exists 0%nat, chord. rewrite Nat.add_0_r. auto.
        -- left. reflexivity.
      * right. exists (S k), c. rewrite Nat.add_succ_r. auto.
Qed.

Lemma closestNoteY_spec (beamGroup : list LabeledChord) (clef : Clef)
    (noteWidth staffLineHeight : Q) :
  beamGroup ≠ [] →
  let above := shouldBeAbove beamGroup clef in
  let adj k chord :=
    adjustedChordY above (displayedSlope beamGroup) clef noteWidth
      staffLineHeight k chord in
  let closest := closestNoteY beamGroup clef noteWidth staffLineHeight in
  (∃ i chord, beamGroup !! i = Some chord ∧ closest = adj i chord)
  ∧ (∀ i chord, beamGroup !! i = Some chord →
                closerOrEqual above closest (adj i chord)).
Proof.
  intros Hne above adj closest.
  assert (Hc : closest
               = closestLoop above (displayedSlope beamGroup) clef noteWidth
                   staffLineHeight 0 beamGroup (if above then PInf else NInf))
    by reflexivity.
  clearbody closest.
  destruct (closestLoop_spec above (displayedSlope beamGroup) clef noteWidth
              staffLineHeight beamGroup 0 (if above then PInf else NInf))
    as (_ & Hall & Hex).
  rewrite <- Hc in Hall, Hex.
  split; [| intros i chord Hi; apply (Hall i chord Hi)].
  destruct Hex as [Hinit | Hex]; [| exact Hex].
  destruct beamGroup as [| first rest]; [congruence |].
  exists 0%nat, first. split; [reflexivity |].
  specialize (Hall 0%nat first eq_refl).
  change (closerOrEqual above closest (adj 0%nat first)) in Hall.
  rewrite Hinit in Hall |- *. unfold closerOrEqual in Hall.
  destruct above; symmetry; [apply xle_PInf | apply xle_NInf]; exact Hall.
Qed.

Lemma adjustedChordY_finite (above : bool) (slope : Q) (clef : Clef)
    (noteWidth staffLineHeight : Q) (i : nat) (chord : LabeledChord) :
  chord ≠ [] →
  ∃ y,
    adjustedChordY above slope clef noteWidth staffLineHeight i chord = Fin y.
Proof.
  intros Hne. unfold adjustedChordY.
  assert (Hys : map (λ note,
                       positionToY (getPositionByNote note clef)
                         staffLineHeight) chord ≠ []).
  { destruct chord; [congruence | discriminate]. }
  destruct above;
    [destruct (Math_min_finite _ Hys) as [q ->]
    | destruct (Math_max_finite _ Hys) as [q ->]];
    eexists; reflexivity.
Qed.

(** C2, amended: for a group of at least two chords the beam is above the
    notes exactly when the total that the code accumulates in doubles is
    negative: from 0, for each chord in order, plus the chord's average
    pitch, minus the middle-line pitch (71 for treble, 50 for bass).  For
    up to 1000 chords with average pitches up to 1000 in magnitude that is
    the sign of the exact sum over the chords of average pitch minus
    middle-line pitch, whenever this sum is at least 1/100000 away from 0
    or every average pitch is an integer multiple of [2^-30], so that no
    step rounds.  At [startingX] the line is 2 staff line heights beyond
    the extreme slope-adjusted head y: the minimum over the chords if
    above, the maximum if below, of the chord's closest head y minus
    [displayedSlope * i * noteWidth], which is finite when every chord has
    a note. *)
Theorem beam_side_and_clearance (beamGroup : list LabeledChord) (clef : Clef)
    (startingX noteWidth staffLineHeight : Q) :
  (2 ≤ length beamGroup)%nat →
  ∃ line,
    getBeamLine beamGroup clef startingX noteWidth staffLineHeight = Some line
    ∧ (isAbove line = true
       ↔ xltb (foldl (λ delta pitch,
                        doubleMinus (doublePlus delta pitch) (middlePitch clef))
                     (Fin 0) (map getAveragePitch beamGroup))
              (Fin 0) = true)
    ∧ ((length beamGroup ≤ 1000)%nat →
       Forall (λ chord, Qabs (getAveragePitch chord) <= 1000) beamGroup →
       1 # 100000 <= Qabs (specPitchSum beamGroup clef)
       ∨ Forall (λ chord, dyadic (getAveragePitch chord)) beamGroup →
       (isAbove line = true ↔ specPitchSum beamGroup clef < 0))
    ∧ middlePitch TREBLE = 71 ∧ middlePitch BASS = 50
    ∧ let adjusted (i : nat) (chord : LabeledChord) :=
        xminus
          ((if isAbove line then Math_min else Math_max)
             (map (λ note,
                     positionToY (getPositionByNote note clef) staffLineHeight)
                  chord))
          (displayedSlope beamGroup * inject_Z (Z.of_nat i) * noteWidth) in
      ∃ extreme,
        (∃ i chord, beamGroup !! i = Some chord ∧ extreme = adjusted i chord)
        ∧ (∀ i chord, beamGroup !! i = Some chord →
             if isAbove line then xle extreme (adjusted i chord)
             else xle (adjusted i chord) extreme)
        ∧ xeq (getY line startingX)
              (xplus extreme
                 ((if isAbove line then -2 else 2) * staffLineHeight))
        ∧ (Forall (λ chord, chord ≠ []) beamGroup → ∃ y, extreme = Fin y).
Proof.
  intros Hlen. unfold getBeamLine.
  destruct (Nat.leb_spec (length beamGroup) 1) as [Hshort | _]; [lia |].
  eexists. split; [reflexivity |]. cbn [isAbove getY].
  split; [reflexivity |].
  split; [apply shouldBeAbove_sum |].
  split; [reflexivity |]. split; [reflexivity |].
  assert (Hne : beamGroup ≠ []) by (destruct beamGroup; [simpl in Hlen; lia | discriminate]).
  destruct (closestNoteY_spec beamGroup clef noteWidth staffLineHeight Hne)
    as [Hex Hall].
  exists (closestNoteY beamGroup clef noteWidth staffLineHeight).
  split; [exact Hex |]. split; [exact Hall |]. split.
  - destruct (closestNoteY beamGroup clef noteWidth staffLineHeight);
      simpl; trivial.
    ring.
  - intros Hchords. destruct Hex as (i & chord & Hi & ->).
    apply adjustedChordY_finite.
    rewrite Forall_lookup in Hchords. apply (Hchords i chord Hi).
Qed.



(** *** The accidental tracker *)

(** C3 (amended): the chord element is given the accidental state as it
    was before the chord, so every note of the chord is compared against
    that state; the state is updated once, after the chord; and afterwards
    the entry of a letter is the accidental of the last note of the chord
    with that letter whose accidental differs from the entry before the
    chord, or the entry before the chord when there is no such note. *)
Theorem chord_compared_against_state_before (sizes : SizingData)
    (clef : Clef) (beamLine : option BeamLine) (st st' : ClefState)
    (noteGroup : list Note) :
  chordStep sizes clef beamLine st noteGroup = Some st' →
  let before := accidentalState st in
  (∃ props,
     elementsToDisplay st' = elementsToDisplay st ++ [ChordElement props]
     ∧ labeledNoteGroup props = noteGroup
     ∧ accidentals props = before
     ∧ ∀ note,
         glyphsOf (SvgChord_note props note)
         = if decide (before !! letter (getLabel note)
                      = Some (accidental (getLabel note)))
           then []
           else [accidental (getLabel note)])
  ∧ accidentalState st'
    = getDisplayedAccidentals noteGroup before ∪ before
  ∧ ∀ l,
      accidentalState st' !! l
      = match last (writers before l noteGroup) with
        | Some note => Some (accidental (getLabel note))
        | None => before !! l
        end.
Proof.
  unfold chordStep.
  destruct (firstRhythmicValue noteGroup) as [rv |]; cbn [mbind option_bind];
    [| discriminate].
  intros [= <-]. cbn [elementsToDisplay accidentalState]. split; [| split].
  - unfold createSvgChord. eexists. split; [reflexivity |].
    cbn [labeledNoteGroup accidentals].
    split; [reflexivity |]. split; [reflexivity |].
    intros note. rewrite glyphsOf_SvgChord_note.
    unfold getDisplayedAccidental. cbn [accidentals].
    destruct (decide (accidentalState st !! letter (getLabel note)
                      = Some (accidental (getLabel note)))); reflexivity.
  - reflexivity.
  - intros l. apply nextAccidentals_lookup.
Qed.

(** *** The trace of [createClefNotes] *)

Lemma chordStep_inv (sizes : SizingData) (clef : Clef)
    (beamLine : option BeamLine) (st st' : ClefState) (noteGroup : list Note) :
  chordStep sizes clef beamLine st noteGroup = Some st' →
  ∃ props,
    elementsToDisplay st' = elementsToDisplay st ++ [ChordElement props]
    ∧ notesAndState props = (noteGroup, accidentalState st)
    ∧ accidentalState st' = nextAccidentals noteGroup (accidentalState st).
Proof.
  unfold chordStep.
  destruct (firstRhythmicValue noteGroup) as [rv |]; cbn [mbind option_bind];
    [| discriminate].
  intros [= <-]. eexists. split; [reflexivity |]. split; reflexivity.
Qed.

(** The inner loop pushes one chord element per chord, each with the
    state before the chord. *)
Lemma chordLoop_trace (sizes : SizingData) (clef : Clef)
    (beamLine : option BeamLine) (chords : list (list Note)) :
  ∀ st st',
    forEachM (chordStep sizes clef beamLine) st chords = Some st' →
    ∃ newProps,
      chordPropsOf (elementsToDisplay st')
      = chordPropsOf (elementsToDisplay st) ++ newProps
      ∧ map notesAndState newProps
        = trackAccidentals (accidentalState st) chords
      ∧ accidentalState st' = finalAccidentals (accidentalState st) chords.
Proof.
  induction chords as [| chord chords IH]; intros st st'; simpl.
  - intros [= <-]. exists []. rewrite app_nil_r. auto.
  - destruct (chordStep sizes clef beamLine st chord) as [st1 |] eqn:Hstep;
      cbn [mbind option_bind]; [| discriminate].
    intros Hrest. destruct (IH _ _ Hrest) as (newProps & Hprops & Hobs & Hfin).
    destruct (chordStep_inv _ _ _ _ _ _ Hstep) as (props & Hels & Hobs1 & Hacc).
    exists (props :: newProps). split; [| split].
    + rewrite Hprops, Hels. unfold chordPropsOf. rewrite omap_app. simpl.
      rewrite <- app_assoc. reflexivity.
    + simpl. rewrite Hobs, Hobs1, Hacc. reflexivity.
    + rewrite Hfin, Hacc. reflexivity.
Qed.

Lemma beamGroupStep_trace (sizes : SizingData) (clef : Clef)
    (st st' : ClefState) (beamGroup : list LabeledChord) :
  beamGroupStep sizes clef st beamGroup = Some st' →
  ∃ newProps,
    chordPropsOf (elementsToDisplay st')
    = chordPropsOf (elementsToDisplay st) ++ newProps
    ∧ map notesAndState newProps
      = trackAccidentals (accidentalState st) beamGroup
    ∧ accidentalState st' = finalAccidentals (accidentalState st) beamGroup.
Proof.
  unfold beamGroupStep.
  destruct (head beamGroup) as [firstChord |]; simpl; [| discriminate].
  destruct (firstRhythmicValue firstChord) as [rv |]; simpl; [| discriminate].
  match goal with
  | |- context [forEachM ?body ?st0 beamGroup] =>
      destruct (forEachM body st0 beamGroup) as [st1 |] eqn:Hloop
  end; simpl; [| discriminate].
  apply chordLoop_trace in Hloop as (newProps & Hprops & Hobs & Hfin).
  simpl in Hprops, Hobs, Hfin.
  match goal with
  | |- context [match ?line with Some _ => _ | None => _ end] =>
      destruct line as [found |]
  end; intros [= <-]; exists newProps; simpl.
  - split; [| auto]. unfold chordPropsOf in *. rewrite omap_app. simpl.
    rewrite app_nil_r. exact Hprops.
  - auto.
Qed.

Lemma beamGroupLoop_trace (sizes : SizingData) (clef : Clef)
    (beamGroups : list (list LabeledChord)) :
  ∀ st st',
    forEachM (beamGroupStep sizes clef) st beamGroups = Some st' →
    ∃ newProps,
      chordPropsOf (elementsToDisplay st')
      = chordPropsOf (elementsToDisplay st) ++ newProps
      ∧ map notesAndState newProps
        = trackAccidentals (accidentalState st) (concat beamGroups)
      ∧ accidentalState st'
        = finalAccidentals (accidentalState st) (concat beamGroups).
Proof.
  induction beamGroups as [| beamGroup beamGroups IH]; intros st st'; simpl.
  - intros [= <-]. exists []. rewrite app_nil_r. auto.
  - destruct (beamGroupStep sizes clef st beamGroup) as [st1 |] eqn:Hstep;
      simpl; [| discriminate].
    intros Hrest.
    destruct (beamGroupStep_trace _ _ _ _ _ Hstep) as (ps1 & Hp1 & Ho1 & Hf1).
    destruct (IH _ _ Hrest) as (ps2 & Hp2 & Ho2 & Hf2).
    exists (ps1 ++ ps2). split; [| split].
    + rewrite Hp2, Hp1, app_assoc. reflexivity.
    + rewrite List.map_app, Ho1, Ho2, Hf1, trackAccidentals_app. reflexivity.
    + rewrite Hf2, Hf1, finalAccidentals_app. reflexivity.
Qed.

(** The chord elements that [createClefNotes] adds are those of the chords
    of the measure, in order, each with the state before it. *)
Lemma createClefNotes_trace (sizes : SizingData) (clef : Clef)
    (measureClef : list (list Note)) (elements elements' : list Element)
    (x x' : Q) (originalKeyLetters : gmap Letter Accidental) :
  createClefNotes sizes clef measureClef elements x originalKeyLetters
  = Some (elements', x') →
  ∃ newProps,
    chordPropsOf elements' = chordPropsOf elements ++ newProps
    ∧ map notesAndState newProps
      = trackAccidentals originalKeyLetters measureClef.
Proof.
  unfold createClefNotes.
  destruct (groupBeamGroups measureClef) as [beamGroups |] eqn:Hgroups;
    simpl; [| discriminate].
  match goal with
  | |- context [forEachM ?body ?st0 beamGroups] =>
      destruct (forEachM body st0 beamGroups) as [st1 |] eqn:Hloop
  end; simpl; [| discriminate].
  intros [= <- <-].
  apply beamGroupLoop_trace in Hloop as (newProps & Hprops & Hobs & _).
  simpl in Hprops, Hobs.
  apply groupBeamGroups_invariant in Hgroups as [_ Hcat].
  rewrite Hcat in Hobs. exists newProps. auto.
Qed.

Lemma chordLoop_total (sizes : SizingData) (clef : Clef)
    (beamLine : option BeamLine) (chords : list (list Note)) (st : ClefState) :
  Forall (λ chord, chord ≠ []) chords →
  is_Some (forEachM (chordStep sizes clef beamLine) st chords).
Proof.
  intros Hchords.
  destruct (forEachM_total (chordStep sizes clef beamLine) (λ _, True)
              (λ chord, chord ≠ [])) with (l := chords) (s := st)
    as (st' & Hst' & _); [| trivial | exact Hchords | exists st'; exact Hst'].
  intros s chord _ Hne. unfold chordStep.
  destruct chord as [| note chord]; [congruence |]. simpl.
  eexists. split; [reflexivity | trivial].
Qed.

Lemma beamGroupStep_total (sizes : SizingData) (clef : Clef) (st : ClefState)
    (beamGroup : list LabeledChord) :
  beamGroup ≠ [] →
  Forall (λ chord, chord ≠ []) beamGroup →
  is_Some (beamGroupStep sizes clef st beamGroup).
Proof.
  intros Hne Hchords. unfold beamGroupStep.
  destruct beamGroup as [| firstChord rest]; [congruence |].
  assert (Hfirst : firstChord ≠ []) by (rewrite Forall_cons in Hchords; tauto).
  destruct firstChord as [| note notes]; [congruence |].
  cbn [head mbind option_bind firstRhythmicValue].
  set (beamLine := getBeamLine _ _ _ _ _).
  match goal with
  | |- context [forEachM _ ?st0 ?chords] =>
      destruct (chordLoop_total sizes clef beamLine chords st0 Hchords)
        as [st1 Hloop]
  end.
  rewrite Hloop. cbn [mbind option_bind].
  destruct beamLine; eexists; reflexivity.
Qed.

Lemma createClefNotes_total (sizes : SizingData) (clef : Clef)
    (measureClef : list (list Note)) (elements : list Element) (x : Q)
    (originalKeyLetters : gmap Letter Accidental) :
  Forall (λ chord, chord ≠ []) measureClef →
  is_Some
    (createClefNotes sizes clef measureClef elements x originalKeyLetters).
Proof.
  intros Hm. unfold createClefNotes.
  destruct (groupBeamGroups_total measureClef Hm) as (groups & Hg & Hchords).
  rewrite Hg. cbn [mbind option_bind].
  apply groupBeamGroups_invariant in Hg as [Hgood _].
  apply goodGroup_nonempty in Hgood.
  match goal with
  | |- context [forEachM ?body ?st0 groups] =>
      destruct (forEachM_total body (λ _, True)
                  (λ group, group ≠ [] ∧ Forall (λ chord, chord ≠ []) group))
        with (l := groups) (s := st0) as (st' & Hst' & _)
  end.
  - intros s group _ [Hne Hall].
    destruct (beamGroupStep_total sizes clef s group Hne Hall) as [s' Hs'].
    exists s'. auto.
  - trivial.
  - rewrite Forall_forall in *. intros group Hin. auto.
  - rewrite Hst'. eexists. reflexivity.
Qed.

(** C4: in a measure that starts from a key signature with F sharp, the
    notes F sharp, F natural, F natural, one after the other, are displayed
    with no accidental, a NATURAL, and no accidental. *)
Theorem f_sharp_then_naturals (sizes : SizingData) (clef : Clef)
    (n1 n2 n3 : Note) (elements : list Element) (x : Q)
    (originalKeyLetters : gmap Letter Accidental) :
  originalKeyLetters !! F = Some SHARP →
  getLabel n1 = mkLabel F SHARP →
  getLabel n2 = mkLabel F NATURAL →
  getLabel n3 = mkLabel F NATURAL →
  ∃ elements' x' p1 p2 p3,
    createClefNotes sizes clef [[n1]; [n2]; [n3]] elements x
      originalKeyLetters = Some (elements', x')
    ∧ chordPropsOf elements' = chordPropsOf elements ++ [p1; p2; p3]
    ∧ map labeledNoteGroup [p1; p2; p3] = [[n1]; [n2]; [n3]]
    ∧ map (λ props, glyphsOf (SvgChord props)) [p1; p2; p3]
      = [[]; [NATURAL]; []].
Proof.
  intros Hkey H1 H2 H3.
  destruct (createClefNotes_total sizes clef [[n1]; [n2]; [n3]] elements x
              originalKeyLetters) as [[elements' x'] Hrun].
  { repeat constructor; discriminate. }
  destruct (createClefNotes_trace _ _ _ _ _ _ _ _ Hrun)
    as (newProps & Hprops & Hobs).
  cbn [trackAccidentals] in Hobs.
  destruct newProps as [| p1 [| p2 [| p3 [| p4 rest]]]]; try discriminate.
  cbn [map] in Hobs. injection Hobs as Hn1 Ha1 Hn2 Ha2 Hn3 Ha3.
  exists elements', x', p1, p2, p3.
  split; [exact Hrun |]. split; [exact Hprops |].
  assert (Hs2 : nextAccidentals [n1] originalKeyLetters !! F = Some SHARP).
  { rewrite nextAccidentals_lookup. unfold writers.
    rewrite filter_cons, filter_nil, decide_False; [exact Hkey |].
    rewrite H1. cbn [accidental]. intros [_ Hne]. apply Hne, Hkey. }
  assert (Hs3 : nextAccidentals [n2] (nextAccidentals [n1] originalKeyLetters)
                !! F = Some NATURAL).
  { rewrite nextAccidentals_lookup. unfold writers.
    rewrite filter_cons, filter_nil, decide_True.
    - cbn [last]. rewrite H2. reflexivity.
    - rewrite H2, Hs2. cbn [letter accidental]. split; [reflexivity |].
      discriminate. }
  split.
  - cbn [map]. rewrite Hn1, Hn2, Hn3. reflexivity.
  - cbn [map].
    rewrite (glyphsOf_single p1 n1 _ Hn1 Ha1),
      (glyphsOf_single p2 n2 _ Hn2 Ha2), (glyphsOf_single p3 n3 _ Hn3 Ha3).
    rewrite H1, H2, H3. cbn [letter accidental].
    rewrite Hkey, Hs2, Hs3.
    rewrite decide_True by reflexivity.
    rewrite decide_False by discriminate.
    rewrite decide_True by reflexivity.
    reflexivity.
Qed.

(** *** The cursors of the two staves *)

Lemma measureStep_inv (height : Q)
    (originalKeyLetters : gmap Letter Accidental) (st st' : StaffState)
    (measure : LabeledMusic) :
  measureStep height originalKeyLetters st measure = Some st' →
  ∃ trebleElements trebleEnd bassElements bassEnd bar,
    createClefNotes (sizesOf height) TREBLE (trebleClef measure)
      (trebleMusic st) (trebleX st) originalKeyLetters
    = Some (trebleElements, trebleEnd)
    ∧ createClefNotes (sizesOf height) BASS (bassClef measure)
        (bassMusic st) (bassX st) originalKeyLetters
      = Some (bassElements, bassEnd)
    ∧ barLines st' = barLines st ++ [bar]
    ∧ bar_x bar = Qmax trebleEnd bassEnd
    ∧ trebleX st' = bar_x bar + 50
    ∧ bassX st' = bar_x bar + 50.
Proof.
  unfold measureStep.
  destruct (createClefNotes (sizesOf height) TREBLE _ _ _ _)
    as [[trebleElements trebleEnd] |]; cbn [mbind option_bind];
    [| discriminate].
  destruct (createClefNotes (sizesOf height) BASS _ _ _ _)
    as [[bassElements bassEnd] |]; cbn [mbind option_bind];
    [| discriminate].
  intros [= <-]. cbn [fst snd barLines trebleX bassX].
  eexists _, _, _, _, _. repeat split; reflexivity.
Qed.

Lemma measureStep_total (height : Q)
    (originalKeyLetters : gmap Letter Accidental) (st : StaffState)
    (measure : LabeledMusic) :
  wellFormedMeasure measure →
  is_Some (measureStep height originalKeyLetters st measure).
Proof.
  intros [Htreble Hbass]. unfold measureStep.
  destruct (createClefNotes_total (sizesOf height) TREBLE (trebleClef measure)
              (trebleMusic st) (trebleX st) originalKeyLetters Htreble)
    as [treble ->].
  destruct (createClefNotes_total (sizesOf height) BASS (bassClef measure)
              (bassMusic st) (bassX st) originalKeyLetters Hbass)
    as [bass ->].
  eexists. reflexivity.
Qed.

(** After any number of measures the two cursors are equal and there is
    one bar line per measure. *)
Lemma staffLoop_cursors (height : Q)
    (originalKeyLetters : gmap Letter Accidental) (music : list LabeledMusic) :
  ∀ st st',
    trebleX st = bassX st →
    forEachM (measureStep height originalKeyLetters) st music = Some st' →
    trebleX st' = bassX st'
    ∧ length (barLines st') = (length (barLines st) + length music)%nat.
Proof.
  induction music as [| measure music IH]; intros st st' Heq; simpl.
  - intros [= <-]. split; [exact Heq | lia].
  - destruct (measureStep height originalKeyLetters st measure)
      as [st1 |] eqn:Hstep; cbn [mbind option_bind]; [| discriminate].
    intros Hrest.
    destruct (measureStep_inv _ _ _ _ _ Hstep)
      as (? & ? & ? & ? & bar & _ & _ & Hbars & _ & Ht & Hb).
    destruct (IH st1 st') as [Hcur Hlen]; [congruence | exact Hrest |].
    split; [exact Hcur |].
    rewrite Hlen, Hbars, length_app. simpl. lia.
Qed.

(** C9: after a measure the bar line is at the maximum of the treble and
    bass cursors and both cursors are set to that position plus 50; so
    after every prefix of the music the two cursors are equal, with one bar
    line per measure; the layout returns for measures of non-empty
    chords. *)
Theorem bar_lines_reconcile_cursors (height : Q) :
  (∀ originalKeyLetters st measure st',
     measureStep height originalKeyLetters st measure = Some st' →
     ∃ trebleElements trebleEnd bassElements bassEnd bar,
       createClefNotes (sizesOf height) TREBLE (trebleClef measure)
         (trebleMusic st) (trebleX st) originalKeyLetters
       = Some (trebleElements, trebleEnd)
       ∧ createClefNotes (sizesOf height) BASS (bassClef measure)
           (bassMusic st) (bassX st) originalKeyLetters
         = Some (bassElements, bassEnd)
       ∧ barLines st' = barLines st ++ [bar]
       ∧ bar_x bar = Qmax trebleEnd bassEnd
       ∧ trebleEnd <= bar_x bar ∧ bassEnd <= bar_x bar
       ∧ trebleX st' = bar_x bar + 50
       ∧ bassX st' = bar_x bar + 50)
  ∧ (∀ noteLabelsInKey prefix rest st',
       GrandStaff height noteLabelsInKey (prefix ++ rest) = Some st' →
       ∃ st,
         GrandStaff height noteLabelsInKey prefix = Some st
         ∧ trebleX st = bassX st
         ∧ length (barLines st) = length prefix
         ∧ (prefix ≠ [] →
            ∃ bar, last (barLines st) = Some bar
                   ∧ trebleX st = bar_x bar + 50
                   ∧ bassX st = bar_x bar + 50))
  ∧ (∀ noteLabelsInKey music,
       Forall wellFormedMeasure music →
       is_Some (GrandStaff height noteLabelsInKey music)).
Proof.
  split; [| split].
  - intros key st measure st' Hstep.
    destruct (measureStep_inv _ _ _ _ _ Hstep)
      as (te & tx & be & bx & bar & Ht & Hb & Hbars & Hmax & Htx & Hbx).
    exists te, tx, be, bx, bar.
    repeat split; try assumption; rewrite Hmax.
    + apply Q.le_max_l.
    + apply Q.le_max_r.
  - intros labels prefix rest st'. unfold GrandStaff.
    rewrite forEachM_app.
    destruct (forEachM _ initialStaffState prefix) as [st |] eqn:Hprefix;
      cbn [mbind option_bind]; [| discriminate].
    intros _. exists st. split; [reflexivity |].
    destruct (staffLoop_cursors _ _ _ initialStaffState st eq_refl Hprefix)
      as [Hcur Hlen].
    split; [exact Hcur |]. split; [exact Hlen |].
    intros Hne.
    destruct (exists_last Hne) as (front & measure & ->).
    rewrite forEachM_app in Hprefix.
    destruct (forEachM _ initialStaffState front) as [mid |];
      cbn [mbind option_bind] in Hprefix; [| discriminate].
    cbn [forEachM] in Hprefix.
    destruct (measureStep height (keyLetters labels) mid measure)
      as [st1 |] eqn:Hstep; cbn [mbind option_bind] in Hprefix;
      [| discriminate].
    injection Hprefix as ->.
    destruct (measureStep_inv _ _ _ _ _ Hstep)
      as (? & ? & ? & ? & bar & _ & _ & Hbars & _ & Htx & Hbx).
    exists bar. rewrite Hbars, last_snoc. auto.
  - intros labels music Hmusic. unfold GrandStaff.
    destruct (forEachM_total (measureStep height (keyLetters labels))
                (λ _, True) wellFormedMeasure)
      with (l := music) (s := initialStaffState) as (st & Hst & _).
    + intros s measure _ Hwf.
      destruct (measureStep_total height (keyLetters labels) s measure Hwf)
        as [s' Hs']. exists s'. auto.
    + trivial.
    + exact Hmusic.
    + exists st. exact Hst.
Qed.

End LayoutProperties.

(** *** Staff positions and stems (SvgChord.tsx) *)

(** C5 (amended): for any clef and any octave value, the position of
    (C, FLAT) is that of (B, NATURAL) at the same octave plus 1, and the
    position of (B, SHARP) is that of (C, NATURAL) at the same octave
    minus 1; the heads are then half a staff line height apart. *)
Theorem octave_borderline_same_octave (clef : Clef) (octave : Z)
    (p1 p2 p3 p4 : Q) (v1 v2 v3 v4 : RhythmicValue) (staffLineHeight : Q) :
  let cFlat := sampleNote C FLAT octave p1 v1 in
  let bNatural := sampleNote B NATURAL octave p2 v2 in
  let bSharp := sampleNote B SHARP octave p3 v3 in
  let cNatural := sampleNote C NATURAL octave p4 v4 in
  basePosition cFlat clef = (basePosition bNatural clef + 1)%Z
  ∧ basePosition bSharp clef = (basePosition cNatural clef - 1)%Z
  ∧ getNoteY cFlat clef staffLineHeight
    == getNoteY bNatural clef staffLineHeight - staffLineHeight / 2
  ∧ getNoteY bSharp clef staffLineHeight
    == getNoteY cNatural clef staffLineHeight + staffLineHeight / 2.
Proof.
  intros cFlat bNatural bSharp cNatural.
  assert (H1 : basePosition cFlat clef = (basePosition bNatural clef + 1)%Z).
  { unfold basePosition, cFlat, bNatural, bSharp, cNatural, sampleNote.
    cbn [getLabel letter accidental getOctave].
    change (indexOf TREBLE_CLEF C) with 0%Z.
    change (indexOf TREBLE_CLEF B) with 6%Z.
    destruct clef; repeat case_decide;
      first [lia | exfalso; intuition congruence]. }
  assert (H2 : basePosition bSharp clef = (basePosition cNatural clef - 1)%Z).
  { unfold basePosition, cFlat, bNatural, bSharp, cNatural, sampleNote.
    cbn [getLabel letter accidental getOctave].
    change (indexOf TREBLE_CLEF C) with 0%Z.
    change (indexOf TREBLE_CLEF B) with 6%Z.
    destruct clef; repeat case_decide;
      first [lia | exfalso; intuition congruence]. }
  split; [exact H1 |]. split; [exact H2 |].
  unfold getNoteY. rewrite H1, H2. unfold Z.sub.
  rewrite !inject_Z_plus.
  change (inject_Z 1) with 1. change (inject_Z (- (1))) with (- (1)).
  generalize (inject_Z (basePosition bNatural clef)).
  generalize (inject_Z (basePosition cNatural clef)).
  intros c b. split; field.
Qed.

(** C5, as stated, fails: with octave values 4 and 3 the positions in the
    treble clef are 7 and -1, and -8 and 0. *)
Lemma octave_borderline_across_octaves_fails :
  basePosition (sampleNote C FLAT 4 59 QUARTER) TREBLE = 7%Z
  ∧ basePosition (sampleNote B NATURAL 3 59 QUARTER) TREBLE = (-1)%Z
  ∧ basePosition (sampleNote B SHARP 3 60 QUARTER) TREBLE = (-8)%Z
  ∧ basePosition (sampleNote C NATURAL 4 60 QUARTER) TREBLE = 0%Z
  ∧ ¬ (∀ clef,
         basePosition (sampleNote C FLAT 4 59 QUARTER) clef
         = (basePosition (sampleNote B NATURAL 3 59 QUARTER) clef + 1)%Z
         ∧ basePosition (sampleNote B SHARP 3 60 QUARTER) clef
           = (basePosition (sampleNote C NATURAL 4 60 QUARTER) clef - 1)%Z).
Proof.
  repeat split; try reflexivity.
  intros H. destruct (H TREBLE) as [H1 _]. vm_compute in H1. discriminate.
Qed.

(** What [SvgChord] does about the stem of one note. *)
Lemma stemsOf_SvgChord_note (props : SvgChordProps) (note : Note) :
  stemsOf (SvgChord_note props note)
  = if decide (rhythmicValue note ≠ WHOLE)
    then match createNoteStem (chord_x props)
                 (getNoteY note (chord_clef props)
                    (chord_staffLineHeight props))
                 (stemTo props) (chord_staffLineHeight props)
                 (chord_strokeWidth props) with
         | PStem stem => [stem]
         | _ => []
         end
    else [].
Proof.
  unfold SvgChord_note, stemsOf. simpl.
  destruct (decide (rhythmicValue note ≠ WHOLE)); simpl;
    destruct (getDisplayedAccidental (getLabel note) (accidentals props));
    reflexivity.
Qed.

(** A WHOLE note has no stem and any other note has exactly one; without
    [stemTo], a head with [y < 2 * staffLineHeight] gets a stem on its
    left that goes down by 3 staff line heights, and any other head a stem
    on its right that goes up by 3 staff line heights. *)
Lemma stem_rule (props : SvgChordProps) (note : Note) :
  let slh := chord_staffLineHeight props in
  let y := getNoteY note (chord_clef props) slh in
  (rhythmicValue note = WHOLE → stemsOf (SvgChord_note props note) = [])
  ∧ (rhythmicValue note ≠ WHOLE →
     ∃ stem, stemsOf (SvgChord_note props note) = [stem]
             ∧ stem_y1 stem = y
             ∧ (stemTo props = None →
                (y < 2 * slh →
                 stem_x1 stem = chord_x props - NOTE_WIDTH_RATIO * slh
                 ∧ stem_y2 stem = Fin (y + 3 * slh))
                ∧ (¬ y < 2 * slh →
                   stem_x1 stem = chord_x props + NOTE_WIDTH_RATIO * slh
                   ∧ stem_y2 stem = Fin (y - 3 * slh)))).
Proof.
  intros slh y. rewrite stemsOf_SvgChord_note. split.
  - intros Hwhole. rewrite decide_False; [reflexivity | tauto].
  - intros Hstem. rewrite decide_True by exact Hstem.
    unfold createNoteStem. fold slh. fold y.
    eexists. split; [reflexivity |]. cbn [stem_y1 stem_x1 stem_y2].
    split; [reflexivity |].
    intros ->. unfold pointsDown.
    destruct (Qle_bool (2 * slh) y) eqn:Hle; simpl.
    + apply Qle_bool_iff in Hle. split; [| auto].
      intros Hlt. exfalso. apply (Qlt_not_le _ _ Hlt Hle).
    + split; [auto |]. intros Hnlt. exfalso. apply Hnlt.
      apply Qnot_le_lt. intros H. apply Qle_bool_iff in H. congruence.
Qed.

(** C6, at the input on which the code departs from it: a note that is not
    WHOLE and lies on the middle staff line, where [y] is
    [2 * staffLineHeight], gets, without [stemTo], a stem on the right of
    the head that goes up by 3 staff line heights. *)
Theorem stem_on_middle_line_goes_up (props : SvgChordProps) (note : Note) :
  let slh := chord_staffLineHeight props in
  let y := getNoteY note (chord_clef props) slh in
  stemTo props = None →
  rhythmicValue note ≠ WHOLE →
  y == 2 * slh →
  ∃ stem,
    stemsOf (SvgChord_note props note) = [stem]
    ∧ stem_x1 stem = chord_x props + NOTE_WIDTH_RATIO * slh
    ∧ stem_y1 stem = y
    ∧ stem_y2 stem = Fin (y - 3 * slh).
Proof.
  intros slh y Hto Hstem Hy.
  destruct (stem_rule props note) as [_ Hrule].
  destruct (Hrule Hstem) as (stem & Hstems & Hy1 & Hside).
  destruct (Hside Hto) as [_ Hup].
  exists stem. split; [exact Hstems |].
  fold slh in Hup. fold y in Hup, Hy1.
  destruct Hup as [Hx Hy2].
  - rewrite Hy. apply Qlt_irrefl.
  - auto.
Qed.

(* ================================================================== *)
(** ** The properties on sample inputs *)
(* ================================================================== *)


Lemma fiveEighths_nonempty :
  Forall (λ chord : LabeledChord, chord ≠ []) fiveEighths.
Proof. repeat constructor; discriminate. Defined.

Lemma fiveEighths_close : pairwiseClose fiveEighths.
Proof.
  intros a b Ha Hb. unfold fiveEighths in Ha, Hb.
  rewrite !elem_of_cons, elem_of_nil in Ha, Hb.
  destruct Ha as [-> | [-> | [-> | [-> | [-> | []]]]]];
    destruct Hb as [-> | [-> | [-> | [-> | [-> | []]]]]];
    vm_compute; discriminate.
Defined.

(** C10 on five chords. *)
Lemma groupBeamGroups_partition_witness :
  Forall (λ chord : LabeledChord, chord ≠ []) fiveEighths
  ∧ is_Some (groupBeamGroups fiveEighths)
  ∧ concat [[[c4]; [cSharp4]; [d4]; [dSharp4]]; [[e4]]] = fiveEighths
  ∧ Forall (λ group : list LabeledChord, group ≠ [])
           [[[c4]; [cSharp4]; [d4]; [dSharp4]]; [[e4]]].
Proof.
  destruct (groupBeamGroups_partition (utilities := specUtilities))
    as (Hreturns & Hpartition & _).
  split; [exact fiveEighths_nonempty |].
  split; [apply Hreturns, fiveEighths_nonempty |].
  apply (Hpartition fiveEighths). vm_compute. reflexivity.
Defined.

(** C1 on five EIGHTH chords within an octave. *)
Lemma beam_groups_size_and_rhythm_witness :
  Forall eighthChord fiveEighths
  ∧ pairwiseClose fiveEighths
  ∧ groupBeamGroups fiveEighths
    = Some [[[c4]; [cSharp4]; [d4]; [dSharp4]]; [[e4]]].
Proof.
  destruct (beam_groups_size_and_rhythm (utilities := specUtilities))
    as (_ & _ & Hfive).
  assert (Heighth : Forall eighthChord fiveEighths)
    by (repeat constructor).
  split; [exact Heighth |]. split; [exact fiveEighths_close |].
  apply (Hfive [c4] [cSharp4] [d4] [dSharp4] [e4] Heighth fiveEighths_close).
Defined.

(** C7 on the chords of average pitch 60, 80 and 61. *)
Lemma join_requires_every_member_close_witness :
  Forall eighthChord threeEighths
  ∧ getAveragePitch [c4] == 60
  ∧ getAveragePitch [gSharp5] == 80
  ∧ getAveragePitch [cSharp4] == 61
  ∧ groupBeamGroups threeEighths = Some [[[c4]]; [[gSharp5]]; [[cSharp4]]].
Proof.
  destruct (join_requires_every_member_close (utilities := specUtilities))
    as (_ & _ & Hthree).
  assert (Heighth : Forall eighthChord threeEighths) by (repeat constructor).
  assert (H1 : getAveragePitch [c4] == 60) by reflexivity.
  assert (H2 : getAveragePitch [gSharp5] == 80) by reflexivity.
  assert (H3 : getAveragePitch [cSharp4] == 61) by reflexivity.
  repeat (split; [assumption |]).
  apply (Hthree [c4] [gSharp5] [cSharp4] Heighth H1 H2 H3).
Defined.

(** C2 on a rising pair of chords in the treble clef, whose average
    pitches 62 and 65 1/2 are added without rounding. *)
Lemma beam_side_and_clearance_witness :
  (2 ≤ length risingPair)%nat
  ∧ ∃ line,
      getBeamLine risingPair TREBLE 40 (125 / 2) 25 = Some line
      ∧ isAbove line = true
      ∧ xeq (getY line 40) (Fin (25 / 2)).
Proof.
  assert (Hlen : (2 ≤ length risingPair)%nat) by (simpl; lia).
  split; [exact Hlen |].
  destruct (beam_side_and_clearance (utilities := specUtilities)
              risingPair TREBLE 40 (125 / 2) 25 Hlen)
    as (line & Hline & _ & Hside & _).
  exists line. split; [exact Hline |].
  split.
  - apply Hside; [simpl; lia | | | reflexivity].
    + repeat constructor; discriminate.
    + right. repeat constructor.
      * exists 66571993088%Z. reflexivity.
      * exists 70330089472%Z. reflexivity.
  - vm_compute in Hline. injection Hline as <-. vm_compute. reflexivity.
Defined.

(** C2, as stated, fails: the triads C4 E4 G4, C5 D5 F5 and C5 D#5 F#5 form
    a beam group of the treble clef whose average pitches less 71 sum to
    [-2^-47] as doubles, and to 0 as exact means, in whichever order the
    triads come.  Accumulating in this order the code reaches 0 and puts
    the beam below, although the sum of the doubles is negative; with the
    last two triads exchanged it reaches [-2^-46] and puts the beam above,
    although the sum of the exact means is not negative. *)
Lemma beam_side_depends_on_chord_order :
  groupBeamGroups (utilities := doubleUtilities) threeTriads
  = Some [threeTriads]
  ∧ specPitchSum (utilities := doubleUtilities) threeTriads TREBLE
    == - (1 # 140737488355328)
  ∧ specPitchSum (utilities := doubleUtilities) threeTriadsExchanged TREBLE
    == - (1 # 140737488355328)
  ∧ specPitchSum (utilities := specUtilities) threeTriads TREBLE == 0
  ∧ specPitchSum (utilities := specUtilities) threeTriadsExchanged TREBLE
    == 0
  ∧ xeq (pitchDelta (utilities := doubleUtilities) threeTriads TREBLE)
        (Fin 0)
  ∧ xeq (pitchDelta (utilities := doubleUtilities) threeTriadsExchanged
           TREBLE)
        (Fin (- (1 # 70368744177664)))
  ∧ (∃ line,
       getBeamLine (utilities := doubleUtilities) threeTriads TREBLE 40
         (125 / 2) 25 = Some line
       ∧ isAbove line = false)
  ∧ (∃ line,
       getBeamLine (utilities := doubleUtilities) threeTriadsExchanged
         TREBLE 40 (125 / 2) 25 = Some line
       ∧ isAbove line = true)
  ∧ ¬ (∀ (utilities : Utilities) (beamGroup : list LabeledChord)
         (clef : Clef) (startingX noteWidth staffLineHeight : Q),
         (2 ≤ length beamGroup)%nat →
         ∃ line,
           getBeamLine beamGroup clef startingX noteWidth staffLineHeight
           = Some line
           ∧ (isAbove line = true ↔ specPitchSum beamGroup clef < 0))
  ∧ ¬ (∀ (beamGroup : list LabeledChord) (clef : Clef)
         (startingX noteWidth staffLineHeight : Q),
         (2 ≤ length beamGroup)%nat →
         ∃ line,
           getBeamLine (utilities := doubleUtilities) beamGroup clef
             startingX noteWidth staffLineHeight
           = Some line
           ∧ (isAbove line = true
              ↔ specPitchSum (utilities := specUtilities) beamGroup clef
                < 0)).
Proof.
  assert (Hbelow : shouldBeAbove (utilities := doubleUtilities) threeTriads
                     TREBLE = false) by (vm_compute; reflexivity).
  assert (Habove : shouldBeAbove (utilities := doubleUtilities)
                     threeTriadsExchanged TREBLE = true)
    by (vm_compute; reflexivity).
  assert (Hsum : specPitchSum (utilities := doubleUtilities) threeTriads
                   TREBLE == - (1 # 140737488355328))
    by (vm_compute; reflexivity).
  assert (Hmeans : specPitchSum (utilities := specUtilities)
                     threeTriadsExchanged TREBLE == 0)
    by (vm_compute; reflexivity).
  split; [vm_compute; reflexivity |].
  split; [exact Hsum |].
  split; [vm_compute; reflexivity |].
  split; [vm_compute; reflexivity |].
  split; [exact Hmeans |].
  split; [vm_compute; reflexivity |].
  split; [vm_compute; reflexivity |].
  split; [eexists; split; [reflexivity | exact Hbelow] |].
  split; [eexists; split; [reflexivity | exact Habove] |].
  split.
  - intros Hclaim.
    destruct (Hclaim doubleUtilities threeTriads TREBLE 40 (125 / 2) 25)
      as (line & Hline & Hside); [simpl; lia |].
    rewrite (getBeamLine_side _ _ _ _ _ _ Hline), Hbelow, Hsum in Hside.
    assert (Habsurd : false = true) by (apply Hside; reflexivity).
    discriminate Habsurd.
  - intros Hclaim.
    destruct (Hclaim threeTriadsExchanged TREBLE 40 (125 / 2) 25)
      as (line & Hline & Hside); [simpl; lia |].
    rewrite (getBeamLine_side _ _ _ _ _ _ Hline), Habove, Hmeans in Hside.
    assert (Habsurd : 0 < 0) by (apply Hside; reflexivity).
    discriminate Habsurd.
Qed.


(** C3 on a chord with F natural and F sharp, in G major. *)
Lemma chord_compared_against_state_before_witness :
  ∃ st',
    chordStep sampleSizes TREBLE None sampleState [fNatural4; fSharp4]
    = Some st'
    ∧ accidentalState st' !! F = Some NATURAL.
Proof.
  destruct (chordStep sampleSizes TREBLE None sampleState
              [fNatural4; fSharp4]) as [st' |] eqn:Hstep;
    [| vm_compute in Hstep; discriminate].
  exists st'. split; [reflexivity |].
  destruct (chord_compared_against_state_before _ _ _ _ _ _ Hstep)
    as (_ & _ & Hlookup).
  rewrite Hlookup. vm_compute. reflexivity.
Defined.

(** C3, as stated, fails: in G major the chord F natural, F sharp leaves
    NATURAL for F, although its last note with letter F has SHARP. *)
Lemma last_note_of_letter_can_lose :
  ¬ (∀ (sizes : SizingData) (clef : Clef) (beamLine : option BeamLine)
       (st st' : ClefState) (noteGroup : list Note) (l : Letter)
       (n1 n2 nLast : Note),
       chordStep sizes clef beamLine st noteGroup = Some st' →
       n1 ∈ noteGroup → n2 ∈ noteGroup →
       letter (getLabel n1) = l → letter (getLabel n2) = l →
       accidental (getLabel n1) ≠ accidental (getLabel n2) →
       last (filter (λ note, letter (getLabel note) = l) noteGroup)
       = Some nLast →
       accidentalState st' !! l = Some (accidental (getLabel nLast))).
Proof.
  intros Hclaim.
  destruct (chordStep sampleSizes TREBLE None sampleState
              [fNatural4; fSharp4]) as [st' |] eqn:Hstep;
    [| vm_compute in Hstep; discriminate].
  assert (Hpost : accidentalState st' !! F = Some NATURAL).
  { vm_compute in Hstep. injection Hstep as <-. vm_compute. reflexivity. }
  specialize (Hclaim sampleSizes TREBLE None sampleState st'
                [fNatural4; fSharp4] F fNatural4 fSharp4 fSharp4 Hstep).
  rewrite Hpost in Hclaim.
  assert (Habsurd : Some NATURAL = Some (accidental (getLabel fSharp4))).
  { apply Hclaim; try reflexivity.
    - constructor.
    - constructor. constructor.
    - discriminate. }
  discriminate Habsurd.
Qed.

(** C4 in G major. *)
Lemma f_sharp_then_naturals_witness :
  gMajorLetters !! F = Some SHARP
  ∧ ∃ elements' x',
      createClefNotes sampleSizes TREBLE [[fSharp4]; [fNatural4]; [fNatural4]]
        [] 40 gMajorLetters = Some (elements', x')
      ∧ map (λ props, glyphsOf (SvgChord props)) (chordPropsOf elements')
        = [[]; [NATURAL]; []].
Proof.
  assert (Hkey : gMajorLetters !! F = Some SHARP) by (vm_compute; reflexivity).
  split; [exact Hkey |].
  destruct (f_sharp_then_naturals (utilities := specUtilities) sampleSizes
              TREBLE fSharp4 fNatural4 fNatural4 [] 40 gMajorLetters Hkey
              eq_refl eq_refl eq_refl)
    as (elements' & x' & p1 & p2 & p3 & Hrun & Hprops & _ & Hglyphs).
  exists elements', x'. split; [exact Hrun |].
  rewrite Hprops. exact Hglyphs.
Defined.

(** C9 on two measures. *)
Lemma bar_lines_reconcile_cursors_witness :
  Forall wellFormedMeasure sampleMusic
  ∧ ∃ st,
      GrandStaff 500 gMajorLabels sampleMusic = Some st
      ∧ trebleX st = bassX st
      ∧ length (barLines st) = 2%nat.
Proof.
  destruct (bar_lines_reconcile_cursors (utilities := specUtilities) 500)
    as (_ & Hprefix & Hreturns).
  assert (Hwf : Forall wellFormedMeasure sampleMusic).
  { repeat constructor; discriminate. }
  split; [exact Hwf |].
  destruct (Hreturns gMajorLabels sampleMusic Hwf) as [st' Hrun].
  destruct (Hprefix gMajorLabels sampleMusic [] st')
    as (st & Hst & Hcursors & Hbars & _).
  { rewrite app_nil_r. exact Hrun. }
  exists st. split; [exact Hst |]. split; [exact Hcursors | exact Hbars].
Defined.

(** C6 on the B of the middle line of the treble staff. *)
Lemma stem_on_middle_line_goes_up_witness :
  let props :=
    {| chord_clef := TREBLE; chord_x := 100; chord_staffLineHeight := 25;
       chord_strokeWidth := 1; labeledNoteGroup := [b4];
       accidentals := gMajorLetters; stemTo := None |} in
  basePosition b4 TREBLE = 6%Z
  ∧ getNoteY b4 TREBLE 25 == 2 * 25
  ∧ ∃ stem,
      stemsOf (SvgChord props) = [stem]
      ∧ stem_x1 stem == 100 + NOTE_WIDTH_RATIO * 25
      ∧ xeq (stem_y2 stem) (Fin (-25)).
Proof.
  intros props.
  assert (Hy : getNoteY b4 TREBLE 25 == 2 * 25) by reflexivity.
  split; [reflexivity |]. split; [exact Hy |].
  destruct (stem_on_middle_line_goes_up props b4 eq_refl) as
    (stem & Hstems & Hx & _ & Hy2).
  - discriminate.
  - exact Hy.
  - exists stem. split; [| split].
    + unfold SvgChord. cbn [labeledNoteGroup props map concat].
      rewrite app_nil_r. exact Hstems.
    + rewrite Hx. reflexivity.
    + rewrite Hy2. reflexivity.
Defined.

(* ================================================================== *)
(** ** Further properties of the layout code *)
(* ================================================================== *)

(** *** Lemmas on lists and loops *)

(** A property of neighbours survives a push when the last element is
    related to the pushed one. *)
Lemma neighbours_snoc {X : Type} (R : X → X → Prop) (l : list X) (x : X) :
  (∀ pre a b post, l = pre ++ a :: b :: post → R a b) →
  (∀ y, last l = Some y → R y x) →
  ∀ pre a b post, l ++ [x] = pre ++ a :: b :: post → R a b.
Proof.
  intros Hl Hlast pre a b post Heq.
  destruct post as [| z post _] using rev_ind.
  - change (pre ++ [a; b]) with (pre ++ [a] ++ [b]) in Heq.
    rewrite app_assoc in Heq. apply app_inj_tail in Heq as [-> ->].
    apply Hlast, last_snoc.
  - change (pre ++ a :: b :: post ++ [z])
      with (pre ++ (a :: b :: post) ++ [z]) in Heq.
    rewrite app_assoc in Heq. apply app_inj_tail in Heq as [-> _].
    eapply Hl. reflexivity.
Qed.

(** It survives a change of the last element that keeps what the
    elements before it are related to. *)
Lemma neighbours_replace_last {X : Type} (R : X → X → Prop) (init : list X)
    (y y' : X) :
  (∀ a, R a y → R a y') →
  (∀ pre a b post, init ++ [y] = pre ++ a :: b :: post → R a b) →
  ∀ pre a b post, init ++ [y'] = pre ++ a :: b :: post → R a b.
Proof.
  intros Hkeep Hl pre a b post Heq.
  destruct post as [| z post _] using rev_ind.
  - change (pre ++ [a; b]) with (pre ++ [a] ++ [b]) in Heq.
    rewrite app_assoc in Heq. apply app_inj_tail in Heq as [-> <-].
    apply Hkeep. apply (Hl pre a y []).
    rewrite <- app_assoc. reflexivity.
  - change (pre ++ a :: b :: post ++ [z])
      with (pre ++ (a :: b :: post) ++ [z]) in Heq.
    rewrite app_assoc in Heq. apply app_inj_tail in Heq as [-> _].
    apply (Hl pre a b (post ++ [y])).
    rewrite <- app_assoc. reflexivity.
Qed.

(** A loop that returns has run its body, without exception, on every
    element. *)
Lemma forEachM_Some_Forall {S X : Type} (body : S → X → option S)
    (P : X → Prop) :
  (∀ s x, is_Some (body s x) → P x) →
  ∀ l s, is_Some (forEachM body s l) → Forall P l.
Proof.
  intros Hbody. induction l as [| x l IH]; intros s Hrun; [constructor |].
  simpl in Hrun. destruct (body s x) as [s' |] eqn:Hx.
  - constructor; [apply (Hbody s x); rewrite Hx; eexists; reflexivity |].
    apply (IH s' Hrun).
  - destruct Hrun as [? Hrun]. discriminate Hrun.
Qed.

Lemma Forall_concat_all {X : Type} (P : X → Prop) (ls : list (list X)) :
  Forall (Forall P) ls → Forall P (concat ls).
Proof.
  induction 1 as [| l ls Hl _ IH]; simpl; [constructor |].
  apply Forall_app. split; assumption.
Qed.

Lemma xmin_le_l (x y : xnum) : xle (xmin x y) x.
Proof.
  unfold xmin. destruct (xltb y x) eqn:H;
    [apply xltb_true_le, H | apply xle_refl].
Qed.

Lemma xmin_le_r (x y : xnum) : xle (xmin x y) y.
Proof.
  unfold xmin. destruct (xltb y x) eqn:H;
    [apply xle_refl | apply xltb_false_le, H].
Qed.

Lemma xmax_ge_l (x y : xnum) : xle x (xmax x y).
Proof.
  unfold xmax. destruct (xltb x y) eqn:H;
    [apply xltb_true_le, H | apply xle_refl].
Qed.

Lemma xmax_ge_r (x y : xnum) : xle y (xmax x y).
Proof.
  unfold xmax. destruct (xltb x y) eqn:H;
    [apply xle_refl | apply xltb_false_le, H].
Qed.

(** [Math.min(...l)] is at most, and [Math.max(...l)] at least, every
    element of [l]. *)
Lemma Math_min_le (l : list Q) (y : Q) : In y l → xle (Math_min l) (Fin y).
Proof.
  induction l as [| q l IH]; simpl; [tauto |].
  intros [-> | Hin].
  - apply xmin_le_l.
  - eapply xle_trans; [apply xmin_le_r | apply IH, Hin].
Qed.

Lemma Math_max_ge (l : list Q) (y : Q) : In y l → xle (Fin y) (Math_max l).
Proof.
  induction l as [| q l IH]; simpl; [tauto |].
  intros [-> | Hin].
  - apply xmax_ge_l.
  - eapply xle_trans; [apply IH, Hin | apply xmax_ge_r].
Qed.

Lemma xltb_below (y s : Q) (b : xnum) :
  0 < s → xle b (Fin (y - 2 * s)) → xltb (Fin y) b = false.
Proof.
  intros Hs. unfold xle. destruct b as [| q |]; simpl; try congruence.
  rewrite Qle_bool_iff. intros Hq. rewrite negb_false_iff.
  apply Qle_bool_iff. lra.
Qed.

Lemma xltb_above (y s : Q) (b : xnum) :
  0 < s → xle (Fin (y + 2 * s)) b → xltb (Fin y) b = true.
Proof.
  intros Hs. unfold xle. destruct b as [| q |]; simpl; try congruence.
  rewrite Qle_bool_iff. intros Hq. rewrite negb_true_iff.
  destruct (Qle_bool q y) eqn:Hle; [| reflexivity].
  apply Qle_bool_iff in Hle. lra.
Qed.

(** *** The accidental state *)

(** Without a note that differs from the entry of [l], the entry is
    kept. *)
Lemma writers_none (accidentals : gmap Letter Accidental) (l : Letter)
    (noteGroup : list Note) :
  (∀ note, note ∈ noteGroup → letter (getLabel note) = l →
           accidentals !! l = Some (accidental (getLabel note))) →
  writers accidentals l noteGroup = [].
Proof.
  unfold writers. induction noteGroup as [| note noteGroup IH]; intros Hall;
    [reflexivity |].
  rewrite filter_cons, decide_False.
  - apply IH. intros n Hn. apply Hall. right. exact Hn.
  - intros [Hl Hdiff]. apply Hdiff, Hall; [left |]; auto.
Qed.

(** X9: a chord changes the entry of a letter only through a note of that
    letter whose accidental differs from the entry: the letters that the
    chord does not use, and those whose notes all carry the accidental in
    force, keep their entry. *)
Theorem accidentals_kept (accidentals : gmap Letter Accidental) (l : Letter)
    (noteGroup : list Note) :
  (∀ note, note ∈ noteGroup → letter (getLabel note) = l →
           accidentals !! l = Some (accidental (getLabel note))) →
  getDisplayedAccidentals noteGroup accidentals !! l = None
  ∧ nextAccidentals noteGroup accidentals !! l = accidentals !! l.
Proof.
  intros Hall. split.
  - unfold getDisplayedAccidentals.
    rewrite displayed_lookup, (writers_none _ _ _ Hall). apply lookup_empty.
  - rewrite nextAccidentals_lookup, (writers_none _ _ _ Hall). reflexivity.
Qed.

Lemma writers_unique (accidentals : gmap Letter Accidental)
    (noteGroup : list Note) (note : Note) :
  NoDup (map (λ n, letter (getLabel n)) noteGroup) →
  note ∈ noteGroup →
  writers accidentals (letter (getLabel note)) noteGroup
  = if decide (accidentals !! letter (getLabel note)
               = Some (accidental (getLabel note)))
    then []
    else [note].
Proof.
  unfold writers.
  induction noteGroup as [| n noteGroup IH]; intros Hnodup Hin.
  - apply elem_of_nil in Hin. contradiction.
  - simpl in Hnodup. apply NoDup_cons in Hnodup as [Hfresh Hnodup].
    rewrite filter_cons. apply elem_of_cons in Hin as [<- | Hin].
    + assert (Hrest : filter (λ n0, letter (getLabel n0) = letter (getLabel note)
                                   ∧ accidentals !! letter (getLabel note)
                                     ≠ Some (accidental (getLabel n0)))
                             noteGroup = []).
      { clear -Hfresh. induction noteGroup as [| m noteGroup IH];
          [reflexivity |].
        rewrite filter_cons, decide_False.
        - apply IH. intros Hin. apply Hfresh. right. exact Hin.
        - intros [Hl _]. apply Hfresh. rewrite <- Hl. left. }
      rewrite Hrest.
      destruct (decide (accidentals !! letter (getLabel note)
                        = Some (accidental (getLabel note)))).
      * rewrite decide_False by tauto. reflexivity.
      * rewrite decide_True by tauto. reflexivity.
    + rewrite decide_False; [apply IH; assumption |].
      intros [Hl _]. apply Hfresh. rewrite Hl.
      apply list_elem_of_In.
      apply (in_map (λ n0, letter (getLabel n0))), list_elem_of_In, Hin.
Qed.

(** X10: after a chord whose notes have pairwise different letters, the
    entry of each of its notes is the accidental of that note; so the same
    chord, played again at once, writes nothing and leaves the state as it
    is. *)
Theorem chord_then_same_chord (accidentals : gmap Letter Accidental)
    (noteGroup : list Note) :
  NoDup (map (λ n, letter (getLabel n)) noteGroup) →
  let after := nextAccidentals noteGroup accidentals in
  (∀ note, note ∈ noteGroup →
           after !! letter (getLabel note)
           = Some (accidental (getLabel note)))
  ∧ getDisplayedAccidentals noteGroup after = ∅
  ∧ nextAccidentals noteGroup after = after.
Proof.
  intros Hnodup after.
  assert (Hnotes : ∀ note, note ∈ noteGroup →
                           after !! letter (getLabel note)
                           = Some (accidental (getLabel note))).
  { intros note Hin. unfold after.
    rewrite nextAccidentals_lookup, (writers_unique _ _ _ Hnodup Hin).
    destruct (decide (accidentals !! letter (getLabel note)
                      = Some (accidental (getLabel note)))) as [Heq | _];
      [exact Heq | reflexivity]. }
  assert (Hquiet : ∀ l note, note ∈ noteGroup → letter (getLabel note) = l →
                             after !! l = Some (accidental (getLabel note))).
  { intros l note Hin <-. apply Hnotes, Hin. }
  split; [exact Hnotes |]. split.
  - apply map_eq. intros l. rewrite lookup_empty.
    unfold getDisplayedAccidentals.
    rewrite displayed_lookup, (writers_none _ _ _ (Hquiet l)).
    apply lookup_empty.
  - apply map_eq. intros l.
    rewrite nextAccidentals_lookup, (writers_none _ _ _ (Hquiet l)).
    reflexivity.
Qed.

(** X11: the key map gives, for a letter, the accidental of the last label
    of [getNoteLabelsInKey()] with that letter, and nothing for a letter
    without a label; a [null] label is skipped. *)
Theorem keyLetters_lookup (noteLabelsInKey : list (option NoteLabel))
    (l : Letter) :
  keyLetters noteLabelsInKey !! l
  = accidental
    <$> last (filter (λ label, letter label = l) (omap id noteLabelsInKey)).
Proof.
  unfold keyLetters.
  induction noteLabelsInKey as [| label labels IH] using rev_ind;
    [reflexivity |].
  rewrite foldl_app, omap_app, filter_app. simpl.
  destruct label as [label |]; simpl.
  - rewrite filter_cons, filter_nil.
    destruct (decide (letter label = l)) as [<- | Hne].
    + rewrite last_snoc. apply lookup_insert_eq.
    + rewrite app_nil_r, lookup_insert_ne by exact Hne. exact IH.
  - rewrite filter_nil, app_nil_r. exact IH.
Qed.

Section MoreLayoutProperties.

Context {utilities : Utilities}.

(** *** The beam grouper: groups are as long as the rules allow *)

Lemma groupStep_reason (beamGroups beamGroups' : list (list LabeledChord))
    (chord : LabeledChord) :
  Forall (λ group, group ≠ []) beamGroups →
  groupStep beamGroups chord = Some beamGroups' →
  (beamGroups' = beamGroups ++ [[chord]]
   ∧ ∀ latest, last beamGroups = Some latest → cannotJoin latest chord)
  ∨ ∃ init first rest,
      beamGroups = init ++ [first :: rest]
      ∧ beamGroups' = init ++ [(first :: rest) ++ [chord]].
Proof.
  intros Hne. unfold groupStep.
  destruct (unsnoc beamGroups) as [[init latest] |] eqn:Hu.
  - apply unsnoc_Some in Hu. subst beamGroups.
    assert (Hlast : ∀ l, last (init ++ [latest]) = Some l → l = latest).
    { intros l. rewrite last_snoc. congruence. }
    destruct latest as [| first rest].
    { apply Forall_app in Hne as [_ Hne].
      rewrite Forall_singleton in Hne. congruence. }
    destruct (Nat.leb_spec 4 (length (first :: rest))) as [Hfull | Hroom].
    { intros [= <-]. left. split; [reflexivity |].
      intros l Hl. rewrite (Hlast l Hl). left. exact Hfull. }
    destruct (isEighth chord) as [[] |] eqn:He; cbn [mbind option_bind negb];
      [| intros [= <-]; left; split; [reflexivity |];
         intros l Hl; rewrite (Hlast l Hl); right; left; exact He
       | discriminate].
    destruct (isEighth first) as [[] |] eqn:He0; cbn [mbind option_bind negb];
      [| intros [= <-]; left; split; [reflexivity |];
         intros l Hl; rewrite (Hlast l Hl); right; right; left;
         exists first; split; [reflexivity | exact He0]
       | discriminate].
    destruct (closeEnough (first :: rest) chord) eqn:Hc; intros [= <-].
    + right. exists init, first, rest. split; reflexivity.
    + left. split; [reflexivity |].
      intros l Hl. rewrite (Hlast l Hl). right. right. right.
      intros Hall. apply closeEnough_spec in Hall. congruence.
  - apply unsnoc_None in Hu. subst beamGroups. intros [= <-]. left.
    split; [reflexivity | discriminate].
Qed.

(** X1: the groups are maximal.  Whenever a group is followed by another
    one, the first chord of the second could not join the first group: the
    first group has 4 chords, or that chord is not EIGHTH, or the first chord
    of the group is not EIGHTH, or some chord of the group is more than 12
    semitones away from it. *)
Theorem beam_groups_are_maximal (measure : list LabeledChord)
    (groups : list (list LabeledChord)) :
  groupBeamGroups measure = Some groups →
  ∀ pre group next post,
    groups = pre ++ group :: next :: post →
    ∃ chord rest, next = chord :: rest ∧ cannotJoin group chord.
Proof.
  intros Hrun.
  set (R := λ group next : list LabeledChord,
              ∃ chord rest, next = chord :: rest ∧ cannotJoin group chord).
  assert (Hinv :
    (Forall goodGroup groups ∧ concat groups = [] ++ measure)
    ∧ ∀ pre a b post, groups = pre ++ a :: b :: post → R a b).
  { apply (forEachM_invariant groupStep
             (λ bg done,
                (Forall goodGroup bg ∧ concat bg = done)
                ∧ ∀ pre a b post, bg = pre ++ a :: b :: post → R a b)
             measure) with (s := []); [| | exact Hrun].
    - intros bg done chord bg' [Hgood Hsep] Hstep.
      split; [eapply groupStep_invariant; eassumption |].
      destruct Hgood as [Hgood _]. apply goodGroup_nonempty in Hgood.
      destruct (groupStep_reason _ _ _ Hgood Hstep)
        as [[-> Hwhy] | (init & first & rest & -> & ->)].
      + apply neighbours_snoc; [exact Hsep |].
        intros latest Hlatest. exists chord, []. split; [reflexivity |].
        apply Hwhy, Hlatest.
      + eapply neighbours_replace_last; [| exact Hsep].
        intros a (c & r & Heq & Hwhy). injection Heq as <- <-.
        exists first, (rest ++ [chord]). split; [reflexivity | exact Hwhy].
    - split; [split; [constructor | reflexivity] |].
      intros pre a b post Heq. destruct pre; discriminate. }
  destruct Hinv as [_ Hsep]. exact Hsep.
Qed.

(** *** [createClefNotes] throws exactly on an empty chord *)

Lemma chordStep_Some_nonempty (sizes : SizingData) (clef : Clef)
    (beamLine : option BeamLine) (st : ClefState) (noteGroup : list Note) :
  is_Some (chordStep sizes clef beamLine st noteGroup) → noteGroup ≠ [].
Proof.
  intros [st' Hstep] ->. unfold chordStep in Hstep. discriminate Hstep.
Qed.

Lemma beamGroupStep_Some_nonempty (sizes : SizingData) (clef : Clef)
    (st : ClefState) (beamGroup : list LabeledChord) :
  is_Some (beamGroupStep sizes clef st beamGroup) →
  Forall (λ chord, chord ≠ []) beamGroup.
Proof.
  intros [st' Hstep]. unfold beamGroupStep in Hstep.
  destruct (head beamGroup) as [firstChord |];
    cbn [mbind option_bind] in Hstep; [| discriminate].
  destruct (firstRhythmicValue firstChord) as [rv |];
    cbn [mbind option_bind] in Hstep; [| discriminate].
  match type of Hstep with
  | context [forEachM ?body ?st0 beamGroup] =>
      destruct (forEachM body st0 beamGroup) as [st1 |] eqn:Hloop;
        cbn [mbind option_bind] in Hstep; [| discriminate];
        apply (forEachM_Some_Forall body (λ chord, chord ≠ [])
                 (λ s x, chordStep_Some_nonempty _ _ _ s x) beamGroup st0)
  end.
  rewrite Hloop. eexists. reflexivity.
Qed.

(** X2: [createClefNotes] returns exactly on the measures without an empty
    chord, although [groupBeamGroups] alone never looks at the first chord
    and returns on the measure of one empty chord. *)
Theorem createClefNotes_returns_iff (sizes : SizingData) (clef : Clef)
    (measureClef : list (list Note)) (elements : list Element) (x : Q)
    (originalKeyLetters : gmap Letter Accidental) :
  (is_Some (createClefNotes sizes clef measureClef elements x
              originalKeyLetters)
   ↔ Forall (λ chord, chord ≠ []) measureClef)
  ∧ groupBeamGroups [[]] = Some [[[]]].
Proof.
  split; [| reflexivity]. split; [| apply createClefNotes_total].
  intros [[elements' x'] Hrun]. unfold createClefNotes in Hrun.
  destruct (groupBeamGroups measureClef) as [groups |] eqn:Hgroups;
    cbn [mbind option_bind] in Hrun; [| discriminate].
  apply groupBeamGroups_invariant in Hgroups as [_ <-].
  apply Forall_concat_all.
  match type of Hrun with
  | context [forEachM ?body ?st0 groups] =>
      destruct (forEachM body st0 groups) as [st1 |] eqn:Hloop;
        cbn [mbind option_bind] in Hrun; [| discriminate];
        apply (forEachM_Some_Forall body (Forall (λ chord, chord ≠ []))
                 (λ s g, beamGroupStep_Some_nonempty _ _ s g) groups st0)
  end.
  rewrite Hloop. eexists. reflexivity.
Qed.

(** *** What [createClefNotes] lays out *)

Lemma chordStep_exact (sizes : SizingData) (clef : Clef)
    (beamLine : option BeamLine) (st st' : ClefState) (noteGroup : list Note) :
  chordStep sizes clef beamLine st noteGroup = Some st' →
  st' = {| elementsToDisplay :=
             elementsToDisplay st
             ++ [createSvgChord sizes noteGroup (currentX st) clef
                   (accidentalState st)
                   (option_map (λ line, getY line (currentX st)) beamLine)];
           currentX := advance sizes (currentX st) noteGroup;
           accidentalState := nextAccidentals noteGroup (accidentalState st);
           beamStopX := currentX st |}.
Proof.
  unfold chordStep. destruct noteGroup as [| n noteGroup];
    cbn [firstRhythmicValue mbind option_bind]; [discriminate |].
  intros [= <-]. destruct beamLine; reflexivity.
Qed.

Lemma placeChords_app (sizes : SizingData) (x : Q)
    (chords1 chords2 : list (list Note)) :
  placeChords sizes x (chords1 ++ chords2)
  = placeChords sizes x chords1
    ++ placeChords sizes (cursorAfter sizes x chords1) chords2.
Proof.
  revert x. induction chords1 as [| chord chords1 IH]; intros x; simpl.
  - reflexivity.
  - rewrite IH. reflexivity.
Qed.

Lemma chordLoop_layout (sizes : SizingData) (clef : Clef)
    (beamLine : option BeamLine) (chords : list (list Note)) :
  ∀ st st',
    forEachM (chordStep sizes clef beamLine) st chords = Some st' →
    ∃ newProps,
      elementsToDisplay st'
      = elementsToDisplay st ++ map ChordElement newProps
      ∧ map placed newProps = placeChords sizes (currentX st) chords
      ∧ Forall (chordPropsOk sizes clef beamLine) newProps
      ∧ currentX st' = cursorAfter sizes (currentX st) chords
      ∧ beamStopX st'
        = match last newProps with
          | Some props => chord_x props
          | None => beamStopX st
          end.
Proof.
  induction chords as [| chord chords IH]; intros st st'; simpl.
  - intros [= <-]. exists []. simpl. rewrite app_nil_r.
    repeat split; constructor.
  - destruct (chordStep sizes clef beamLine st chord) as [st1 |] eqn:Hstep;
      cbn [mbind option_bind]; [| discriminate].
    intros Hrest. apply chordStep_exact in Hstep. subst st1.
    destruct (IH _ _ Hrest) as (newProps & Hels & Hplaced & Hok & Hx & Hstop).
    cbn [elementsToDisplay currentX beamStopX] in Hels, Hplaced, Hx, Hstop.
    unfold createSvgChord in Hels.
    eexists (_ :: newProps). split; [| split; [| split; [| split]]].
    + rewrite Hels, <- app_assoc. reflexivity.
    + simpl. rewrite Hplaced. reflexivity.
    + constructor; [| exact Hok]. repeat split.
    + exact Hx.
    + rewrite Hstop. destruct newProps as [| p ps]; [reflexivity |].
      rewrite !last_cons. destruct (last ps); reflexivity.
Qed.

Lemma beamGroupStep_exact (sizes : SizingData) (clef : Clef)
    (st st' : ClefState) (beamGroup : list LabeledChord) :
  beamGroupStep sizes clef st beamGroup = Some st' →
  let beamLine := groupBeamLine sizes clef (currentX st) beamGroup in
  ∃ st1,
    forEachM (chordStep sizes clef beamLine)
      {| elementsToDisplay := elementsToDisplay st;
         currentX := currentX st;
         accidentalState := accidentalState st;
         beamStopX := currentX st |} beamGroup = Some st1
    ∧ currentX st' = currentX st1
    ∧ elementsToDisplay st'
      = elementsToDisplay st1
        ++ match beamLine with
           | Some line =>
               [createSvgBeam sizes (getY line)
                  (currentX st + noteHeadShift sizes line)
                  (beamStopX st1 + noteHeadShift sizes line)]
           | None => []
           end.
Proof.
  unfold beamGroupStep, groupBeamLine, beamNoteWidth.
  destruct beamGroup as [| [| n firstChord] rest];
    cbn [head firstRhythmicValue mbind option_bind]; try discriminate.
  set (beamLine := getBeamLine _ _ _ _ _).
  match goal with
  | |- context [forEachM ?body ?st0 ?l] =>
      destruct (forEachM body st0 l) as [st1 |] eqn:Hloop
  end; cbn [mbind option_bind]; [| discriminate].
  intros Hst'. exists st1. split; [reflexivity |].
  destruct beamLine as [found |]; injection Hst' as <-;
    cbn [currentX elementsToDisplay].
  - split; [reflexivity |]. unfold noteHeadShift.
    destruct (isAbove found); reflexivity.
  - split; [reflexivity |]. rewrite app_nil_r. reflexivity.
Qed.

Lemma getBeamLine_is_Some (beamGroup : list LabeledChord) (clef : Clef)
    (startingX noteWidth staffLineHeight : Q) :
  is_Some (getBeamLine beamGroup clef startingX noteWidth staffLineHeight)
  ↔ (2 ≤ length beamGroup)%nat.
Proof.
  unfold getBeamLine.
  destruct (Nat.leb_spec (length beamGroup) 1) as [Hshort | Hlong].
  - split; [intros [? H]; discriminate H | lia].
  - split; [lia | intros _; eexists; reflexivity].
Qed.

Lemma beamGroupStep_layout (sizes : SizingData) (clef : Clef)
    (st st' : ClefState) (beamGroup : list LabeledChord) :
  beamGroupStep sizes clef st beamGroup = Some st' →
  let beamLine := groupBeamLine sizes clef (currentX st) beamGroup in
  ∃ newProps beams,
    elementsToDisplay st'
    = elementsToDisplay st ++ map ChordElement newProps
      ++ map BeamElement beams
    ∧ map placed newProps = placeChords sizes (currentX st) beamGroup
    ∧ Forall (chordPropsOk sizes clef beamLine) newProps
    ∧ currentX st' = cursorAfter sizes (currentX st) beamGroup
    ∧ length beams
      = (if decide (2 ≤ length beamGroup)%nat then 1 else 0)%nat
    ∧ ((length beamGroup ≤ 1)%nat → beamLine = None).
Proof.
  intros Hstep beamLine.
  destruct (beamGroupStep_exact _ _ _ _ _ Hstep) as (st1 & Hloop & Hx & Hels).
  fold beamLine in Hloop, Hels.
  destruct (chordLoop_layout _ _ _ _ _ _ Hloop)
    as (newProps & Hels1 & Hplaced & Hok & Hx1 & _).
  cbn [elementsToDisplay currentX] in Hels1, Hplaced, Hx1.
  pose proof (getBeamLine_is_Some beamGroup clef (currentX st)
                (beamNoteWidth sizes beamGroup) (staffLineHeight sizes))
    as Hsome.
  fold (groupBeamLine sizes clef (currentX st) beamGroup) in Hsome.
  fold beamLine in Hsome.
  exists newProps.
  destruct beamLine as [line |].
  - assert (Hlen : (2 ≤ length beamGroup)%nat).
    { apply Hsome. eexists. reflexivity. }
    eexists [_]. rewrite Hels, Hels1, <- app_assoc.
    split; [reflexivity |]. repeat (split; [assumption || congruence |]).
    rewrite decide_True by exact Hlen. split; [reflexivity | lia].
  - exists []. rewrite Hels, Hels1, app_nil_r. simpl. rewrite app_nil_r.
    split; [reflexivity |]. repeat (split; [assumption || congruence |]).
    rewrite decide_False; [auto |]. intros Hlen.
    assert (Hs : is_Some (@None BeamLine)) by (apply Hsome, Hlen).
    destruct Hs as [? Hs]. discriminate Hs.
Qed.

(** X3: a group of at least two chords gets one beam line; every chord of
    the group is placed at the cursor left by the chords before it, with
    its stems ending on the beam line at that x; and one beam is pushed
    after the chords, from the x of the first chord to the x of the last
    one, both shifted by the half width of a note head, to the right when
    the beam is above and to the left when it is below.  A group of one
    chord gets no [stemTo] and no beam. *)
Theorem beam_group_layout (sizes : SizingData) (clef : Clef)
    (st st' : ClefState) (beamGroup : list LabeledChord) :
  beamGroupStep sizes clef st beamGroup = Some st' →
  let beamLine := groupBeamLine sizes clef (currentX st) beamGroup in
  ∃ newProps,
    map placed newProps = placeChords sizes (currentX st) beamGroup
    ∧ Forall (chordPropsOk sizes clef beamLine) newProps
    ∧ currentX st' = cursorAfter sizes (currentX st) beamGroup
    ∧ match beamLine with
      | None =>
          (length beamGroup ≤ 1)%nat
          ∧ elementsToDisplay st'
            = elementsToDisplay st ++ map ChordElement newProps
      | Some line =>
          (2 ≤ length beamGroup)%nat
          ∧ ∃ lastProps,
              last newProps = Some lastProps
              ∧ elementsToDisplay st'
                = elementsToDisplay st ++ map ChordElement newProps
                  ++ [createSvgBeam sizes (getY line)
                        (currentX st + noteHeadShift sizes line)
                        (chord_x lastProps + noteHeadShift sizes line)]
      end.
Proof.
  intros Hstep beamLine.
  destruct (beamGroupStep_exact _ _ _ _ _ Hstep) as (st1 & Hloop & Hx & Hels).
  fold beamLine in Hloop, Hels.
  destruct (chordLoop_layout _ _ _ _ _ _ Hloop)
    as (newProps & Hels1 & Hplaced & Hok & Hx1 & Hstop).
  cbn [elementsToDisplay currentX beamStopX] in Hels1, Hplaced, Hx1, Hstop.
  exists newProps. split; [exact Hplaced |]. split; [exact Hok |].
  split; [congruence |].
  pose proof (getBeamLine_is_Some beamGroup clef (currentX st)
                (beamNoteWidth sizes beamGroup) (staffLineHeight sizes))
    as Hsome.
  fold (groupBeamLine sizes clef (currentX st) beamGroup) in Hsome.
  fold beamLine in Hsome.
  destruct beamLine as [line |].
  - assert (Hlen : (2 ≤ length beamGroup)%nat).
    { apply Hsome. eexists. reflexivity. }
    split; [exact Hlen |].
    assert (Hcount : length newProps = length beamGroup).
    { apply (f_equal length) in Hplaced. rewrite length_map in Hplaced.
      rewrite Hplaced. clear. generalize (currentX st).
      induction beamGroup as [| c g IH]; intros x; simpl; [| rewrite IH];
        reflexivity. }
    destruct (last newProps) as [lastProps |] eqn:Hlast.
    + exists lastProps. split; [reflexivity |].
      rewrite Hels, Hels1, Hstop, <- app_assoc. reflexivity.
    + apply last_None in Hlast. subst newProps. simpl in Hcount. lia.
  - split.
    + destruct (Nat.le_gt_cases (length beamGroup) 1) as [Hle | Hgt];
        [exact Hle |].
      assert (Hs : is_Some (@None BeamLine)) by (apply Hsome; lia).
      destruct Hs as [? Hs]. discriminate Hs.
    + rewrite Hels, Hels1, app_nil_r. reflexivity.
Qed.

Lemma chordPropsOf_app (elements1 elements2 : list Element) :
  chordPropsOf (elements1 ++ elements2)
  = chordPropsOf elements1 ++ chordPropsOf elements2.
Proof. apply omap_app. Qed.

Lemma beamPropsOf_app (elements1 elements2 : list Element) :
  beamPropsOf (elements1 ++ elements2)
  = beamPropsOf elements1 ++ beamPropsOf elements2.
Proof. apply omap_app. Qed.

Lemma chordPropsOf_chords (props : list SvgChordProps) :
  chordPropsOf (map ChordElement props) = props.
Proof. induction props as [| p ps IH]; simpl; [| rewrite IH]; reflexivity. Qed.

Lemma beamPropsOf_chords (props : list SvgChordProps) :
  beamPropsOf (map ChordElement props) = [].
Proof. induction props as [| p ps IH]; simpl; [reflexivity | exact IH]. Qed.

Lemma elements_count (elements : list Element) :
  length elements
  = (length (chordPropsOf elements) + length (beamPropsOf elements))%nat.
Proof.
  induction elements as [| [p | b] elements IH]; simpl; lia.
Qed.

Lemma cursorAfter_app (sizes : SizingData) (x : Q)
    (chords1 chords2 : list (list Note)) :
  cursorAfter sizes x (chords1 ++ chords2)
  = cursorAfter sizes (cursorAfter sizes x chords1) chords2.
Proof. apply foldl_app. Qed.

(** What holds of the chord elements whatever their group. *)
Lemma chordPropsOk_base (sizes : SizingData) (clef : Clef)
    (beamLine : option BeamLine) (props : list SvgChordProps) :
  Forall (chordPropsOk sizes clef beamLine) props →
  Forall (λ p, chord_clef p = clef
               ∧ chord_staffLineHeight p = staffLineHeight sizes
               ∧ chord_strokeWidth p = staffThickness sizes) props.
Proof.
  intros H. eapply Forall_impl; [exact H |].
  intros p (H1 & H2 & H3 & _). auto.
Qed.

Lemma beamGroupLoop_layout (sizes : SizingData) (clef : Clef)
    (groups : list (list LabeledChord)) :
  ∀ st st',
    forEachM (beamGroupStep sizes clef) st groups = Some st' →
    ∃ added,
      elementsToDisplay st' = elementsToDisplay st ++ added
      ∧ map placed (chordPropsOf added)
        = placeChords sizes (currentX st) (concat groups)
      ∧ Forall (λ p, chord_clef p = clef
                     ∧ chord_staffLineHeight p = staffLineHeight sizes
                     ∧ chord_strokeWidth p = staffThickness sizes)
               (chordPropsOf added)
      ∧ currentX st' = cursorAfter sizes (currentX st) (concat groups)
      ∧ length (beamPropsOf added)
        = length (filter (λ group, (2 ≤ length group)%nat) groups)
      ∧ (Forall (λ group, (length group ≤ 1)%nat) groups →
         Forall (λ p, stemTo p = None) (chordPropsOf added)).
Proof.
  induction groups as [| group groups IH]; intros st st'; simpl.
  - intros [= <-]. exists []. rewrite app_nil_r. simpl.
    repeat split; constructor.
  - destruct (beamGroupStep sizes clef st group) as [st1 |] eqn:Hstep;
      cbn [mbind option_bind]; [| discriminate].
    intros Hrest.
    destruct (beamGroupStep_layout _ _ _ _ _ Hstep)
      as (ps & beams & Hels1 & Hplaced & Hok & Hx & Hcount & Hshort).
    destruct (IH _ _ Hrest)
      as (added & Hels & Hplaced' & Hok' & Hx' & Hbeams & Hnone).
    exists (map ChordElement ps ++ map BeamElement beams ++ added).
    assert (Hchords : chordPropsOf (map ChordElement ps
                                    ++ map BeamElement beams ++ added)
                      = ps ++ chordPropsOf added).
    { rewrite !chordPropsOf_app, chordPropsOf_chords.
      assert (Hb : chordPropsOf (map BeamElement beams) = []).
      { clear. induction beams; simpl; auto. }
      rewrite Hb. reflexivity. }
    split; [| split; [| split; [| split; [| split]]]].
    + rewrite Hels, Hels1, <- !app_assoc. reflexivity.
    + rewrite Hchords, List.map_app, Hplaced, Hplaced', Hx, placeChords_app.
      reflexivity.
    + rewrite Hchords. apply Forall_app. split; [| exact Hok'].
      eapply chordPropsOk_base, Hok.
    + rewrite Hx', Hx, cursorAfter_app. reflexivity.
    + rewrite !beamPropsOf_app, beamPropsOf_chords, !length_app.
      assert (Hb : beamPropsOf (map BeamElement beams) = beams).
      { clear. induction beams as [| b bs IH]; simpl; [| rewrite IH];
          reflexivity. }
      rewrite Hb, Hbeams, Hcount, filter_cons. simpl.
      destruct (decide (2 ≤ length group)%nat); simpl; lia.
    + intros Hall. apply Forall_cons in Hall as [Hone Hall].
      rewrite Hchords. apply Forall_app. split; [| exact (Hnone Hall)].
      rewrite (Hshort Hone) in Hok.
      eapply Forall_impl; [exact Hok |]. intros p (_ & _ & _ & Hp). exact Hp.
Qed.

Lemma createClefNotes_layout (sizes : SizingData) (clef : Clef)
    (measureClef : list (list Note)) (elements elements' : list Element)
    (x x' : Q) (originalKeyLetters : gmap Letter Accidental) :
  createClefNotes sizes clef measureClef elements x originalKeyLetters
  = Some (elements', x') →
  ∃ groups added,
    groupBeamGroups measureClef = Some groups
    ∧ elements' = elements ++ added
    ∧ map placed (chordPropsOf added) = placeChords sizes x measureClef
    ∧ Forall (λ p, chord_clef p = clef
                   ∧ chord_staffLineHeight p = staffLineHeight sizes
                   ∧ chord_strokeWidth p = staffThickness sizes)
             (chordPropsOf added)
    ∧ x' = cursorAfter sizes x measureClef
    ∧ length (beamPropsOf added)
      = length (filter (λ group, (2 ≤ length group)%nat) groups)
    ∧ (Forall (λ group, (length group ≤ 1)%nat) groups →
       Forall (λ p, stemTo p = None) (chordPropsOf added)).
Proof.
  unfold createClefNotes.
  destruct (groupBeamGroups measureClef) as [groups |] eqn:Hgroups;
    cbn [mbind option_bind]; [| discriminate].
  match goal with
  | |- context [forEachM ?body ?st0 groups] =>
      destruct (forEachM body st0 groups) as [st1 |] eqn:Hloop
  end; cbn [mbind option_bind]; [| discriminate].
  intros [= <- <-].
  destruct (beamGroupLoop_layout _ _ _ _ _ Hloop)
    as (added & Hels & Hplaced & Hok & Hx & Hbeams & Hnone).
  cbn [elementsToDisplay currentX] in Hels, Hplaced, Hx.
  apply groupBeamGroups_invariant in Hgroups as Hinv.
  destruct Hinv as [_ Hcat]. rewrite Hcat in Hplaced, Hx.
  exists groups, added. auto 10.
Qed.

(** X4: [createClefNotes] only appends to the elements; the chord elements
    it appends are those of the chords of the measure, in order, each at the
    cursor left by the chords before it, all with the clef and the sizes of
    the call; and the x it returns is the start x advanced by every chord:
    it depends neither on the clef, nor on the key, nor on the beams. *)
Theorem createClefNotes_places_chords (sizes : SizingData) (clef : Clef)
    (measureClef : list (list Note)) (elements elements' : list Element)
    (x x' : Q) (originalKeyLetters : gmap Letter Accidental) :
  createClefNotes sizes clef measureClef elements x originalKeyLetters
  = Some (elements', x') →
  ∃ added,
    elements' = elements ++ added
    ∧ map placed (chordPropsOf added) = placeChords sizes x measureClef
    ∧ Forall (λ p, chord_clef p = clef
                   ∧ chord_staffLineHeight p = staffLineHeight sizes
                   ∧ chord_strokeWidth p = staffThickness sizes)
             (chordPropsOf added)
    ∧ x' = cursorAfter sizes x measureClef.
Proof.
  intros Hrun.
  destruct (createClefNotes_layout _ _ _ _ _ _ _ _ Hrun)
    as (groups & added & _ & Hels & Hplaced & Hok & Hx & _).
  exists added. auto.
Qed.

(** X5: [createClefNotes] pushes one element per chord and one beam per
    group of at least two chords, nothing else. *)
Theorem createClefNotes_counts (sizes : SizingData) (clef : Clef)
    (measureClef : list (list Note)) (elements elements' : list Element)
    (x x' : Q) (originalKeyLetters : gmap Letter Accidental) :
  createClefNotes sizes clef measureClef elements x originalKeyLetters
  = Some (elements', x') →
  ∃ groups added,
    groupBeamGroups measureClef = Some groups
    ∧ elements' = elements ++ added
    ∧ length (chordPropsOf added) = length measureClef
    ∧ length (beamPropsOf added)
      = length (filter (λ group, (2 ≤ length group)%nat) groups)
    ∧ length added
      = (length measureClef
         + length (filter (λ group, (2 ≤ length group)%nat) groups))%nat.
Proof.
  intros Hrun.
  destruct (createClefNotes_layout _ _ _ _ _ _ _ _ Hrun)
    as (groups & added & Hgroups & Hels & Hplaced & _ & _ & Hbeams & _).
  exists groups, added.
  assert (Hchords : length (chordPropsOf added) = length measureClef).
  { apply (f_equal length) in Hplaced. rewrite length_map in Hplaced.
    rewrite Hplaced. clear. generalize x.
    induction measureClef as [| c m IH]; intros y; simpl; [| rewrite IH];
      reflexivity. }
  repeat (split; [assumption |]).
  rewrite elements_count, Hchords, Hbeams. reflexivity.
Qed.

(** X6: a measure in which no chord is EIGHTH gets no beam and no
    [stemTo]: every stem is the default one of [createNoteStem]. *)
Theorem no_eighth_no_beam (sizes : SizingData) (clef : Clef)
    (measureClef : list (list Note)) (elements : list Element) (x : Q)
    (originalKeyLetters : gmap Letter Accidental) :
  Forall (λ chord, isEighth chord = Some false) measureClef →
  ∃ added x',
    createClefNotes sizes clef measureClef elements x originalKeyLetters
    = Some (elements ++ added, x')
    ∧ beamPropsOf added = []
    ∧ length (chordPropsOf added) = length measureClef
    ∧ Forall (λ p, stemTo p = None) (chordPropsOf added).
Proof.
  intros Hnone.
  assert (Hne : Forall (λ chord : list Note, chord ≠ []) measureClef).
  { eapply Forall_impl; [exact Hnone |]. intros chord H ->. discriminate H. }
  destruct (createClefNotes_total sizes clef measureClef elements x
              originalKeyLetters Hne) as [[elements' x'] Hrun].
  destruct (createClefNotes_layout _ _ _ _ _ _ _ _ Hrun)
    as (groups & added & Hgroups & -> & Hplaced & _ & _ & Hbeams & Hstems).
  assert (Hsingle : Forall (λ group, (length group ≤ 1)%nat) groups).
  { apply groupBeamGroups_invariant in Hgroups as [Hgood Hcat].
    rewrite Forall_forall in Hgood |- *. intros group Hin.
    destruct (Nat.le_gt_cases (length group) 1) as [Hle | Hgt]; [exact Hle |].
    destruct (Hgood group Hin) as (Hnonempty & _ & Heighth & _).
    specialize (Heighth Hgt).
    destruct group as [| chord group]; [congruence |].
    apply Forall_cons in Heighth as [Hchord _].
    assert (Hmem : chord ∈ measureClef).
    { rewrite <- Hcat. apply list_elem_of_In, in_concat.
      exists (chord :: group). split; [apply list_elem_of_In, Hin |].
      left. reflexivity. }
    rewrite Forall_forall in Hnone. specialize (Hnone chord Hmem).
    unfold eighthChord in Hchord. congruence. }
  exists added, x'. split; [exact Hrun |]. split; [| split].
  - assert (Hzero : filter (λ group, (2 ≤ length group)%nat) groups = []).
    { clear -Hsingle. induction Hsingle as [| g gs Hg _ IH]; [reflexivity |].
      rewrite filter_cons, decide_False by lia. exact IH. }
    rewrite Hzero in Hbeams. destruct (beamPropsOf added); [reflexivity |].
    discriminate Hbeams.
  - apply (f_equal length) in Hplaced. rewrite length_map in Hplaced.
    rewrite Hplaced. clear. generalize x.
    induction measureClef as [| c m IH]; intros y; simpl; [| rewrite IH];
      reflexivity.
  - exact (Hstems Hsingle).
Qed.

(** *** The beam line and the heads of every chord *)

(** X7: the beam line clears every head of the group.  At the column of
    the chord of index [i], [startingX + i * noteWidth], the line is at
    least 2 staff line heights above every head of that chord when the beam
    is above, and at least 2 below when it is below; so, for a positive
    [staffLineHeight], [createNoteStem] given the line's y at that column
    draws every stem of the chord toward the beam. *)
Theorem beam_clears_every_head (beamGroup : list LabeledChord) (clef : Clef)
    (startingX noteWidth staffLineHeight : Q) (line : BeamLine) (i : nat)
    (chord : LabeledChord) (note : Note) :
  getBeamLine beamGroup clef startingX noteWidth staffLineHeight = Some line →
  beamGroup !! i = Some chord →
  note ∈ chord →
  let y := positionToY (getPositionByNote note clef) staffLineHeight in
  let beamY :=
    getY line (startingX + inject_Z (Z.of_nat i) * noteWidth) in
  (if isAbove line
   then xle beamY (Fin (y - 2 * staffLineHeight))
   else xle (Fin (y + 2 * staffLineHeight)) beamY)
  ∧ (0 < staffLineHeight →
     pointsDown y (Some beamY) staffLineHeight = negb (isAbove line)).
Proof.
  intros Hline Hi Hnote y beamY.
  assert (Hclear : if isAbove line
                   then xle beamY (Fin (y - 2 * staffLineHeight))
                   else xle (Fin (y + 2 * staffLineHeight)) beamY).
  { unfold getBeamLine in Hline.
    destruct (length beamGroup <=? 1)%nat; [discriminate |].
    injection Hline as <-. subst beamY. cbn [isAbove getY].
    assert (Hne : beamGroup ≠ []) by (intros ->; discriminate Hi).
    destruct (closestNoteY_spec beamGroup clef noteWidth staffLineHeight Hne)
      as [_ Hall].
    specialize (Hall i chord Hi). unfold adjustedChordY in Hall.
    assert (Hin : In y (map (λ n, positionToY (getPositionByNote n clef)
                                    staffLineHeight) chord)).
    { apply (in_map (λ n, positionToY (getPositionByNote n clef)
                            staffLineHeight)), list_elem_of_In, Hnote. }
    set (slope := displayedSlope beamGroup) in *.
    set (closest := closestNoteY beamGroup clef noteWidth staffLineHeight)
      in *.
    destruct (shouldBeAbove beamGroup clef); cbn [closerOrEqual] in Hall.
    - apply Math_min_le in Hin.
      destruct (Math_min _) as [| m |]; destruct closest as [| c |];
        unfold xle in *; simpl in *; try congruence.
      apply Qle_bool_iff in Hall, Hin. apply Qle_bool_iff. lra.
    - apply Math_max_ge in Hin.
      destruct (Math_max _) as [| m |]; destruct closest as [| c |];
        unfold xle in *; simpl in *; try congruence.
      apply Qle_bool_iff in Hall, Hin. apply Qle_bool_iff. lra. }
  split; [exact Hclear |].
  intros Hpos. unfold pointsDown.
  destruct (isAbove line); simpl.
  - eapply xltb_below; eassumption.
  - eapply xltb_above; eassumption.
Qed.

(** *** The chords of a beamed group are evenly spaced *)

Lemma eighthChord_advance (sizes : SizingData) (x : Q) (chord : LabeledChord) :
  eighthChord chord →
  advance sizes x chord
  = x + BASE_NOTE_GAP_RATIO * staffHeight sizes * rhythmicWidth EIGHTH.
Proof.
  unfold eighthChord, isEighth, advance.
  destruct chord as [| n chord]; [discriminate |].
  intros [= Hn]. apply bool_decide_eq_true in Hn. rewrite Hn. reflexivity.
Qed.

Lemma placeChords_eighths (sizes : SizingData) (chords : list LabeledChord) :
  Forall eighthChord chords →
  ∀ x i chord xi,
    placeChords sizes x chords !! i = Some (chord, xi) →
    xi == x + inject_Z (Z.of_nat i)
              * (BASE_NOTE_GAP_RATIO * staffHeight sizes
                 * rhythmicWidth EIGHTH).
Proof.
  induction 1 as [| c chords Hc _ IH]; intros x i chord xi Hi;
    [destruct i; discriminate Hi |].
  destruct i as [| i]; simpl in Hi.
  - injection Hi as _ <-. simpl. ring.
  - apply IH in Hi. rewrite Hi, (eighthChord_advance _ _ _ Hc).
    rewrite Nat2Z.inj_succ. unfold Z.succ. rewrite inject_Z_plus.
    change (inject_Z 1) with 1. ring.
Qed.

(** X8: what [getBeamLine] assumes, that all the chords of a group have
    the same width, holds of the groups of [groupBeamGroups]: in a group of
    at least two chords, the chord of index [i] is placed at the x of the
    first chord plus [i] times [beamNoteWidth], the width given to
    [getBeamLine]. *)
Theorem beamed_chords_evenly_spaced (sizes : SizingData)
    (measure : list LabeledChord) (groups : list (list LabeledChord))
    (group : list LabeledChord) (x : Q) (i : nat) (chord : LabeledChord)
    (xi : Q) :
  groupBeamGroups measure = Some groups →
  group ∈ groups →
  (2 ≤ length group)%nat →
  placeChords sizes x group !! i = Some (chord, xi) →
  xi == x + inject_Z (Z.of_nat i) * beamNoteWidth sizes group.
Proof.
  intros Hgroups Hin Hlen Hi.
  apply groupBeamGroups_invariant in Hgroups as [Hgood _].
  rewrite Forall_forall in Hgood.
  destruct (Hgood group Hin) as (_ & _ & Heighth & _).
  assert (Hall : Forall eighthChord group) by (apply Heighth; lia).
  rewrite (placeChords_eighths sizes group Hall x i chord xi Hi).
  destruct group as [| first rest]; [simpl in Hlen; lia |].
  apply Forall_cons in Hall as [Hfirst _].
  unfold eighthChord, isEighth in Hfirst.
  destruct first as [| n first]; [discriminate |].
  injection Hfirst as Hn. apply bool_decide_eq_true in Hn.
  unfold beamNoteWidth. rewrite Hn. reflexivity.
Qed.

(** *** Measures and bar lines *)

Lemma measureStep_music (height : Q)
    (originalKeyLetters : gmap Letter Accidental) (st st' : StaffState)
    (measure : LabeledMusic) :
  measureStep height originalKeyLetters st measure = Some st' →
  ∃ trebleEnd bassEnd,
    createClefNotes (sizesOf height) TREBLE (trebleClef measure)
      (trebleMusic st) (trebleX st) originalKeyLetters
    = Some (trebleMusic st', trebleEnd)
    ∧ createClefNotes (sizesOf height) BASS (bassClef measure)
        (bassMusic st) (bassX st) originalKeyLetters
      = Some (bassMusic st', bassEnd).
Proof.
  unfold measureStep.
  destruct (createClefNotes (sizesOf height) TREBLE _ _ _ _)
    as [[trebleElements trebleEnd] |]; cbn [mbind option_bind];
    [| discriminate].
  destruct (createClefNotes (sizesOf height) BASS _ _ _ _)
    as [[bassElements bassEnd] |]; cbn [mbind option_bind];
    [| discriminate].
  intros [= <-]. exists trebleEnd, bassEnd. split; reflexivity.
Qed.

Lemma concat_map_snoc {X Y : Type} (f : X → list Y) (l : list X) (x : X) :
  concat (map f (l ++ [x])) = concat (map f l) ++ f x.
Proof.
  rewrite List.map_app, concat_app. simpl. rewrite app_nil_r. reflexivity.
Qed.

(** X12: accidentals do not carry over a bar line.  On each staff the
    chord elements of the whole music are those of the chords of the
    measures, in order, and in every measure the accidental states are
    tracked from the key signature again. *)
Theorem accidentals_reset_every_measure (height : Q)
    (noteLabelsInKey : list (option NoteLabel)) (music : list LabeledMusic)
    (st : StaffState) :
  GrandStaff height noteLabelsInKey music = Some st →
  map notesAndState (chordPropsOf (trebleMusic st))
  = concat (map (λ measure,
                   trackAccidentals (keyLetters noteLabelsInKey)
                     (trebleClef measure)) music)
  ∧ map notesAndState (chordPropsOf (bassMusic st))
    = concat (map (λ measure,
                     trackAccidentals (keyLetters noteLabelsInKey)
                       (bassClef measure)) music).
Proof.
  intros Hrun. unfold GrandStaff in Hrun.
  apply (forEachM_invariant
           (measureStep height (keyLetters noteLabelsInKey))
           (λ s done,
              map notesAndState (chordPropsOf (trebleMusic s))
              = concat (map (λ measure,
                               trackAccidentals (keyLetters noteLabelsInKey)
                                 (trebleClef measure)) done)
              ∧ map notesAndState (chordPropsOf (bassMusic s))
                = concat (map (λ measure,
                                 trackAccidentals
                                   (keyLetters noteLabelsInKey)
                                   (bassClef measure)) done))
           music) with (s := initialStaffState) (done := []);
    [| split; reflexivity | exact Hrun].
  intros s done measure s' [Htreble Hbass] Hstep.
  destruct (measureStep_music _ _ _ _ _ Hstep) as (tx & bx & Ht & Hb).
  destruct (createClefNotes_trace _ _ _ _ _ _ _ _ Ht) as (tp & Htp & Hto).
  destruct (createClefNotes_trace _ _ _ _ _ _ _ _ Hb) as (bp & Hbp & Hbo).
  rewrite !concat_map_snoc, Htp, Hbp, !List.map_app, Htreble, Hbass, Hto, Hbo.
  split; reflexivity.
Qed.

Lemma advance_ge (sizes : SizingData) (x : Q) (chord : list Note) :
  0 <= staffHeight sizes →
  (∀ value, 0 <= rhythmicWidth value) →
  x <= advance sizes x chord.
Proof.
  intros Hh Hw. unfold advance. destruct chord as [| n chord];
    [apply Qle_refl |].
  assert (H : 0 <= BASE_NOTE_GAP_RATIO * staffHeight sizes
                   * rhythmicWidth (rhythmicValue n)).
  { apply Qmult_le_0_compat; [| apply Hw].
    apply Qmult_le_0_compat; [discriminate | exact Hh]. }
  lra.
Qed.

Lemma cursorAfter_ge (sizes : SizingData) (chords : list (list Note)) :
  0 <= staffHeight sizes →
  (∀ value, 0 <= rhythmicWidth value) →
  ∀ x, x <= cursorAfter sizes x chords.
Proof.
  intros Hh Hw. unfold cursorAfter.
  induction chords as [| chord chords IH]; intros x; simpl;
    [apply Qle_refl |].
  eapply Qle_trans; [apply (advance_ge sizes x chord Hh Hw) | apply IH].
Qed.

(** X13: when the height and the numbers of the rhythmic values are not
    negative, a cursor never moves to the left, so the bar lines go from
    left to right: the first is at 40 or further, and each next one is at
    least 50 further than the one before. *)
Theorem bar_lines_left_to_right (height : Q)
    (noteLabelsInKey : list (option NoteLabel)) (music : list LabeledMusic)
    (st : StaffState) :
  0 <= height →
  (∀ value, 0 <= rhythmicWidth value) →
  GrandStaff height noteLabelsInKey music = Some st →
  (∀ bar, bar ∈ barLines st → 40 <= bar_x bar)
  ∧ (∀ pre a b post,
       barLines st = pre ++ a :: b :: post → bar_x a + 50 <= bar_x b).
Proof.
  intros Hh Hw Hrun. unfold GrandStaff in Hrun.
  assert (Hinv :
    (trebleX st = bassX st
     ∧ 40 <= trebleX st
     ∧ (∀ bar, last (barLines st) = Some bar → bar_x bar + 50 <= trebleX st))
    ∧ (∀ bar, bar ∈ barLines st → 40 <= bar_x bar)
    ∧ (∀ pre a b post,
         barLines st = pre ++ a :: b :: post → bar_x a + 50 <= bar_x b)).
  { apply (forEachM_invariant
             (measureStep height (keyLetters noteLabelsInKey))
             (λ s _,
                (trebleX s = bassX s
                 ∧ 40 <= trebleX s
                 ∧ (∀ bar, last (barLines s) = Some bar →
                           bar_x bar + 50 <= trebleX s))
                ∧ (∀ bar, bar ∈ barLines s → 40 <= bar_x bar)
                ∧ (∀ pre a b post,
                     barLines s = pre ++ a :: b :: post →
                     bar_x a + 50 <= bar_x b))
             music) with (s := initialStaffState) (done := []);
      [| | exact Hrun].
    - intros s done measure s' ((Hcur & Hstart & Hlast) & Hbars & Hgaps) Hstep.
      destruct (measureStep_inv _ _ _ _ _ Hstep)
        as (te & tx & be & bx & bar & Ht & Hb & Hnew & Hmax & Htx & Hbx).
      destruct (createClefNotes_layout _ _ _ _ _ _ _ _ Ht)
        as (_ & _ & _ & _ & _ & _ & Hend & _).
      assert (Hmove : trebleX s <= tx).
      { rewrite Hend. apply cursorAfter_ge; assumption. }
      assert (Hbar : trebleX s <= bar_x bar).
      { rewrite Hmax. eapply Qle_trans; [exact Hmove | apply Q.le_max_l]. }
      split; [| split].
      + split; [congruence |]. rewrite Htx. split; [lra |].
        intros bar'. rewrite Hnew, last_snoc. intros [= <-]. apply Qle_refl.
      + intros bar'. rewrite Hnew, elem_of_app, list_elem_of_singleton.
        intros [Hold | ->]; [apply Hbars, Hold | lra].
      + rewrite Hnew. apply neighbours_snoc; [exact Hgaps |].
        intros prev Hprev. specialize (Hlast prev Hprev). lra.
    - simpl. split; [split; [reflexivity | split; [discriminate |]] |].
      + intros bar Hbar. discriminate Hbar.
      + split; [intros bar Hbar; apply elem_of_nil in Hbar; contradiction |].
        intros pre a b post Heq. destruct pre; discriminate Heq. }
  destruct Hinv as (_ & Hbars & Hgaps). split; assumption.
Qed.

(** *** Later chords and earlier groups; moving a beam *)

Lemma groupLoop_extends (chords : list LabeledChord) :
  ∀ (init : list (list LabeledChord)) (latest : list LabeledChord) groups,
    forEachM groupStep (init ++ [latest]) chords = Some groups →
    ∃ more rest,
      groups = init ++ [latest ++ more] ++ rest
      ∧ more ++ concat rest = chords.
Proof.
  induction chords as [| chord chords IH]; intros init latest groups; simpl.
  - intros [= <-]. exists [], []. rewrite !app_nil_r. auto.
  - destruct (groupStep (init ++ [latest]) chord) as [groups1 |] eqn:Hstep;
      cbn [mbind option_bind]; [| discriminate].
    intros Hrest.
    destruct (groupStep_cases _ _ _ Hstep)
      as [-> | (init0 & latest0 & Hsame & -> & _)].
    + destruct (IH _ _ _ Hrest) as (more & rest & -> & <-).
      exists [], (([chord] ++ more) :: rest).
      rewrite app_nil_r, <- !app_assoc. auto.
    + apply app_inj_tail in Hsame as [<- <-].
      destruct (IH _ _ _ Hrest) as (more & rest & -> & <-).
      exists (chord :: more), rest. rewrite <- !app_assoc. auto.
Qed.

(** X20: chords that come later never change the groups that are already
    closed.  If a measure gives the groups [init ++ [latest]], the measure
    followed by more chords gives the same [init], then [latest] with some
    of the new chords appended, then the groups of the other new chords. *)
Theorem earlier_groups_are_final (measure more : list LabeledChord)
    (init : list (list LabeledChord)) (latest : list LabeledChord)
    (groups : list (list LabeledChord)) :
  groupBeamGroups measure = Some (init ++ [latest]) →
  groupBeamGroups (measure ++ more) = Some groups →
  ∃ joined rest,
    groups = init ++ [latest ++ joined] ++ rest
    ∧ joined ++ concat rest = more.
Proof.
  unfold groupBeamGroups. intros Hfirst. rewrite forEachM_app, Hfirst.
  cbn [mbind option_bind]. apply groupLoop_extends.
Qed.

(** X21: the beam moves with its group.  Starting the same group [d]
    further to the right gives a beam on the same side whose y at [x + d] is
    the y of the first beam at [x]. *)
Theorem beam_moves_with_group (beamGroup : list LabeledChord) (clef : Clef)
    (startingX d noteWidth staffLineHeight : Q) (line : BeamLine) :
  getBeamLine beamGroup clef startingX noteWidth staffLineHeight = Some line →
  ∃ line',
    getBeamLine beamGroup clef (startingX + d) noteWidth staffLineHeight
    = Some line'
    ∧ isAbove line' = isAbove line
    ∧ ∀ x, xeq (getY line' (x + d)) (getY line x).
Proof.
  unfold getBeamLine.
  destruct (length beamGroup <=? 1)%nat; [discriminate |].
  intros [= <-]. eexists. split; [reflexivity |]. cbn [isAbove getY].
  split; [reflexivity |]. intros x.
  destruct (closestNoteY beamGroup clef noteWidth staffLineHeight);
    simpl; trivial.
  ring.
Qed.

End MoreLayoutProperties.

(** *** Staff positions (SvgChord.tsx) *)

(** The position is the index of the letter, shifted by the clef, plus 7
    for every octave above the base octave of the clef. *)
Lemma basePosition_formula (note : Note) (clef : Clef) :
  basePosition note clef
  = (indexOf TREBLE_CLEF (letter (getLabel note))
     + (if decide (clef = BASS) then -2 else 0)
     + (getOctave note - (if decide (clef = BASS) then 2 else 4)
        + (if decide (letter (getLabel note) = B
                      ∧ accidental (getLabel note) = SHARP) then -1
           else if decide (letter (getLabel note) = C
                           ∧ accidental (getLabel note) = FLAT) then 1
                else 0)) * 7)%Z.
Proof. unfold basePosition. destruct clef; reflexivity. Qed.

Lemma indexOf_range (l : Letter) : (0 ≤ indexOf TREBLE_CLEF l ≤ 6)%Z.
Proof. destruct l; vm_compute; split; discriminate. Qed.

Lemma indexOf_inj (l1 l2 : Letter) :
  indexOf TREBLE_CLEF l1 = indexOf TREBLE_CLEF l2 → l1 = l2.
Proof. destruct l1, l2; vm_compute; congruence. Qed.

(** X14: two notes with the same label are 7 positions apart for every
    octave between them, that is 3.5 staff line heights, the higher octave
    at the smaller y. *)
Theorem octave_is_seven_positions (note1 note2 : Note) (clef : Clef)
    (staffLineHeight : Q) :
  getLabel note1 = getLabel note2 →
  (basePosition note2 clef - basePosition note1 clef
   = 7 * (getOctave note2 - getOctave note1))%Z
  ∧ getNoteY note1 clef staffLineHeight - getNoteY note2 clef staffLineHeight
    == inject_Z (getOctave note2 - getOctave note1)
       * (7 * staffLineHeight / 2).
Proof.
  intros Hlabel.
  assert (Hpos : (basePosition note2 clef
                  = basePosition note1 clef
                    + 7 * (getOctave note2 - getOctave note1))%Z).
  { rewrite !basePosition_formula, Hlabel. lia. }
  split; [lia |].
  unfold getNoteY. rewrite Hpos, inject_Z_plus, inject_Z_mult.
  change (inject_Z 7) with 7.
  generalize (inject_Z (basePosition note1 clef)).
  generalize (inject_Z (getOctave note2 - getOctave note1)).
  intros d p. field.
Qed.

(** X15: the same note is 12 positions higher on the bass staff than on
    the treble staff, that is 6 staff line heights. *)
Theorem bass_is_twelve_positions_up (note : Note) (staffLineHeight : Q) :
  basePosition note BASS = (basePosition note TREBLE + 12)%Z
  ∧ getNoteY note BASS staffLineHeight
    == getNoteY note TREBLE staffLineHeight - 6 * staffLineHeight.
Proof.
  assert (Hpos : basePosition note BASS = (basePosition note TREBLE + 12)%Z).
  { rewrite !basePosition_formula.
    destruct (decide (BASS = BASS)); [| congruence].
    destruct (decide (TREBLE = BASS)); [discriminate |]. lia. }
  split; [exact Hpos |].
  unfold getNoteY. rewrite Hpos, inject_Z_plus.
  change (inject_Z 12) with 12.
  generalize (inject_Z (basePosition note TREBLE)). intros p. field.
Qed.

(** X16: apart from C flat and B sharp, notes are ordered on the staff by
    octave, then by letter from C to B: in particular two such notes are at
    the same position only if they have the same letter and the same
    octave. *)
Theorem positions_follow_octave_and_letter (note1 note2 : Note) (clef : Clef) :
  let plain (note : Note) :=
    ¬ (letter (getLabel note) = C ∧ accidental (getLabel note) = FLAT)
    ∧ ¬ (letter (getLabel note) = B ∧ accidental (getLabel note) = SHARP) in
  let index (note : Note) := indexOf TREBLE_CLEF (letter (getLabel note)) in
  plain note1 → plain note2 →
  ((basePosition note1 clef < basePosition note2 clef)%Z
   ↔ (getOctave note1 < getOctave note2)%Z
     ∨ (getOctave note1 = getOctave note2 ∧ (index note1 < index note2)%Z))
  ∧ (basePosition note1 clef = basePosition note2 clef
     ↔ letter (getLabel note1) = letter (getLabel note2)
       ∧ getOctave note1 = getOctave note2).
Proof.
  intros plain index [Hc1 Hb1] [Hc2 Hb2].
  rewrite !basePosition_formula.
  rewrite (decide_False (P := letter (getLabel note1) = B ∧ _)) by exact Hb1.
  rewrite (decide_False (P := letter (getLabel note1) = C ∧ _)) by exact Hc1.
  rewrite (decide_False (P := letter (getLabel note2) = B ∧ _)) by exact Hb2.
  rewrite (decide_False (P := letter (getLabel note2) = C ∧ _)) by exact Hc2.
  pose proof (indexOf_range (letter (getLabel note1))) as H1.
  pose proof (indexOf_range (letter (getLabel note2))) as H2.
  subst index. cbn beta. split.
  - lia.
  - split.
    + intros Heq. assert (Hi : indexOf TREBLE_CLEF (letter (getLabel note1))
                               = indexOf TREBLE_CLEF (letter (getLabel note2)))
        by lia.
      split; [apply indexOf_inj, Hi | lia].
    + intros [-> ->]. reflexivity.
Qed.

(** *** The primitives of a chord (SvgChord.tsx) *)

Lemma headsOf_SvgChord_note (props : SvgChordProps) (note : Note) :
  headsOf (SvgChord_note props note)
  = [{| head_cx := chord_x props;
        head_cy := getNoteY note (chord_clef props)
                     (chord_staffLineHeight props);
        head_rx := NOTE_WIDTH_RATIO * chord_staffLineHeight props;
        head_ry := NOTE_HEIGHT_RATIO * chord_staffLineHeight props;
        head_strokeWidth := 2 * chord_strokeWidth props;
        head_filled :=
          negb (bool_decide (rhythmicValue note ∈ [WHOLE; HALF])) |}].
Proof.
  unfold SvgChord_note, headsOf. simpl.
  destruct (decide (rhythmicValue note ≠ WHOLE)); simpl;
    destruct (getDisplayedAccidental (getLabel note) (accidentals props));
    reflexivity.
Qed.

Lemma headsOf_app (primitives1 primitives2 : list Primitive) :
  headsOf (primitives1 ++ primitives2)
  = headsOf primitives1 ++ headsOf primitives2.
Proof. apply omap_app. Qed.

Lemma stemsOf_app (primitives1 primitives2 : list Primitive) :
  stemsOf (primitives1 ++ primitives2)
  = stemsOf primitives1 ++ stemsOf primitives2.
Proof. apply omap_app. Qed.

(** X17: [SvgChord] draws one head per note, in the order of the notes,
    all at the x of the chord, each at the y of its note, hollow exactly for
    WHOLE and HALF; and one stem per note that is not WHOLE, every stem
    vertical, starting at the y of a head and half a head width beside the
    x of the chord. *)
Theorem chord_heads_and_stems (props : SvgChordProps) :
  let slh := chord_staffLineHeight props in
  map (λ head, (head_cx head, head_cy head, head_rx head, head_filled head))
      (headsOf (SvgChord props))
  = map (λ note,
           (chord_x props, getNoteY note (chord_clef props) slh,
            NOTE_WIDTH_RATIO * slh,
            negb (bool_decide (rhythmicValue note = WHOLE
                               ∨ rhythmicValue note = HALF))))
        (labeledNoteGroup props)
  ∧ length (stemsOf (SvgChord props))
    = length (filter (λ note, rhythmicValue note ≠ WHOLE)
                     (labeledNoteGroup props))
  ∧ Forall (λ stem,
              stem_x1 stem = stem_x2 stem
              ∧ (stem_x1 stem = chord_x props - NOTE_WIDTH_RATIO * slh
                 ∨ stem_x1 stem = chord_x props + NOTE_WIDTH_RATIO * slh)
              ∧ ∃ note, note ∈ labeledNoteGroup props
                        ∧ stem_y1 stem = getNoteY note (chord_clef props) slh)
           (stemsOf (SvgChord props)).
Proof.
  intros slh. unfold SvgChord.
  induction (labeledNoteGroup props) as [| note notes IH];
    [repeat split; constructor |].
  destruct IH as (Hheads & Hstems & Hall).
  cbn [map concat]. rewrite headsOf_app, stemsOf_app, headsOf_SvgChord_note.
  rewrite stemsOf_SvgChord_note. split; [| split].
  - cbn [map app head_cx head_cy head_rx head_filled]. rewrite Hheads.
    f_equal. f_equal. f_equal. apply bool_decide_ext.
    rewrite elem_of_cons, list_elem_of_singleton. reflexivity.
  - rewrite filter_cons.
    destruct (decide (rhythmicValue note ≠ WHOLE)); unfold createNoteStem;
      rewrite length_app; simpl; rewrite Hstems; reflexivity.
  - apply Forall_app. split.
    + destruct (decide (rhythmicValue note ≠ WHOLE)); [| constructor].
      unfold createNoteStem. apply Forall_singleton.
      cbn [stem_x1 stem_x2 stem_y1]. split; [reflexivity |]. split.
      * destruct (pointsDown _ _ _); [left | right]; reflexivity.
      * exists note. split; [left | reflexivity].
    + eapply Forall_impl; [exact Hall |].
      intros stem (Hv & Hside & n & Hn & Hy). split; [exact Hv |].
      split; [exact Hside |]. exists n. split; [right; exact Hn | exact Hy].
Qed.

(** *** The allowed chord qualities *)

Lemma pushIf_sublist (flag : bool) (quality : ChordQuality)
    (qualities all : list ChordQuality) :
  qualities `sublist_of` all →
  pushIf flag quality qualities `sublist_of` all ++ [quality].
Proof.
  intros H. unfold pushIf. destruct flag.
  - apply sublist_app; [exact H | reflexivity].
  - apply sublist_inserts_r, H.
Qed.

Lemma pushIf_mono (flag flag' : bool) (quality : ChordQuality)
    (qualities qualities' : list ChordQuality) :
  (flag = true → flag' = true) →
  qualities `sublist_of` qualities' →
  pushIf flag quality qualities `sublist_of` pushIf flag' quality qualities'.
Proof.
  intros Hflag H. unfold pushIf. destruct flag.
  - rewrite (Hflag eq_refl). apply sublist_app; [exact H | reflexivity].
  - destruct flag'; [apply sublist_inserts_r, H | exact H].
Qed.

Lemma elem_of_pushIf (flag : bool) (quality q : ChordQuality)
    (qualities : list ChordQuality) :
  q ∈ pushIf flag quality qualities
  ↔ q ∈ qualities ∨ (flag = true ∧ q = quality).
Proof.
  unfold pushIf. destruct flag.
  - rewrite elem_of_app, list_elem_of_singleton. tauto.
  - split; [tauto | intros [H | [H _]]; [exact H | discriminate H]].
Qed.

(** X18: the allowed qualities are always listed in the same order,
    without repetition; and with a key the list is a sublist of the list
    that the same boxes give without a key: a key only removes qualities. *)
Theorem allowed_qualities_in_fixed_order {MajorKeys Key : Type}
    (key : option Key) (config : NotationConfiguration MajorKeys) :
  getAllowedChordQualities key config `sublist_of` allQualities
  ∧ NoDup (getAllowedChordQualities key config)
  ∧ getAllowedChordQualities key config
    `sublist_of` getAllowedChordQualities (@None Key) config.
Proof.
  assert (Hall : getAllowedChordQualities key config
                 `sublist_of` allQualities).
  { unfold getAllowedChordQualities, allQualities.
    set (triads := if includeTriads config then _ else _).
    assert (Ht : triads `sublist_of`
                 [Triad MAJOR; Triad MINOR; Triad DIMINISHED;
                  Triad AUGMENTED]).
    { unfold triads. destruct (includeTriads config);
        [| apply sublist_nil_l].
      change [Triad MAJOR; Triad MINOR; Triad DIMINISHED; Triad AUGMENTED]
        with (((([] ++ [Triad MAJOR]) ++ [Triad MINOR])
               ++ [Triad DIMINISHED]) ++ [Triad AUGMENTED]).
      do 4 apply pushIf_sublist. apply sublist_nil_l. }
    change [Triad MAJOR; Triad MINOR; Triad DIMINISHED; Triad AUGMENTED;
            Seventh MAJOR_7; Seventh MINOR_7; Seventh DOMINANT_7;
            Seventh HALF_DIM_7; Seventh DIMINISHED_7; Seventh MINOR_MAJOR_7;
            Seventh AUG_MAJOR_7]
      with ((((((([Triad MAJOR; Triad MINOR; Triad DIMINISHED;
                   Triad AUGMENTED]
                  ++ [Seventh MAJOR_7]) ++ [Seventh MINOR_7])
                ++ [Seventh DOMINANT_7]) ++ [Seventh HALF_DIM_7])
              ++ [Seventh DIMINISHED_7]) ++ [Seventh MINOR_MAJOR_7])
            ++ [Seventh AUG_MAJOR_7]).
    destruct (includeSevenths config).
    - do 7 apply pushIf_sublist. exact Ht.
    - do 7 apply sublist_inserts_r. exact Ht. }
  split; [exact Hall |]. split.
  - apply (sublist_NoDup _ allQualities); [| exact Hall].
    unfold allQualities. apply NoDup_ListNoDup.
    repeat (constructor; [simpl; intuition discriminate |]). constructor.
  - unfold getAllowedChordQualities.
    assert (Hnull : ∀ flag, (flag && isNull key = true →
                             flag && isNull (@None Key) = true)).
    { intros flag. destruct flag, key; simpl; congruence. }
    set (triads := if includeTriads config then _ else _).
    set (triads' := if includeTriads config then _ else _).
    assert (Ht : triads `sublist_of` triads').
    { unfold triads, triads'. destruct (includeTriads config);
        [| reflexivity].
      apply pushIf_mono; [apply Hnull |]. reflexivity. }
    destruct (includeSevenths config); [| exact Ht].
    repeat (apply pushIf_mono; [first [apply Hnull | tauto] |]).
    exact Ht.
Qed.

(** X19: with a key, the augmented triad and the diminished, minor-major
    and augmented-major sevenths are never allowed, whatever boxes are
    ticked; so they are not allowed for any key configuration but
    'Anything Goes', the only one that [convertKeyConfigToKey] turns into
    [null]. *)
Theorem key_excludes_keyless_qualities {MajorKeys Key : Type}
    (asKey : MajorKeys → Key) (randomKey : Key)
    (config : NotationConfiguration MajorKeys) :
  (∀ (k : Key) quality,
     quality ∈ getAllowedChordQualities (Some k) config →
     ¬ needsNoKey quality)
  ∧ (∀ keyConfig,
       convertKeyConfigToKey asKey randomKey keyConfig = None
       ↔ keyConfig = Misc ANYTHING_GOES)
  ∧ (∀ keyConfig quality,
       keyConfig ≠ Misc ANYTHING_GOES →
       quality ∈ getAllowedChordQualities
                   (convertKeyConfigToKey asKey randomKey keyConfig) config →
       ¬ needsNoKey quality).
Proof.
  assert (Hkey : ∀ (k : Key) quality,
            quality ∈ getAllowedChordQualities (Some k) config →
            ¬ needsNoKey quality).
  { intros k quality. unfold getAllowedChordQualities. cbn [isNull].
    rewrite !andb_false_r.
    destruct (includeTriads config), (includeSevenths config);
      rewrite ?elem_of_pushIf, ?elem_of_nil; unfold needsNoKey;
      intuition (subst; discriminate). }
  assert (Hnull : ∀ keyConfig,
            convertKeyConfigToKey asKey randomKey keyConfig = None
            ↔ keyConfig = Misc ANYTHING_GOES).
  { intros [[] | k]; simpl; split; congruence. }
  split; [exact Hkey |]. split; [exact Hnull |].
  intros keyConfig quality Hne.
  destruct (convertKeyConfigToKey asKey randomKey keyConfig) as [k |] eqn:Hk.
  - apply Hkey.
  - apply Hnull in Hk. contradiction.
Qed.

(* ================================================================== *)
(** ** The further properties on sample inputs *)
(* ================================================================== *)

Lemma durationWidth_nonneg (value : RhythmicValue) : 0 <= durationWidth value.
Proof. destruct value; discriminate. Defined.

(** X1 on the five chords: the fifth could not join the first four. *)
Lemma beam_groups_are_maximal_witness :
  groupBeamGroups fiveEighths
  = Some [[[c4]; [cSharp4]; [d4]; [dSharp4]]; [[e4]]]
  ∧ ∃ chord rest,
      [[e4]] = chord :: rest
      ∧ cannotJoin [[c4]; [cSharp4]; [d4]; [dSharp4]] chord.
Proof.
  assert (Hrun : groupBeamGroups fiveEighths
                 = Some [[[c4]; [cSharp4]; [d4]; [dSharp4]]; [[e4]]])
    by (vm_compute; reflexivity).
  split; [exact Hrun |].
  apply (beam_groups_are_maximal fiveEighths _ Hrun [] _ _ [] eq_refl).
Defined.

(** X3 on a rising pair of chords. *)
Lemma beam_group_layout_witness :
  ∃ st' newProps,
    beamGroupStep sampleSizes TREBLE sampleState risingPair = Some st'
    ∧ map placed newProps = placeChords sampleSizes 40 risingPair
    ∧ currentX st' = cursorAfter sampleSizes 40 risingPair.
Proof.
  destruct (beamGroupStep sampleSizes TREBLE sampleState risingPair)
    as [st' |] eqn:Hstep; [| vm_compute in Hstep; discriminate].
  destruct (beam_group_layout _ _ _ _ _ Hstep)
    as (newProps & Hplaced & _ & Hx & _).
  exists st', newProps. split; [reflexivity |]. split; assumption.
Defined.

(** X4 on the five chords. *)
Lemma createClefNotes_places_chords_witness :
  ∃ elements' x',
    createClefNotes sampleSizes TREBLE fiveEighths [] 40 gMajorLetters
    = Some (elements', x')
    ∧ map placed (chordPropsOf elements')
      = placeChords sampleSizes 40 fiveEighths
    ∧ x' = cursorAfter sampleSizes 40 fiveEighths.
Proof.
  destruct (createClefNotes sampleSizes TREBLE fiveEighths [] 40
              gMajorLetters) as [[elements' x'] |] eqn:Hrun;
    [| vm_compute in Hrun; discriminate].
  destruct (createClefNotes_places_chords _ _ _ _ _ _ _ _ Hrun)
    as (added & -> & Hplaced & _ & Hx).
  exists added, x'. split; [reflexivity |]. split; assumption.
Defined.

(** X5 on the five chords: five chord elements and one beam. *)
Lemma createClefNotes_counts_witness :
  ∃ elements' x',
    createClefNotes sampleSizes TREBLE fiveEighths [] 40 gMajorLetters
    = Some (elements', x')
    ∧ length elements' = 6%nat.
Proof.
  destruct (createClefNotes sampleSizes TREBLE fiveEighths [] 40
              gMajorLetters) as [[elements' x'] |] eqn:Hrun;
    [| vm_compute in Hrun; discriminate].
  destruct (createClefNotes_counts _ _ _ _ _ _ _ _ Hrun)
    as (groups & added & Hgroups & -> & _ & _ & Hcount).
  exists added, x'. split; [reflexivity |].
  vm_compute in Hgroups. injection Hgroups as <-. exact Hcount.
Defined.

(** X6 on three QUARTER chords. *)
Lemma no_eighth_no_beam_witness :
  Forall (λ chord, isEighth chord = Some false)
         [[fSharp4]; [fNatural4]; [b4]]
  ∧ ∃ added x',
      createClefNotes sampleSizes TREBLE [[fSharp4]; [fNatural4]; [b4]] []
        40 gMajorLetters = Some (added, x')
      ∧ beamPropsOf added = []
      ∧ Forall (λ p, stemTo p = None) (chordPropsOf added).
Proof.
  assert (Hnone : Forall (λ chord, isEighth chord = Some false)
                         [[fSharp4]; [fNatural4]; [b4]])
    by (repeat constructor).
  split; [exact Hnone |].
  destruct (no_eighth_no_beam (utilities := specUtilities) sampleSizes TREBLE
              _ [] 40 gMajorLetters Hnone)
    as (added & x' & Hrun & Hbeams & _ & Hstems).
  exists added, x'. auto.
Defined.

(** X7 on the second chord of the rising pair. *)
Lemma beam_clears_every_head_witness :
  ∃ line,
    getBeamLine risingPair TREBLE 40 (125 / 2) 25 = Some line
    ∧ isAbove line = true
    ∧ xle (getY line (40 + inject_Z (Z.of_nat 1) * (125 / 2)))
          (Fin (linearY (basePosition g4 TREBLE) 25 - 2 * 25))
    ∧ pointsDown (linearY (basePosition g4 TREBLE) 25)
        (Some (getY line (40 + inject_Z (Z.of_nat 1) * (125 / 2)))) 25
      = false.
Proof.
  destruct (getBeamLine risingPair TREBLE 40 (125 / 2) 25) as [line |]
    eqn:Hline; [| vm_compute in Hline; discriminate].
  assert (Habove : isAbove line = true).
  { vm_compute in Hline. injection Hline as <-. reflexivity. }
  assert (Hnote : g4 ∈ [e4; g4]) by (right; left).
  destruct (beam_clears_every_head (utilities := specUtilities) risingPair
              TREBLE 40 (125 / 2) 25 line 1 [e4; g4] g4 Hline eq_refl Hnote)
    as [Hclear Hstem].
  exists line. split; [reflexivity |]. split; [exact Habove |].
  rewrite Habove in Hclear, Hstem. split; [exact Hclear |].
  apply Hstem. reflexivity.
Defined.

(** X8 on the third chord of the group of four. *)
Lemma beamed_chords_evenly_spaced_witness :
  ∃ xi,
    placeChords sampleSizes 40 [[c4]; [cSharp4]; [d4]; [dSharp4]] !! 2%nat
    = Some ([d4], xi)
    ∧ xi == 40 + inject_Z (Z.of_nat 2)
                 * beamNoteWidth sampleSizes
                     [[c4]; [cSharp4]; [d4]; [dSharp4]].
Proof.
  destruct (placeChords sampleSizes 40 [[c4]; [cSharp4]; [d4]; [dSharp4]]
            !! 2%nat) as [[chord xi] |] eqn:Hi; [| discriminate Hi].
  assert (Hchord : chord = [d4]) by (injection Hi as <- _; reflexivity).
  subst chord. exists xi. split; [reflexivity |].
  apply (beamed_chords_evenly_spaced (utilities := specUtilities) sampleSizes
           fiveEighths [[[c4]; [cSharp4]; [d4]; [dSharp4]]; [[e4]]]
           _ 40 2 [d4] xi).
  - vm_compute. reflexivity.
  - left.
  - simpl. lia.
  - exact Hi.
Defined.

(** X9 on the entry of G, for a chord of two F. *)
Lemma accidentals_kept_witness :
  nextAccidentals [fNatural4; fSharp4] gMajorLetters !! G
  = gMajorLetters !! G.
Proof.
  apply (accidentals_kept gMajorLetters G [fNatural4; fSharp4]).
  intros note Hin Hletter.
  rewrite !elem_of_cons, elem_of_nil in Hin.
  destruct Hin as [-> | [-> | []]]; discriminate Hletter.
Defined.

(** X10 on a chord of F natural and C. *)
Lemma chord_then_same_chord_witness :
  NoDup (map (λ n, letter (getLabel n)) [fNatural4; c4])
  ∧ nextAccidentals [fNatural4; c4]
      (nextAccidentals [fNatural4; c4] gMajorLetters)
    = nextAccidentals [fNatural4; c4] gMajorLetters.
Proof.
  assert (Hnodup : NoDup (map (λ n, letter (getLabel n)) [fNatural4; c4])).
  { apply NoDup_ListNoDup. repeat constructor; simpl; intuition discriminate. }
  split; [exact Hnodup |].
  apply (chord_then_same_chord gMajorLetters [fNatural4; c4] Hnodup).
Defined.

(** X12 and X13 on the two measures. *)
Lemma accidentals_reset_every_measure_witness :
  ∃ st,
    GrandStaff 500 gMajorLabels sampleMusic = Some st
    ∧ map notesAndState (chordPropsOf (trebleMusic st))
      = concat (map (λ measure,
                       trackAccidentals (keyLetters gMajorLabels)
                         (trebleClef measure)) sampleMusic).
Proof.
  destruct (GrandStaff 500 gMajorLabels sampleMusic) as [st |] eqn:Hrun;
    [| vm_compute in Hrun; discriminate].
  exists st. split; [reflexivity |].
  apply (accidentals_reset_every_measure _ _ _ _ Hrun).
Defined.

Lemma bar_lines_left_to_right_witness :
  0 <= 500
  ∧ ∃ st,
      GrandStaff 500 gMajorLabels sampleMusic = Some st
      ∧ ∀ bar, bar ∈ barLines st → 40 <= bar_x bar.
Proof.
  assert (Hh : 0 <= 500) by discriminate.
  split; [exact Hh |].
  destruct (GrandStaff 500 gMajorLabels sampleMusic) as [st |] eqn:Hrun;
    [| vm_compute in Hrun; discriminate].
  exists st. split; [reflexivity |].
  apply (bar_lines_left_to_right (utilities := specUtilities) 500
           gMajorLabels sampleMusic st Hh durationWidth_nonneg Hrun).
Defined.

(** X14 on C4 and C5, X16 on C4 and E4. *)
Lemma octave_is_seven_positions_witness :
  (basePosition (sampleNote C NATURAL 5 72 EIGHTH) TREBLE
   - basePosition c4 TREBLE = 7 * (5 - 4))%Z.
Proof.
  apply (octave_is_seven_positions c4 (sampleNote C NATURAL 5 72 EIGHTH)
           TREBLE 25 eq_refl).
Defined.

Lemma positions_follow_octave_and_letter_witness :
  (basePosition c4 TREBLE < basePosition e4 TREBLE)%Z
  ↔ (getOctave c4 < getOctave e4)%Z
    ∨ (getOctave c4 = getOctave e4
       ∧ (indexOf TREBLE_CLEF C < indexOf TREBLE_CLEF E)%Z).
Proof.
  apply (positions_follow_octave_and_letter c4 e4 TREBLE);
    split; intros [H1 H2]; first [discriminate H1 | discriminate H2].
Defined.

(** X19 with every box ticked and a key. *)
Lemma key_excludes_keyless_qualities_witness :
  Triad MAJOR ∈ getAllowedChordQualities (Some 0%nat) everythingOn
  ∧ ¬ needsNoKey (Triad MAJOR)
  ∧ length (getAllowedChordQualities (Some 0%nat) everythingOn) = 7%nat.
Proof.
  assert (Hin : Triad MAJOR
                ∈ getAllowedChordQualities (Some 0%nat) everythingOn)
    by (vm_compute; left).
  split; [exact Hin |]. split; [| reflexivity].
  destruct (key_excludes_keyless_qualities (λ k : nat, k) 0%nat everythingOn)
    as (Hkey & _ & _).
  apply (Hkey 0%nat (Triad MAJOR) Hin).
Defined.

(** X20 on the five chords, of which three come first. *)
Lemma earlier_groups_are_final_witness :
  ∃ joined rest,
    [[[c4]; [cSharp4]; [d4]; [dSharp4]]; [[e4]]]
    = [] ++ [[[c4]; [cSharp4]; [d4]] ++ joined] ++ rest
    ∧ joined ++ concat rest = [[dSharp4]; [e4]].
Proof.
  apply (earlier_groups_are_final (utilities := specUtilities)
           [[c4]; [cSharp4]; [d4]] [[dSharp4]; [e4]] []
           [[c4]; [cSharp4]; [d4]]);
    vm_compute; reflexivity.
Defined.

(** X21 on the rising pair, moved by 100. *)
Lemma beam_moves_with_group_witness :
  ∃ line line',
    getBeamLine risingPair TREBLE 40 (125 / 2) 25 = Some line
    ∧ getBeamLine risingPair TREBLE (40 + 100) (125 / 2) 25 = Some line'
    ∧ xeq (getY line' (40 + 100)) (getY line 40).
Proof.
  destruct (getBeamLine risingPair TREBLE 40 (125 / 2) 25) as [line |]
    eqn:Hline; [| vm_compute in Hline; discriminate].
  destruct (beam_moves_with_group (utilities := specUtilities) risingPair
              TREBLE 40 100 (125 / 2) 25 line Hline)
    as (line' & Hline' & _ & Hy).
  exists line, line'. split; [reflexivity |]. split; [exact Hline' |].
  apply Hy.
Defined.
